(** * mcp-server-db2i: token, session, pool and rate-limit lifecycle

    A shallow embedding of the HTTP transport's stateful components:

    - [RateLimiter]    src/utils/rateLimiter.ts   (fixed-window counter)
    - [Connection]     src/db/connection.ts       (session pool registry)
    - [TokenManager]   src/auth/tokenManager.ts   (token sessions)
    - [SessionManager] src/transports/sessionManager.ts (MCP sessions)
    - [Http]           src/transports/http.ts     (/auth and /mcp handlers)

    Conventions.  Instants ([Date.now()], [Date#getTime()]) are integers in
    milliseconds and are passed to every operation that reads the clock.
    JavaScript [Map]s are [gmap]s.  Values produced by collaborators that live
    outside the repository (random tokens, the JDBC pool, the MCP SDK server
    and transport) enter the operations as explicit arguments, and every call
    made on such a collaborator is recorded in a trace kept next to the
    state, so that "is called" and "is called at most once" can be stated.
    A loop over the entries of a [Map] visits them in [map_to_list] order
    here and in insertion order in the source; nothing below depends on the
    order.  An [async] method is given as the function from the state at its
    call to the state at its return; where the interleaving of several
    activations matters ([closeSession]) it is also given one suspension
    point at a time. *)

From stdpp Require Import gmap strings list fin_maps pretty.
From Stdlib Require Import ZArith Lia Ascii.

Local Open Scope Z_scope.

(** Outcome of a call that may throw (or of a promise that may reject). *)
Inductive result (A : Type) : Type :=
| Ok (a : A)
| Throw (msg : string).
Arguments Ok {A} a.
Arguments Throw {A} msg.

(** [Math.ceil(a / b)] on integers, for a positive divisor. *)
Definition ceil_div (a b : Z) : Z := - ((- a) / b).

(** The time value of a [Date]: milliseconds since the epoch, or NaN for an
    Invalid Date ([None]).  [new Date(ms)] clips: a time value beyond
    8.64e15 ms on either side is NaN.  The clock is read as an integer
    that is not negative, so the sums passed to [new Date] are exact
    wherever they are in range. *)
Definition TimeValue := option Z.

Definition maxTimeValue : Z := 8640000000000000.

Definition newDate (ms : Z) : TimeValue :=
  if Z.abs ms <=? maxTimeValue then Some ms else None.

(** [now > d] and [now <= d] for a clock reading [now] and a date [d]:
    every comparison with NaN is false. *)
Definition later_than (now : Z) (d : TimeValue) : bool :=
  match d with
  | Some t => now >? t
  | None => false
  end.

Definition not_later_than (now : Z) (d : TimeValue) : bool :=
  match d with
  | Some t => now <=? t
  | None => false
  end.

(* ===================================================================== *)
(** ** Rate limiter (src/utils/rateLimiter.ts) *)
(* ===================================================================== *)

Module RateLimiter.

Record RateLimitConfig := {
  windowMs : Z;
  maxRequests : Z;
  enabled : bool;
}.

Definition DEFAULT_RATE_LIMIT : RateLimitConfig :=
  {| windowMs := 15 * 60 * 1000; maxRequests := 100; enabled := true |}.

Record WindowData := {
  count : Z;
  windowStart : Z;
}.

Record RateLimitResult := {
  allowed : bool;
  remaining : Z;
  resetTime : Z;
  retryAfterSeconds : Z;
  limit : Z;
  r_windowMs : Z;
}.

(** State of a [RateLimiter] instance: its configuration is fixed at
    construction, the [windows] map is mutated by [checkLimit]. *)
Abbreviation Windows := (gmap string WindowData).

(** [checkLimit(key)], reading the clock as [now].  The window object held
    in the map is mutated in place by [window.count++], hence the second
    insertion. *)
Definition checkLimit (config : RateLimitConfig) (key : string) (now : Z)
    (windows : Windows) : RateLimitResult * Windows :=
  if negb (enabled config) then
    ({| allowed := true;
        remaining := maxRequests config;
        resetTime := now + windowMs config;
        retryAfterSeconds := 0;
        limit := maxRequests config;
        r_windowMs := windowMs config |}, windows)
  else
    let fresh := {| count := 0; windowStart := now |} in
    let '(window, windows1) :=
      match windows !! key with
      | None => (fresh, <[key := fresh]> windows)
      | Some w =>
          if now >=? windowStart w + windowMs config
          then (fresh, <[key := fresh]> windows)
          else (w, windows)
      end in
    let resetTime := windowStart window + windowMs config in
    let retryAfterSeconds := ceil_div (resetTime - now) 1000 in
    if count window >=? maxRequests config then
      ({| allowed := false;
          remaining := 0;
          resetTime := resetTime;
          retryAfterSeconds := retryAfterSeconds;
          limit := maxRequests config;
          r_windowMs := windowMs config |}, windows1)
    else
      let window' := {| count := count window + 1;
                        windowStart := windowStart window |} in
      let remaining := maxRequests config - count window' in
      ({| allowed := true;
          remaining := remaining;
          resetTime := resetTime;
          retryAfterSeconds := retryAfterSeconds;
          limit := maxRequests config;
          r_windowMs := windowMs config |}, <[key := window']> windows1).

(** A history of checks, oldest first, replayed from the empty map. *)
Definition replay (config : RateLimitConfig) (history : list (string * Z))
    : Windows :=
  foldl (fun ws '(k, t) => snd (checkLimit config k t ws)) ∅ history.

(** The window that the specification calls "current" for [key] at [now]:
    the stored one, unless it is absent or has run out, in which case a new
    window starts at [now] with a zero count. *)
Definition current_window (config : RateLimitConfig) (key : string) (now : Z)
    (windows : Windows) : WindowData :=
  match windows !! key with
  | None => {| count := 0; windowStart := now |}
  | Some w =>
      if decide (now >= windowStart w + windowMs config)
      then {| count := 0; windowStart := now |}
      else w
  end.

(** The check as the specification words it: take the current window; if
    its count is below the limit, count the request and allow it, the
    remaining budget being the limit minus the count just reached;
    otherwise refuse it with nothing remaining and the time to the end of
    the window, in seconds, rounded up. *)
Definition check_spec (config : RateLimitConfig) (key : string) (now : Z)
    (windows : Windows) : RateLimitResult * Windows :=
  let w := current_window config key now windows in
  let resetAt := windowStart w + windowMs config in
  if decide (count w < maxRequests config) then
    let counted := {| count := count w + 1; windowStart := windowStart w |} in
    ({| allowed := true;
        remaining := maxRequests config - count counted;
        resetTime := resetAt;
        retryAfterSeconds := ceil_div (resetAt - now) 1000;
        limit := maxRequests config;
        r_windowMs := windowMs config |}, <[key := counted]> windows)
  else
    ({| allowed := false;
        remaining := 0;
        resetTime := resetAt;
        retryAfterSeconds := ceil_div (resetAt - now) 1000;
        limit := maxRequests config;
        r_windowMs := windowMs config |}, <[key := w]> windows).

(** [getStatus(key)]: the status without counting a request. *)
Definition getStatus (config : RateLimitConfig) (key : string) (now : Z)
    (windows : Windows) : RateLimitResult :=
  let untouched :=
    {| allowed := true;
       remaining := maxRequests config;
       resetTime := now + windowMs config;
       retryAfterSeconds := 0;
       limit := maxRequests config;
       r_windowMs := windowMs config |} in
  if negb (enabled config) then untouched
  else
    match windows !! key with
    | None => untouched
    | Some window =>
        if now >=? windowStart window + windowMs config then untouched
        else
          let resetTime := windowStart window + windowMs config in
          let remaining := Z.max 0 (maxRequests config - count window) in
          {| allowed := remaining >? 0;
             remaining := remaining;
             resetTime := resetTime;
             retryAfterSeconds := ceil_div (resetTime - now) 1000;
             limit := maxRequests config;
             r_windowMs := windowMs config |}
    end.

Record RateLimitError := {
  error : string;
  waitTimeSeconds : Z;
  e_limit : Z;
  e_windowMs : Z;
}.

Definition formatError (result : RateLimitResult) : RateLimitError :=
  {| error := "Rate limit exceeded. Please try again in "
              +:+ pretty (retryAfterSeconds result) +:+ " seconds.";
     waitTimeSeconds := retryAfterSeconds result;
     e_limit := limit result;
     e_windowMs := r_windowMs result |}.

(** [reset(key)] and [resetAll()]. *)
Definition reset (key : string) (windows : Windows) : Windows := delete key windows.

Definition resetAll (windows : Windows) : Windows := ∅.

(** [cleanup()], run by the timer every [windowMs]: every window that has
    run out is deleted. *)
Definition cleanup (config : RateLimitConfig) (now : Z) (windows : Windows) : Windows :=
  filter (fun kv => ~ (now >= windowStart kv.2 + windowMs config)) windows.

(** Successive [checkLimit(key)] calls at the instants [times]; the
    results, oldest first. *)
Fixpoint checkEach (config : RateLimitConfig) (key : string) (times : list Z)
    (windows : Windows) : list RateLimitResult :=
  match times with
  | [] => []
  | t :: times' =>
      (checkLimit config key t windows).1
      :: checkEach config key times' (checkLimit config key t windows).2
  end.

End RateLimiter.

(** * The tool wrapper ([src/server.ts])

    [withToolHandler] puts the rate limiter in front of every tool of the
    MCP server.  The state is the limiter's window map and the number of
    times a wrapped handler has been invoked. *)
Module Server.

Record ToolResult := {
  success : bool;
  tr_error : option string;
  payload : string;
}.

(** The MCP response.  The text of a refusal is [JSON.stringify] of the
    rate limit error and that of a success [JSON.stringify] of the result;
    the first two carry [isError: true]. *)
Inductive McpToolResponse :=
| RateLimited (e : RateLimiter.RateLimitError)
| ToolFailed (text : string)
| ToolSucceeded (result : ToolResult).

Record State := {
  windows : RateLimiter.Windows;
  handled : nat;
}.

(** The function returned by [withToolHandler(handler, errorMessage)],
    called at [now]; [handler] is what [await handler(args, sessionId)]
    gives when it is reached.  A rejection of the handler is not caught. *)
Definition withToolHandler (config : RateLimiter.RateLimitConfig)
    (handler : result ToolResult) (errorMessage : string) (now : Z) (st : State)
    : result McpToolResponse * State :=
  let '(rateResult, ws) := RateLimiter.checkLimit config "default" now (windows st) in
  if negb (RateLimiter.allowed rateResult) then
    (Ok (RateLimited (RateLimiter.formatError rateResult)),
     {| windows := ws; handled := handled st |})
  else
    let st' := {| windows := ws; handled := S (handled st) |} in
    match handler with
    | Throw msg => (Throw msg, st')
    | Ok toolResult =>
        if negb (success toolResult)
        then (Ok (ToolFailed (default errorMessage (tr_error toolResult))), st')
        else (Ok (ToolSucceeded toolResult), st')
    end.

(** Tool calls made one after the other: the instant of each call, what
    its handler gives and the tool's error message. *)
Definition callTools (config : RateLimiter.RateLimitConfig)
    (calls : list (Z * (result ToolResult * string))) (st : State) : State :=
  foldl (fun acc call => (withToolHandler config call.2.1 call.2.2 call.1 acc).2)
        st calls.

End Server.

(* ===================================================================== *)
(** ** Configuration (src/config.ts) *)
(* ===================================================================== *)

Record DB2iConfig := {
  hostname : string;
  port : Z;
  username : string;
  password : string;
  database : string;
  schema : string;
  jdbcOptions : list (string * string);
}.

Inductive SessionMode := stateful | stateless.
(** ['required'], ['token'] and ['none']. *)
Inductive AuthMode := AuthRequired | AuthToken | AuthNone.

(** The fields of [HttpConfig] read by the components below. *)
Record HttpConfig := {
  sessionMode : SessionMode;
  authMode : AuthMode;
  staticToken : option string;
  tokenExpiry : Z;
  maxSessions : Z;
}.

(** [String.prototype.includes]. *)
Fixpoint includes (needle hay : string) : bool :=
  if String.prefix needle hay then true
  else match hay with
       | EmptyString => false
       | String _ rest => includes needle rest
       end.

(* ===================================================================== *)
(** ** Session pool registry (src/db/connection.ts) *)
(* ===================================================================== *)

Module Connection.

(** The handle returned by the driver's [pool(connectionConfig)].  How the
    remote system answers is fixed per handle: whether the probe query
    succeeds and whether [close()] rejects. *)
Record Pool := {
  pool_config : DB2iConfig;
  query_ok : bool;
  close_rejects : bool;
}.

(** The module-level [sessionPools] map, with the trace of the keys whose
    pool had [close()] called on it. *)
Record Registry := {
  sessionPools : gmap string Pool;
  closeCalls : list string;
}.

Definition empty : Registry := {| sessionPools := ∅; closeCalls := [] |}.

Section Driver.
(** The driver's [pool] constructor; it may throw. *)
Variable jt400_pool : DB2iConfig -> result Pool.

Definition initializeSessionPool (sessionId : string) (config : DB2iConfig)
    (r : Registry) : result unit * Registry :=
  match sessionPools r !! sessionId with
  | Some _ => (Ok (), r)
  | None =>
      match jt400_pool config with
      | Throw msg => (Throw msg, r)
      | Ok sessionPool =>
          (Ok (), {| sessionPools := <[sessionId := sessionPool]> (sessionPools r);
                     closeCalls := closeCalls r |})
      end
  end.
End Driver.

(** [closeSessionPool]: both the [try] and the [catch] branch delete the
    entry; the function never throws. *)
Definition closeSessionPool (sessionId : string) (r : Registry) : Registry :=
  match sessionPools r !! sessionId with
  | Some sessionPool =>
      if close_rejects sessionPool then
        {| sessionPools := delete sessionId (sessionPools r);
           closeCalls := closeCalls r ++ [sessionId] |}
      else
        {| sessionPools := delete sessionId (sessionPools r);
           closeCalls := closeCalls r ++ [sessionId] |}
  | None => r
  end.

(** [closeAllSessionPools]: [closeSessionPool] on every key that is
    registered when the call starts. *)
Definition closeAllSessionPools (r : Registry) : Registry :=
  if decide (size (sessionPools r) = 0%nat) then r
  else foldl (fun acc sessionId => closeSessionPool sessionId acc) r
             (fmap fst (map_to_list (sessionPools r))).

(** [testSessionConnection]: [getPool] takes the session's pool for a
    [sessionId] that is not empty and the pool of the stdio transport,
    [globalPool], for an empty one (it tests [if (sessionId)]);
    [executeQuery] throws when that pool is missing or when the query
    fails, and both are caught and reported as [false].  The HTTP
    transport never assigns [globalPool]. *)
Definition testSessionConnection (globalPool : option Pool) (sessionId : string)
    (r : Registry) : bool :=
  let db := if decide (sessionId = "") then globalPool
            else sessionPools r !! sessionId in
  match db with
  | Some p => query_ok p
  | None => false
  end.

Definition hasSessionPool (sessionId : string) (r : Registry) : bool :=
  bool_decide (is_Some (sessionPools r !! sessionId)).

End Connection.

(* ===================================================================== *)
(** ** Token manager (src/auth/tokenManager.ts) *)
(* ===================================================================== *)

Module TokenManager.

Record TokenSession := {
  token : string;
  config : DB2iConfig;
  createdAt : Z;
  expiresAt : TimeValue;
  lastUsedAt : Z;
  mcpSessionId : option string;
}.

Record TokenValidationResult := {
  valid : bool;
  session : option TokenSession;
  error : option string;
}.

Record CreateResult := {
  cr_token : string;
  cr_expiresAt : TimeValue;
  cr_expiresIn : Z;
}.

Section WithEnv.
(** [E] is the part of the process that the cleanup callback acts on (in
    the HTTP transport: the pool registry). *)
Context {E : Type}.

Definition SessionCleanupCallback := string -> E -> E.

(** The fields of the singleton, with the trace [invoked] of the tokens
    the cleanup callback has been called with, oldest first. *)
Record State := {
  sessions : gmap string TokenSession;
  cleanupCallback : option SessionCleanupCallback;
  invoked : list string;
}.

Definition init : State :=
  {| sessions := ∅; cleanupCallback := None; invoked := [] |}.

Definition with_sessions (m : gmap string TokenSession) (st : State) : State :=
  {| sessions := m; cleanupCallback := cleanupCallback st; invoked := invoked st |}.

(** [notifyCleanup]: an exception raised by the callback is caught and
    logged, so the call always returns. *)
Definition notifyCleanup (tok : string) (w : State * E) : State * E :=
  match cleanupCallback w.1 with
  | Some cb =>
      ({| sessions := sessions w.1;
          cleanupCallback := cleanupCallback w.1;
          invoked := invoked w.1 ++ [tok] |}, cb tok w.2)
  | None => w
  end.

Definition setCleanupCallback (cb : SessionCleanupCallback) (st : State) : State :=
  {| sessions := sessions st; cleanupCallback := Some cb; invoked := invoked st |}.

Definition max_sessions_message (httpConfig : HttpConfig) : string :=
  "Maximum concurrent sessions (" +:+ pretty (maxSessions httpConfig)
    +:+ ") reached. Please try again later.".

(** [createSession(config, durationSeconds?)]; [fresh] is the value of
    [generateTokenString()] and [now] that of [new Date()].  The expiry is
    [new Date(now.getTime() + expiresIn * 1000)], an Invalid Date when the
    sum is out of the range of time values. *)
Definition createSession (httpConfig : HttpConfig) (fresh : string)
    (cfg : DB2iConfig) (durationSeconds : option Z) (now : Z) (st : State)
    : result CreateResult * State :=
  if Z.of_nat (size (sessions st)) >=? maxSessions httpConfig then
    (Throw (max_sessions_message httpConfig), st)
  else
    let expiresIn := default (tokenExpiry httpConfig) durationSeconds in
    let expiresAt := newDate (now + expiresIn * 1000) in
    let session := {| token := fresh; config := cfg; createdAt := now;
                      expiresAt := expiresAt; lastUsedAt := now;
                      mcpSessionId := None |} in
    (Ok {| cr_token := fresh; cr_expiresAt := expiresAt; cr_expiresIn := expiresIn |},
     with_sessions (<[fresh := session]> (sessions st)) st).

(** [validateToken(token)].  The two [new Date()] reads of the method are
    taken at the same instant [now]. *)
Definition validateToken (tok : string) (now : Z) (st : State)
    : TokenValidationResult * State :=
  if decide (tok = "") then
    ({| valid := false; session := None; error := Some "Invalid token format" |}, st)
  else
    match sessions st !! tok with
    | None =>
        ({| valid := false; session := None;
            error := Some "Token not found or expired" |}, st)
    | Some s =>
        if later_than now (expiresAt s) then
          ({| valid := false; session := None; error := Some "Token expired" |},
           with_sessions (delete tok (sessions st)) st)
        else
          let s' := {| token := token s; config := config s;
                       createdAt := createdAt s; expiresAt := expiresAt s;
                       lastUsedAt := now; mcpSessionId := mcpSessionId s |} in
          ({| valid := true; session := Some s'; error := None |},
           with_sessions (<[tok := s']> (sessions st)) st)
    end.

Definition getSession (tok : string) (st : State) : option TokenSession :=
  sessions st !! tok.

Definition setMcpSessionId (tok id : string) (st : State) : State :=
  match sessions st !! tok with
  | Some s =>
      let s' := {| token := token s; config := config s;
                   createdAt := createdAt s; expiresAt := expiresAt s;
                   lastUsedAt := lastUsedAt s; mcpSessionId := Some id |} in
      with_sessions (<[tok := s']> (sessions st)) st
  | None => st
  end.

(** [revokeToken(token)]. *)
Definition revokeToken (tok : string) (w : State * E) : bool * (State * E) :=
  match sessions w.1 !! tok with
  | None => (false, w)
  | Some _ =>
      (true, notifyCleanup tok (with_sessions (delete tok (sessions w.1)) w.1, w.2))
  end.

(** The tokens collected by the first loop of [cleanupExpiredSessions]. *)
Definition expiredTokens (now : Z) (st : State) : list string :=
  fmap fst (filter (fun kv => later_than now (expiresAt kv.2) = true)
              (map_to_list (sessions st))).

(** [cleanupExpiredSessions()], the body of the one-minute timer. *)
Definition cleanupExpiredSessions (now : Z) (w : State * E) : State * E :=
  foldl (fun acc tok =>
           notifyCleanup tok (with_sessions (delete tok (sessions acc.1)) acc.1, acc.2))
        w (expiredTokens now w.1).

(** [shutdown()]: the callback is called for every remaining token, then
    the map is cleared. *)
Definition shutdown (w : State * E) : State * E :=
  let tokens := fmap fst (map_to_list (sessions w.1)) in
  let w' := foldl (fun acc tok => notifyCleanup tok acc) w tokens in
  (with_sessions ∅ w'.1, w'.2).

Definition canCreateSession (httpConfig : HttpConfig) (st : State) : bool :=
  Z.of_nat (size (sessions st)) <? maxSessions httpConfig.

Record Stats := {
  totalSessions : Z;
  activeSessions : Z;
  expiredSessions : Z;
}.

(** [getStats()]: one pass over the stored sessions. *)
Definition getStats (now : Z) (st : State) : Stats :=
  let counts :=
    foldl (fun acc kv =>
             if not_later_than now (expiresAt kv.2)
             then (acc.1 + 1, acc.2) else (acc.1, acc.2 + 1))
          (0, 0) (map_to_list (sessions st)) in
  {| totalSessions := Z.of_nat (size (sessions st));
     activeSessions := counts.1;
     expiredSessions := counts.2 |}.

(** One call on the manager, as issued by a handler, a timer tick or the
    shutdown hook. *)
Inductive Op :=
| OpCreate (fresh : string) (cfg : DB2iConfig) (durationSeconds : option Z) (now : Z)
| OpValidate (tok : string) (now : Z)
| OpSetMcpSessionId (tok id : string)
| OpRevoke (tok : string)
| OpCleanupExpired (now : Z)
| OpSetCleanupCallback (cb : SessionCleanupCallback)
| OpShutdown.

Definition exec (httpConfig : HttpConfig) (op : Op) (w : State * E) : State * E :=
  match op with
  | OpCreate fresh cfg d now => ((createSession httpConfig fresh cfg d now w.1).2, w.2)
  | OpValidate tok now => ((validateToken tok now w.1).2, w.2)
  | OpSetMcpSessionId tok id => (setMcpSessionId tok id w.1, w.2)
  | OpRevoke tok => (revokeToken tok w).2
  | OpCleanupExpired now => cleanupExpiredSessions now w
  | OpSetCleanupCallback cb => (setCleanupCallback cb w.1, w.2)
  | OpShutdown => shutdown w
  end.

Definition run (httpConfig : HttpConfig) (ops : list Op) (w : State * E) : State * E :=
  foldl (fun acc op => exec httpConfig op acc) w ops.

End WithEnv.

Arguments State : clear implicits.
Arguments Op : clear implicits.

End TokenManager.

(* ===================================================================== *)
(** ** MCP session manager (src/transports/sessionManager.ts) *)
(* ===================================================================== *)

Module SessionManager.

(** Handles of the SDK objects owned by a session. *)
Definition McpServer := nat.
Definition Transport := nat.

Record McpSession := {
  id : string;
  server : McpServer;
  transport : Transport;
  authToken : string;
  createdAt : Z;
  lastAccessedAt : Z;
  activeRequests : Z;
  isClosing : bool;
}.

Definition staleTimeoutMs : Z := 30 * 60 * 1000.
Definition cleanupIntervalMs : Z := 60 * 1000.

(** Calls made by the manager on the SDK objects of the session [id]. *)
Inductive Call :=
| TransportClose (sessionId : string)
| ServerClose (sessionId : string).

#[global] Instance Call_eq_dec : EqDecision Call.
Proof. solve_decision. Defined.

Record State := {
  sessions : gmap string McpSession;
  calls : list Call;
}.

Definition init : State := {| sessions := ∅; calls := [] |}.

Definition with_sessions (m : gmap string McpSession) (st : State) : State :=
  {| sessions := m; calls := calls st |}.

Definition set_lastAccessedAt (now : Z) (s : McpSession) : McpSession :=
  {| id := id s; server := server s; transport := transport s;
     authToken := authToken s; createdAt := createdAt s;
     lastAccessedAt := now; activeRequests := activeRequests s;
     isClosing := isClosing s |}.

Definition set_activeRequests (n : Z) (s : McpSession) : McpSession :=
  {| id := id s; server := server s; transport := transport s;
     authToken := authToken s; createdAt := createdAt s;
     lastAccessedAt := lastAccessedAt s; activeRequests := n;
     isClosing := isClosing s |}.

Definition set_isClosing (b : bool) (s : McpSession) : McpSession :=
  {| id := id s; server := server s; transport := transport s;
     authToken := authToken s; createdAt := createdAt s;
     lastAccessedAt := lastAccessedAt s; activeRequests := activeRequests s;
     isClosing := b |}.

(** [createSession(server, authToken)]: [sessionId] is the value of
    [randomUUID()], [tr] the transport constructed for it and [connect]
    the outcome of [await server.connect(transport)]. *)
Definition createSession (sessionId : string) (srv : McpServer) (tr : Transport)
    (tok : string) (connect : result unit) (now : Z) (st : State)
    : result (string * Transport) * State :=
  match connect with
  | Throw msg => (Throw msg, st)
  | Ok _ =>
      let session := {| id := sessionId; server := srv; transport := tr;
                        authToken := tok; createdAt := now;
                        lastAccessedAt := now; activeRequests := 0;
                        isClosing := false |} in
      (Ok (sessionId, tr), with_sessions (<[sessionId := session]> (sessions st)) st)
  end.

Definition getSession (sessionId : string) (now : Z) (st : State)
    : option McpSession * State :=
  match sessions st !! sessionId with
  | Some s =>
      if isClosing s then (None, st)
      else let s' := set_lastAccessedAt now s in
           (Some s', with_sessions (<[sessionId := s']> (sessions st)) st)
  | None => (None, st)
  end.

Definition hasSession (sessionId : string) (st : State) : bool :=
  match sessions st !! sessionId with
  | Some s => negb (isClosing s)
  | None => false
  end.

Definition incrementActiveRequests (sessionId : string) (now : Z) (st : State) : State :=
  match sessions st !! sessionId with
  | Some s =>
      let s' := set_lastAccessedAt now (set_activeRequests (activeRequests s + 1) s) in
      with_sessions (<[sessionId := s']> (sessions st)) st
  | None => st
  end.

Definition decrementActiveRequests (sessionId : string) (now : Z) (st : State) : State :=
  match sessions st !! sessionId with
  | Some s =>
      if activeRequests s >? 0 then
        let s' := set_lastAccessedAt now (set_activeRequests (activeRequests s - 1) s) in
        with_sessions (<[sessionId := s']> (sessions st)) st
      else st
  | None => st
  end.

(** *** [closeSession], one suspension point at a time

    The method suspends at [await session.transport.close()] and at
    [await session.server.close()].  [closeSession_begin] is the code run
    up to the first [await]; [closeSession_resume] is the code run when the
    awaited promise settles, with its outcome. *)
Inductive ClosePoint := AwaitTransportClose | AwaitServerClose.

Definition closeSession_begin (sessionId : string) (st : State)
    : (bool + ClosePoint) * State :=
  match sessions st !! sessionId with
  | None => (inl false, st)
  | Some s =>
      if isClosing s then (inl false, st)
      else
        (inr AwaitTransportClose,
         {| sessions := <[sessionId := set_isClosing true s]> (sessions st);
            calls := calls st ++ [TransportClose sessionId] |})
  end.

Definition closeSession_resume (sessionId : string) (at_ : ClosePoint)
    (settled : result unit) (st : State) : (bool + ClosePoint) * State :=
  match at_, settled with
  | AwaitTransportClose, Ok _ =>
      (inr AwaitServerClose,
       {| sessions := sessions st; calls := calls st ++ [ServerClose sessionId] |})
  | AwaitTransportClose, Throw _ =>
      (inl true, with_sessions (delete sessionId (sessions st)) st)
  | AwaitServerClose, _ =>
      (inl true, with_sessions (delete sessionId (sessions st)) st)
  end.

(** The outcomes of the two [close()] promises of one [closeSession] call. *)
Record CloseOutcome := {
  transport_close : result unit;
  server_close : result unit;
}.

(** [closeSession(sessionId)] run from call to return with nothing else
    scheduled in between. *)
Definition closeSession (sessionId : string) (o : CloseOutcome) (st : State)
    : bool * State :=
  match closeSession_begin sessionId st with
  | (inl b, st1) => (b, st1)
  | (inr p1, st1) =>
      match closeSession_resume sessionId p1 (transport_close o) st1 with
      | (inl b, st2) => (b, st2)
      | (inr p2, st2) =>
          match closeSession_resume sessionId p2 (server_close o) st2 with
          | (inl b, st3) => (b, st3)
          | (inr _, st3) => (true, st3)
          end
      end
  end.

(** The calls made by one admitted [closeSession]: [transport.close()],
    then [server.close()] unless the first promise rejected. *)
Definition close_calls (sessionId : string) (o : CloseOutcome) : list Call :=
  match transport_close o with
  | Ok _ => [TransportClose sessionId; ServerClose sessionId]
  | Throw _ => [TransportClose sessionId]
  end.

(** The ids collected by the first loop of [closeSessionsByToken]. *)
Definition sessionsToClose (tok : string) (st : State) : list string :=
  fmap fst (filter (fun kv => authToken kv.2 = tok) (map_to_list (sessions st))).

(** The ids collected by the first loop of [cleanupStaleSessions]. *)
Definition staleSessionIds (now : Z) (st : State) : list string :=
  fmap fst
    (filter (fun kv =>
               isClosing kv.2 = false /\
               now - lastAccessedAt kv.2 > staleTimeoutMs /\
               activeRequests kv.2 = 0)
            (map_to_list (sessions st))).

(** The ids collected by [shutdown]: [Array.from(this.sessions.keys())]. *)
Definition shutdownSessionIds (st : State) : list string :=
  fmap fst (map_to_list (sessions st)).

(** [for (const sessionId of ids) await this.closeSession(sessionId)], run
    with nothing else scheduled in between; [outcome] gives what the SDK
    objects of each session answer.  Returns the number of calls that
    returned [true]. *)
Definition closeEach (outcome : string -> CloseOutcome) (ids : list string)
    (st : State) : Z * State :=
  foldl (fun acc sessionId =>
           let '(closed, st') := closeSession sessionId (outcome sessionId) acc.2 in
           ((if closed then acc.1 + 1 else acc.1), st'))
        (0, st) ids.

Definition closeSessionsByToken (outcome : string -> CloseOutcome) (tok : string)
    (st : State) : Z * State :=
  closeEach outcome (sessionsToClose tok st) st.

(** One tick of the stale-session timer when the loop is not interrupted:
    the ids are collected first, which is the only place where
    [activeRequests] and [lastAccessedAt] are read, and [closeSession] is
    then awaited on each.  What other handlers can do between the awaits
    is the matter of the step relation below, where the same tick is
    [step_call_cleanupStaleSessions] followed by task steps. *)
Definition cleanupStaleSessions (outcome : string -> CloseOutcome) (now : Z)
    (st : State) : State :=
  (closeEach outcome (staleSessionIds now st) st).2.

Definition shutdown (outcome : string -> CloseOutcome) (st : State) : State :=
  (closeEach outcome (shutdownSessionIds st) st).2.

(** *** Interleaved execution

    A [Task] is one activation of [closeSession] itself ([DELETE /mcp], the
    transport's [onclose] hook) or of one of the three loops above: the ids
    it has still to close, and where the [closeSession] call it is waiting
    in is suspended, if any. *)
Record Task := {
  waiting : option (string * ClosePoint);
  todo : list string;
}.

Record System := {
  mgr : State;
  tasks : list Task;
  issued : gset string;   (* every id [randomUUID()] has returned so far *)
}.

Definition boot : System := {| mgr := init; tasks := []; issued := ∅ |}.

(** One scheduling step of a task: start the next [closeSession] call, or
    resume the suspended one with the outcome of the awaited promise. *)
Definition task_step (settled : result unit) (t : Task) (st : State)
    : option (Task * State) :=
  match waiting t, todo t with
  | Some (sessionId, p), _ =>
      match closeSession_resume sessionId p settled st with
      | (inl _, st') => Some ({| waiting := None; todo := todo t |}, st')
      | (inr p', st') => Some ({| waiting := Some (sessionId, p'); todo := todo t |}, st')
      end
  | None, sessionId :: rest =>
      match closeSession_begin sessionId st with
      | (inl _, st') => Some ({| waiting := None; todo := rest |}, st')
      | (inr p, st') => Some ({| waiting := Some (sessionId, p); todo := rest |}, st')
      end
  | None, [] => None
  end.

Inductive step : System -> System -> Prop :=
| step_create sys sessionId srv tr tok connect now r st' :
    sessionId ∉ issued sys ->
    createSession sessionId srv tr tok connect now (mgr sys) = (r, st') ->
    step sys {| mgr := st'; tasks := tasks sys; issued := {[sessionId]} ∪ issued sys |}
| step_getSession sys sessionId now :
    step sys {| mgr := (getSession sessionId now (mgr sys)).2;
                tasks := tasks sys; issued := issued sys |}
| step_increment sys sessionId now :
    step sys {| mgr := incrementActiveRequests sessionId now (mgr sys);
                tasks := tasks sys; issued := issued sys |}
| step_decrement sys sessionId now :
    step sys {| mgr := decrementActiveRequests sessionId now (mgr sys);
                tasks := tasks sys; issued := issued sys |}
| step_call_closeSession sys sessionId :
    step sys {| mgr := mgr sys;
                tasks := tasks sys ++ [{| waiting := None; todo := [sessionId] |}];
                issued := issued sys |}
| step_call_closeSessionsByToken sys tok :
    step sys {| mgr := mgr sys;
                tasks := tasks sys ++ [{| waiting := None;
                                          todo := sessionsToClose tok (mgr sys) |}];
                issued := issued sys |}
| step_call_cleanupStaleSessions sys now :
    step sys {| mgr := mgr sys;
                tasks := tasks sys ++ [{| waiting := None;
                                          todo := staleSessionIds now (mgr sys) |}];
                issued := issued sys |}
| step_call_shutdown sys :
    step sys {| mgr := mgr sys;
                tasks := tasks sys ++ [{| waiting := None;
                                          todo := shutdownSessionIds (mgr sys) |}];
                issued := issued sys |}
| step_task sys before t after settled t' st' :
    tasks sys = before ++ t :: after ->
    task_step settled t (mgr sys) = Some (t', st') ->
    step sys {| mgr := st'; tasks := before ++ t' :: after; issued := issued sys |}.

(** The scheduler runs the [n]-th task up to its next suspension point. *)
Definition advance (n : nat) (settled : result unit) (sys : System) : System :=
  match tasks sys !! n with
  | Some t =>
      match task_step settled t (mgr sys) with
      | Some (t', st') =>
          {| mgr := st';
             tasks := take n (tasks sys) ++ t' :: drop (S n) (tasks sys);
             issued := issued sys |}
      | None => sys
      end
  | None => sys
  end.

(** States reachable from a freshly constructed manager. *)
Inductive reachable : System -> Prop :=
| reachable_boot : reachable boot
| reachable_step sys sys' : reachable sys -> step sys sys' -> reachable sys'.

(** How often a call occurs in the trace. *)
Definition times (c : Call) (st : State) : nat :=
  count_occ Call_eq_dec (calls st) c.

(** The task is suspended inside [closeSession(sessionId)]. *)
Definition awaits (sessionId : string) (t : Task) : bool :=
  match waiting t with
  | Some (sessionId', _) => bool_decide (sessionId' = sessionId)
  | None => false
  end.

(** The number of [closeSession(sessionId)] calls that are suspended. *)
Definition inflight (sessionId : string) (ts : list Task) : nat :=
  sum_list_with (fun t => if awaits sessionId t then 1%nat else 0%nat) ts.

(** No [closeSession] call has got past the guards for [sessionId] yet:
    the session is stored and not closing, or the id has not been issued. *)
Definition untouched (sessionId : string) (sys : System) : Prop :=
  match sessions (mgr sys) !! sessionId with
  | Some s => isClosing s = false
  | None => sessionId ∉ issued sys
  end.

(** The invariant of the interleaved execution, per session id. *)
Definition consistent (sys : System) : Prop :=
  forall sessionId,
    (times (TransportClose sessionId) (mgr sys) <= 1)%nat /\
    (times (ServerClose sessionId) (mgr sys) <= 1)%nat /\
    (inflight sessionId (tasks sys) <= 1)%nat /\
    (untouched sessionId sys ->
       times (TransportClose sessionId) (mgr sys) = 0%nat /\
       times (ServerClose sessionId) (mgr sys) = 0%nat /\
       inflight sessionId (tasks sys) = 0%nat) /\
    (sessionId ∉ issued sys -> sessions (mgr sys) !! sessionId = None) /\
    (forall t, t ∈ tasks sys ->
       waiting t = Some (sessionId, AwaitTransportClose) ->
       times (ServerClose sessionId) (mgr sys) = 0%nat).

Record Stats := {
  totalSessions : Z;
  activeSessions : Z;
  staleSessions : Z;
}.

(** [getStats()]: sessions that are closing are counted in the total only. *)
Definition getStats (now : Z) (st : State) : Stats :=
  let counts :=
    foldl (fun acc kv =>
             if isClosing kv.2 then acc
             else if now - lastAccessedAt kv.2 >? staleTimeoutMs
                  then (acc.1, acc.2 + 1) else (acc.1 + 1, acc.2))
          (0, 0) (map_to_list (sessions st)) in
  {| totalSessions := Z.of_nat (size (sessions st));
     activeSessions := counts.1;
     staleSessions := counts.2 |}.

End SessionManager.

(* ===================================================================== *)
(** ** /auth throttle (src/auth/authMiddleware.ts) *)
(* ===================================================================== *)

Module AuthThrottle.

Record Attempt := { count : Z; resetAt : Z }.

Definition maxAttempts : Z := 5.
Definition windowMs : Z := 60000.

Abbreviation Attempts := (gmap string Attempt).

(** [authRateLimitMiddleware]: [inl retryAfter] answers 429, [inr] calls
    [next()]. *)
Definition authRateLimitMiddleware (ip : string) (now : Z) (a : Attempts)
    : (Z + unit) * Attempts :=
  let a1 := match a !! ip with
            | Some entry => if resetAt entry <? now then delete ip a else a
            | None => a
            end in
  match a1 !! ip with
  | Some current =>
      if count current >=? maxAttempts
      then (inl (ceil_div (resetAt current - now) 1000), a1)
      else (inr (), a1)
  | None => (inr (), a1)
  end.

Definition recordFailedAuthAttempt (ip : string) (now : Z) (a : Attempts) : Attempts :=
  match a !! ip with
  | Some current =>
      if resetAt current >? now
      then <[ip := {| count := count current + 1; resetAt := resetAt current |}]> a
      else <[ip := {| count := 1; resetAt := now + windowMs |}]> a
  | None => <[ip := {| count := 1; resetAt := now + windowMs |}]> a
  end.

Definition clearAuthRateLimit (ip : string) (a : Attempts) : Attempts :=
  delete ip a.

(** Failed attempts of one client recorded at the instants [times]. *)
Definition recordEach (ip : string) (times : list Z) (a : Attempts) : Attempts :=
  foldl (fun acc t => recordFailedAuthAttempt ip t acc) a times.

End AuthThrottle.

(* ===================================================================== *)
(** ** Query limits (src/config.ts) *)
(* ===================================================================== *)

Module QueryLimit.

Record QueryLimitConfig := {
  defaultLimit : Z;
  maxLimit : Z;
}.

Definition DEFAULT_QUERY_LIMIT : QueryLimitConfig :=
  {| defaultLimit := 1000; maxLimit := 10000 |}.

(** [getQueryLimitConfig()]; the arguments are the integers held by
    [QUERY_DEFAULT_LIMIT] and [QUERY_MAX_LIMIT], [None] when unset. *)
Definition getQueryLimitConfig (QUERY_DEFAULT_LIMIT QUERY_MAX_LIMIT : option Z)
    : QueryLimitConfig :=
  let defaultLimit := default 1000 QUERY_DEFAULT_LIMIT in
  let maxLimit := default 10000 QUERY_MAX_LIMIT in
  {| defaultLimit := Z.max 1 defaultLimit; maxLimit := Z.max 1 maxLimit |}.

(** [applyQueryLimit(requestedLimit, config)]. *)
Definition applyQueryLimit (requestedLimit : option Z) (config : QueryLimitConfig) : Z :=
  let limit := default (defaultLimit config) requestedLimit in
  Z.min (Z.max 1 limit) (maxLimit config).

End QueryLimit.

(* ===================================================================== *)
(** ** Authorization header (src/auth/authMiddleware.ts) *)
(* ===================================================================== *)

Module AuthHeader.

(** [String.prototype.split(sep)] for a separator of one character. *)
Fixpoint split_on (sep : ascii) (s : string) : list string :=
  match s with
  | EmptyString => [EmptyString]
  | String c rest =>
      if Ascii.eqb c sep then EmptyString :: split_on sep rest
      else match split_on sep rest with
           | first :: others => String c first :: others
           | [] => [String c EmptyString]
           end
  end.

(** [String.prototype.toLowerCase] on the letters A to Z; the other bytes
    are kept. *)
Definition lower (c : ascii) : ascii :=
  let n := nat_of_ascii c in
  if ((65 <=? n) && (n <=? 90))%nat then ascii_of_nat (n + 32) else c.

Fixpoint toLowerCase (s : string) : string :=
  match s with
  | EmptyString => EmptyString
  | String c rest => String (lower c) (toLowerCase rest)
  end.

(** [extractBearerToken(authHeader)]. *)
Definition extractBearerToken (authHeader : option string) : option string :=
  match authHeader with
  | None => None
  | Some h =>
      if decide (h = "") then None
      else match split_on " " h with
           | [scheme; tok] =>
               if decide (toLowerCase scheme = "bearer") then Some tok else None
           | _ => None
           end
  end.

End AuthHeader.

(* ===================================================================== *)
(** ** HTTP transport (src/transports/http.ts) *)
(* ===================================================================== *)

Module Http.

(** A JSON value as seen by [typeof]; numbers are integers here. *)
Inductive JsValue :=
| JsUndefined
| JsNull
| JsBoolean (b : bool)
| JsNumber (n : Z)
| JsString (s : string)
| JsObject.

(** [String.prototype.trim] removes the white space and the line
    terminators of ECMAScript from both ends: U+0009 to U+000D, U+0020,
    U+00A0, U+1680, U+2000 to U+200A, U+2028, U+2029, U+202F, U+205F,
    U+3000 and U+FEFF.  A string here holds the UTF-8 encoding of the
    JavaScript string, so these are sequences of one, two or three bytes;
    in well-formed UTF-8 such a sequence at either end of the string is
    always a whole character. *)
Definition space1 (a : ascii) : bool :=
  let n := nat_of_ascii a in
  ((9 <=? n) && (n <=? 13))%nat || (n =? 32)%nat.

Definition space2 (a b : ascii) : bool :=
  ((nat_of_ascii a =? 194) && (nat_of_ascii b =? 160))%nat.

Definition space3 (a b c : ascii) : bool :=
  let x := nat_of_ascii a in
  let y := nat_of_ascii b in
  let z := nat_of_ascii c in
  ((x =? 225) && (y =? 154) && (z =? 128)
   || (x =? 226) && (y =? 128)
      && ((128 <=? z) && (z <=? 138) || (z =? 168) || (z =? 169) || (z =? 175))
   || (x =? 226) && (y =? 129) && (z =? 159)
   || (x =? 227) && (y =? 128) && (z =? 128)
   || (x =? 239) && (y =? 187) && (z =? 191))%nat.

(** The bytes left after the white space at the front; with
    [forward = false] the list is the reversed string, and the bytes of a
    character come last byte first. *)
Fixpoint trim_start (forward : bool) (l : list ascii) : list ascii :=
  match l with
  | [] => []
  | a :: l1 =>
      if space1 a then trim_start forward l1
      else
        match l1 with
        | [] => l
        | b :: l2 =>
            if (if forward then space2 a b else space2 b a)
            then trim_start forward l2
            else
              match l2 with
              | [] => l
              | c :: l3 =>
                  if (if forward then space3 a b c else space3 c b a)
                  then trim_start forward l3
                  else l
              end
        end
  end.

Definition trim (s : string) : string :=
  String.string_of_list_ascii
    (rev (trim_start false (rev (trim_start true (String.list_ascii_of_string s))))).

(** The white space and line terminator characters of ECMAScript, each as
    the bytes of its UTF-8 encoding. *)
Definition utf8 (bytes : list nat) : list ascii := ascii_of_nat <$> bytes.

Definition whiteSpace : list (list ascii) :=
  utf8 <$> [[9]; [10]; [11]; [12]; [13]; [32]; [194; 160]; [225; 154; 128];
            [226; 128; 128]; [226; 128; 129]; [226; 128; 130]; [226; 128; 131];
            [226; 128; 132]; [226; 128; 133]; [226; 128; 134]; [226; 128; 135];
            [226; 128; 136]; [226; 128; 137]; [226; 128; 138]; [226; 128; 168];
            [226; 128; 169]; [226; 128; 175]; [226; 129; 159]; [227; 128; 128];
            [239; 187; 191]]%nat.

(** A character as met when scanning forwards, or backwards over the
    reversed string. *)
Definition orient (forward : bool) (ws : list ascii) : list ascii :=
  if forward then ws else rev ws.

(** Whether a white space character stands at the front. *)
Definition starts_space (forward : bool) (l : list ascii) : bool :=
  match l with
  | [] => false
  | a :: l1 =>
      space1 a ||
      match l1 with
      | [] => false
      | b :: l2 =>
          (if forward then space2 a b else space2 b a) ||
          match l2 with
          | [] => false
          | c :: _ => if forward then space3 a b c else space3 c b a
          end
      end
  end.

(** The fields read from the parsed body of [POST /auth]. *)
Record AuthBody := {
  b_username : JsValue;
  b_password : JsValue;
  b_host : JsValue;
  b_port : JsValue;
  b_database : JsValue;
  b_schema : JsValue;
  b_duration : JsValue;
}.

Record AuthRequest := {
  username : string;
  password : string;
  host : option string;
  port : option Z;
  database : option string;
  schema : option string;
  duration : option Z;
}.

Definition as_string (v : JsValue) : option string :=
  match v with JsString s => Some s | _ => None end.

Definition as_number (v : JsValue) : option Z :=
  match v with JsNumber n => Some n | _ => None end.

(** [validateAuthRequest(body)]; [None] stands for a body that is not an
    object.  [inl] carries the error text, [inr] the request. *)
Definition validateAuthRequest (body : option AuthBody) : string + AuthRequest :=
  match body with
  | None => inl "Request body must be a JSON object"
  | Some req =>
      match b_username req with
      | JsString u =>
          if decide (trim u = "") then
            inl "username is required and must be a non-empty string"
          else
            match b_password req with
            | JsString p =>
                if decide (p = "") then inl "password is required and must be a string"
                else
                  let host_bad :=
                    match b_host req with
                    | JsUndefined => false
                    | JsString h => bool_decide (trim h = "")
                    | _ => true
                    end in
                  let port_bad :=
                    match b_port req with
                    | JsUndefined => false
                    | JsNumber n => (n <? 1) || (n >? 65535)
                    | _ => true
                    end in
                  let database_bad :=
                    match b_database req with
                    | JsUndefined | JsString _ => false
                    | _ => true
                    end in
                  let schema_bad :=
                    match b_schema req with
                    | JsUndefined | JsString _ => false
                    | _ => true
                    end in
                  let duration_bad :=
                    match b_duration req with
                    | JsUndefined => false
                    | JsNumber n => (n <? 1) || (n >? 86400)
                    | _ => true
                    end in
                  if host_bad then inl "host must be a non-empty string if provided"
                  else if port_bad then inl "port must be a number between 1 and 65535"
                  else if database_bad then inl "database must be a string if provided"
                  else if schema_bad then inl "schema must be a string if provided"
                  else if duration_bad then
                    inl "duration must be a number between 1 and 86400 seconds"
                  else
                    inr {| username := trim u;
                           password := p;
                           host := trim <$> as_string (b_host req);
                           port := as_number (b_port req);
                           database := as_string (b_database req);
                           schema := as_string (b_schema req);
                           duration := as_number (b_duration req) |}
            | _ => inl "password is required and must be a string"
            end
      | _ => inl "username is required and must be a non-empty string"
      end
  end.

(** The process-wide singletons touched by the handlers. *)
Record World := {
  tokens : TokenManager.State Connection.Registry;
  pools : Connection.Registry;
  mcp : SessionManager.State;
  authAttempts : gmap string AuthThrottle.Attempt;
  serverCloses : list SessionManager.McpServer;   (* [mcpServer.close()] by the router *)
}.

Definition boot : World :=
  {| tokens := TokenManager.init; pools := Connection.empty;
     mcp := SessionManager.init; authAttempts := ∅; serverCloses := [] |}.

Definition with_pools (r : Connection.Registry) (w : World) : World :=
  {| tokens := tokens w; pools := r; mcp := mcp w;
     authAttempts := authAttempts w; serverCloses := serverCloses w |}.

Definition with_tokens (t : TokenManager.State Connection.Registry) (w : World) : World :=
  {| tokens := t; pools := pools w; mcp := mcp w;
     authAttempts := authAttempts w; serverCloses := serverCloses w |}.

Definition with_mcp (m : SessionManager.State) (w : World) : World :=
  {| tokens := tokens w; pools := pools w; mcp := m;
     authAttempts := authAttempts w; serverCloses := serverCloses w |}.

Definition with_authAttempts (a : gmap string AuthThrottle.Attempt) (w : World) : World :=
  {| tokens := tokens w; pools := pools w; mcp := mcp w;
     authAttempts := a; serverCloses := serverCloses w |}.

Definition close_server (srv : SessionManager.McpServer) (w : World) : World :=
  {| tokens := tokens w; pools := pools w; mcp := mcp w;
     authAttempts := authAttempts w; serverCloses := serverCloses w ++ [srv] |}.

Definition recordFailedAuthAttempt (ip : string) (now : Z) (w : World) : World :=
  with_authAttempts (AuthThrottle.recordFailedAuthAttempt ip now (authAttempts w)) w.

Inductive Response :=
| ErrorResponse (status : Z) (error description : string)
| TooManyRequests (retry_after : Z)
| AuthResponse (access_token : string) (expires_in expires_at : Z)
| JsonRpcError (status code : Z) (message : string)
| Dispatched                       (* written by [transport.handleRequest] *)
| SessionClosed (sessionId : string)
| NoResponse.                      (* a timer tick answers nobody *)

Definition internal_error : Response := JsonRpcError 500 (-32603) "Internal server error".

(** What the surroundings supply to one request. *)
Record Surroundings := {
  clientIp : string;
  now : Z;
  jt400_pool : DB2iConfig -> result Connection.Pool;
  loadConfig : result DB2iConfig;
  loadPartialConfig : AuthRequest -> result DB2iConfig;
  randomHex : string;                       (* [crypto.randomBytes(16).toString('hex')] *)
  generateTokenString : string;
  createMcpServer : result SessionManager.McpServer;
  randomUUID : string;
  newTransport : SessionManager.Transport;
  connect : result unit;                    (* [server.connect(transport)] *)
  handleRequest : result unit;              (* [transport.handleRequest(req, res, body)] *)
  settledAt : Z;                            (* the instant at which it settles *)
  closeOutcome : string -> SessionManager.CloseOutcome;
  globalPool : option Connection.Pool;      (* the pool of the stdio transport, if any *)
}.

(** The pool id used by the credential probe. *)
Definition testPoolId (s : Surroundings) : string := "auth-test-" +:+ randomHex s.

(** The credential probe of [POST /auth]: the [try]/[catch] around
    [initializeSessionPool], [testSessionConnection] and
    [closeSessionPool].  [inl description] is the 401 answer. *)
Definition credentialProbe (s : Surroundings) (dbConfig : DB2iConfig)
    (r : Connection.Registry) : (string + unit) * Connection.Registry :=
  let testPoolId := testPoolId s in
  match Connection.initializeSessionPool (jt400_pool s) testPoolId dbConfig r with
  | (Ok _, r1) =>
      let connected := Connection.testSessionConnection (globalPool s) testPoolId r1 in
      let r2 := Connection.closeSessionPool testPoolId r1 in
      if connected then (inr (), r2)
      else (inl "Authentication failed: unable to connect to database", r2)
  | (Throw message, r1) =>
      let r2 := Connection.closeSessionPool testPoolId r1 in
      (inl ("Authentication failed: " +:+ message), r2)
  end.

(** The handler of [POST /auth] (after [authRateLimitMiddleware]). *)
Definition authHandler (httpConfig : HttpConfig) (s : Surroundings)
    (body : option AuthBody) (w : World) : Response * World :=
  match authMode httpConfig with
  | AuthNone =>
      (ErrorResponse 404 "not_found" "Authentication is disabled. Access /mcp directly.", w)
  | AuthToken =>
      (ErrorResponse 404 "not_found"
         "Using token authentication mode. Use the pre-configured token.", w)
  | AuthRequired =>
      match validateAuthRequest body with
      | inl err =>
          (ErrorResponse 400 "invalid_request" err,
           recordFailedAuthAttempt (clientIp s) (now s) w)
      | inr authReq =>
          match loadPartialConfig s authReq with
          | Throw message =>
              (ErrorResponse 400 "invalid_request" message,
               recordFailedAuthAttempt (clientIp s) (now s) w)
          | Ok dbConfig =>
              match credentialProbe s dbConfig (pools w) with
              | (inl description, r) =>
                  (ErrorResponse 401 "invalid_credentials" description,
                   recordFailedAuthAttempt (clientIp s) (now s) (with_pools r w))
              | (inr _, r) =>
                  let w1 := with_pools r w in
                  if negb (TokenManager.canCreateSession httpConfig (tokens w1)) then
                    (ErrorResponse 503 "service_unavailable"
                       "Maximum concurrent sessions reached. Please try again later.", w1)
                  else
                    match TokenManager.createSession httpConfig (generateTokenString s)
                            dbConfig (duration authReq) (now s) (tokens w1) with
                    | (Throw message, t) =>
                        if includes "Maximum concurrent sessions" message
                        then (ErrorResponse 503 "service_unavailable" message,
                              with_tokens t w1)
                        else (ErrorResponse 500 "server_error"
                                "An unexpected error occurred", with_tokens t w1)
                    | (Ok res, t) =>
                        let w2 := with_tokens t w1 in
                        let w3 :=
                          with_authAttempts
                            (AuthThrottle.clearAuthRateLimit (clientIp s) (authAttempts w2))
                            w2 in
                        (* [expiresAt.toISOString()] throws a RangeError on an
                           Invalid Date; the outer [catch] answers 500. *)
                        match TokenManager.cr_expiresAt res with
                        | Some expires_at =>
                            (AuthResponse (TokenManager.cr_token res)
                                          (TokenManager.cr_expiresIn res) expires_at, w3)
                        | None =>
                            (ErrorResponse 500 "server_error"
                               "An unexpected error occurred", w3)
                        end
                    end
              end
          end
      end
  end.

Definition authPost (httpConfig : HttpConfig) (s : Surroundings)
    (body : option AuthBody) (w : World) : Response * World :=
  match AuthThrottle.authRateLimitMiddleware (clientIp s) (now s) (authAttempts w) with
  | (inl retryAfter, a) => (TooManyRequests retryAfter, with_authAttempts a w)
  | (inr _, a) => authHandler httpConfig s body (with_authAttempts a w)
  end.

(** What [authMiddleware] attaches to the request before calling [next()]. *)
Record AuthContext := {
  tokenSession : option TokenManager.TokenSession;
  authToken : option string;
}.

Definition unauthorized : Response :=
  ErrorResponse 401 "unauthorized"
    "Missing or invalid Authorization header. Use: Authorization: Bearer <token>".

(** [authMiddleware]; [bearer] is the value of
    [extractBearerToken(req.headers.authorization)].  In token mode the
    outcome of the length test and of [timingSafeEqual] on the two buffers
    is that of comparing the two strings. *)
Definition authMiddleware (httpConfig : HttpConfig) (bearer : option string)
    (now : Z) (t : TokenManager.State Connection.Registry)
    : (Response + AuthContext) * TokenManager.State Connection.Registry :=
  match authMode httpConfig with
  | AuthNone => (inr {| tokenSession := None; authToken := None |}, t)
  | AuthToken =>
      match bearer with
      | None => (inl unauthorized, t)
      | Some tok =>
          if decide (tok = "") then (inl unauthorized, t)
          else if decide (tok = default "" (staticToken httpConfig))
          then (inr {| tokenSession := None; authToken := Some tok |}, t)
          else (inl (ErrorResponse 401 "invalid_token" "Invalid authentication token"), t)
      end
  | AuthRequired =>
      match bearer with
      | None => (inl unauthorized, t)
      | Some tok =>
          if decide (tok = "") then (inl unauthorized, t)
          else
            match TokenManager.validateToken tok now t with
            | (res, t') =>
                match TokenManager.valid res, TokenManager.session res with
                | true, Some session =>
                    (inr {| tokenSession := Some session; authToken := Some tok |}, t')
                | _, _ =>
                    (inl (ErrorResponse 401 "invalid_token"
                            (default "Token validation failed" (TokenManager.error res))), t')
                end
            end
      end
  end.

(** The database configuration and the pool key of a [POST /mcp]. *)
Definition selectSessionKey (httpConfig : HttpConfig) (s : Surroundings)
    (ctx : AuthContext) : Response + (DB2iConfig * string) :=
  match authMode httpConfig with
  | AuthNone | AuthToken =>
      match loadConfig s with
      | Throw message =>
          inl (JsonRpcError 500 (-32603) ("DB configuration error: " +:+ message))
      | Ok dbConfig => inr (dbConfig, "global")
      end
  | AuthRequired =>
      match tokenSession ctx, authToken ctx with
      | Some session, Some tok =>
          if decide (tok = "") then inl (JsonRpcError 401 (-32001) "Token session not found")
          else inr (TokenManager.config session, tok)
      | _, _ => inl (JsonRpcError 401 (-32001) "Token session not found")
      end
  end.

(** The [catch] block of the initialize branch, after the server has or
    has not been created. *)
Definition initializeCleanup (mcpServer : option SessionManager.McpServer)
    (sessionKey : string) (w : World) : World :=
  let w1 := match mcpServer with
            | Some srv => close_server srv w
            | None => w
            end in
  if decide (sessionKey <> "global")
  then with_pools (Connection.closeSessionPool sessionKey (pools w1)) w1
  else w1.

(** Stateful mode, no session id, [isInitializeRequest(req.body)]. *)
Definition initializeSession (httpConfig : HttpConfig) (s : Surroundings)
    (dbConfig : DB2iConfig) (sessionKey : string) (w : World) : Response * World :=
  match Connection.initializeSessionPool (jt400_pool s) sessionKey dbConfig (pools w) with
  | (Throw _, r) => (internal_error, with_pools r w)
  | (Ok _, r) =>
      let w1 := with_pools r w in
      match createMcpServer s with
      | Throw _ => (internal_error, initializeCleanup None sessionKey w1)
      | Ok mcpServer =>
          match SessionManager.createSession (randomUUID s) mcpServer (newTransport s)
                  sessionKey (connect s) (now s) (mcp w1) with
          | (Throw _, m) =>
              (internal_error, initializeCleanup (Some mcpServer) sessionKey (with_mcp m w1))
          | (Ok (newSessionId, _), m) =>
              let w2 := with_mcp m w1 in
              let w3 := match authMode httpConfig with
                        | AuthRequired =>
                            with_tokens (TokenManager.setMcpSessionId sessionKey newSessionId
                                           (tokens w2)) w2
                        | _ => w2
                        end in
              match handleRequest s with
              | Ok _ => (Dispatched, w3)
              | Throw _ => (internal_error, w3)
              end
          end
      end
  end.

(** Stateful mode, request carrying a session id.  The handler suspends at
    [await mcpSession.transport.handleRequest(...)]:
    [existingSession_begin] is the code run up to the [await], at the
    instant the request arrives, and [existingSession_end] the [finally]
    block and the answer, run at the instant the call settles on the
    state the manager is in by then. *)
Definition existingSession_begin (s : Surroundings) (sessionId : string) (w : World)
    : (Response + unit) * World :=
  match SessionManager.getSession sessionId (now s) (mcp w) with
  | (None, m) =>
      (inl (JsonRpcError 404 (-32001) "Session not found or expired"), with_mcp m w)
  | (Some _, m) =>
      (inr (), with_mcp (SessionManager.incrementActiveRequests sessionId (now s) m) w)
  end.

Definition existingSession_end (s : Surroundings) (sessionId : string) (w : World)
    : Response * World :=
  let w' := with_mcp (SessionManager.decrementActiveRequests sessionId (settledAt s)
                        (mcp w)) w in
  match handleRequest s with
  | Ok _ => (Dispatched, w')
  | Throw _ => (internal_error, w')
  end.

(** The handler run from call to return with nothing else scheduled during
    the [await]. *)
Definition existingSession (s : Surroundings) (sessionId : string) (w : World)
    : Response * World :=
  match existingSession_begin s sessionId w with
  | (inl resp, w1) => (resp, w1)
  | (inr _, w1) => existingSession_end s sessionId w1
  end.

(** Stateless mode: the pool is initialised or reused and never closed here;
    the server is closed when the response closes. *)
Definition statelessRequest (s : Surroundings) (dbConfig : DB2iConfig)
    (sessionKey : string) (w : World) : Response * World :=
  match Connection.initializeSessionPool (jt400_pool s) sessionKey dbConfig (pools w) with
  | (Throw _, r) => (internal_error, with_pools r w)
  | (Ok _, r) =>
      let w1 := with_pools r w in
      match createMcpServer s with
      | Throw _ => (internal_error, w1)
      | Ok mcpServer =>
          let w2 := close_server mcpServer w1 in
          match connect s with
          | Throw _ => (internal_error, w2)
          | Ok _ =>
              match handleRequest s with
              | Ok _ => (Dispatched, w2)
              | Throw _ => (internal_error, w2)
              end
          end
      end
  end.

(** A header value that passes [if (sessionId)]. *)
Definition present (h : option string) : option string :=
  match h with
  | Some v => if decide (v = "") then None else Some v
  | None => None
  end.

(** The handler of [POST /mcp] (after [authMiddleware]). *)
Definition mcpPostHandler (httpConfig : HttpConfig) (s : Surroundings)
    (ctx : AuthContext) (sessionId : option string) (isInitializeRequest : bool)
    (w : World) : Response * World :=
  match selectSessionKey httpConfig s ctx with
  | inl resp => (resp, w)
  | inr (dbConfig, sessionKey) =>
      match sessionMode httpConfig with
      | stateful =>
          match present sessionId with
          | Some sid => existingSession s sid w
          | None =>
              if isInitializeRequest
              then initializeSession httpConfig s dbConfig sessionKey w
              else (JsonRpcError 400 (-32000)
                      "Session ID required for non-initialize requests", w)
          end
      | stateless => statelessRequest s dbConfig sessionKey w
      end
  end.

Definition mcpGetHandler (httpConfig : HttpConfig) (s : Surroundings)
    (sessionId : option string) (w : World) : Response * World :=
  match sessionMode httpConfig with
  | stateless =>
      (ErrorResponse 405 "method_not_allowed"
         "GET requests only supported in stateful mode", w)
  | stateful =>
      match present sessionId with
      | None => (ErrorResponse 400 "invalid_request" "Mcp-Session-Id header required", w)
      | Some sid =>
          match SessionManager.getSession sid (now s) (mcp w) with
          | (None, m) =>
              (ErrorResponse 404 "not_found" "Session not found or expired", with_mcp m w)
          | (Some _, m) => (Dispatched, with_mcp m w)
          end
      end
  end.

Definition mcpDeleteHandler (s : Surroundings) (sessionId : option string) (w : World)
    : Response * World :=
  match present sessionId with
  | None => (ErrorResponse 400 "invalid_request" "Mcp-Session-Id header required", w)
  | Some sid =>
      match SessionManager.closeSession sid (closeOutcome s sid) (mcp w) with
      | (true, m) => (SessionClosed sid, with_mcp m w)
      | (false, m) => (ErrorResponse 404 "not_found" "Session not found", with_mcp m w)
      end
  end.

(** What reaches the application from outside while it serves: the four
    routes that touch the singletons, and the session manager's
    stale-session timer.  [serve] below runs each of them from call to
    return, one after the other; the handlers that suspend are also given
    in halves ([existingSession_begin], [existingSession_end]) and, for the
    session manager, as tasks of [SessionManager.step]. *)
Inductive Request :=
| PostAuth (body : option AuthBody)
| PostMcp (bearer sessionId : option string) (isInitializeRequest : bool)
| GetMcp (bearer sessionId : option string)
| DeleteMcp (bearer sessionId : option string)
| StaleSessionTick.

Definition behindAuth (httpConfig : HttpConfig) (s : Surroundings)
    (bearer : option string) (k : AuthContext -> World -> Response * World)
    (w : World) : Response * World :=
  match authMiddleware httpConfig bearer (now s) (tokens w) with
  | (inl resp, t) => (resp, with_tokens t w)
  | (inr ctx, t) => k ctx (with_tokens t w)
  end.

Definition serve (httpConfig : HttpConfig) (s : Surroundings) (req : Request)
    (w : World) : Response * World :=
  match req with
  | PostAuth body => authPost httpConfig s body w
  | PostMcp bearer sessionId isInit =>
      behindAuth httpConfig s bearer
        (fun ctx => mcpPostHandler httpConfig s ctx sessionId isInit) w
  | GetMcp bearer sessionId =>
      behindAuth httpConfig s bearer (fun _ => mcpGetHandler httpConfig s sessionId) w
  | DeleteMcp bearer sessionId =>
      behindAuth httpConfig s bearer (fun _ => mcpDeleteHandler s sessionId) w
  | StaleSessionTick =>
      (NoResponse,
       with_mcp (SessionManager.cleanupStaleSessions (closeOutcome s) (now s) (mcp w)) w)
  end.

(** [startHttpServer]: in required mode the token manager's cleanup
    callback closes the pool keyed by the token. *)
Definition startHttpServer (httpConfig : HttpConfig) (w : World) : World :=
  match authMode httpConfig with
  | AuthRequired =>
      with_tokens (TokenManager.setCleanupCallback Connection.closeSessionPool (tokens w)) w
  | _ => w
  end.

(** The token manager's one-minute timer. *)
Definition expiredTokenTick (now : Z) (w : World) : World :=
  let '(t, r) := TokenManager.cleanupExpiredSessions now (tokens w, pools w) in
  with_pools r (with_tokens t w).

(** [shutdownHttpServer], up to closing the listening socket. *)
Definition shutdownHttpServer (outcome : string -> SessionManager.CloseOutcome)
    (w : World) : World :=
  let w1 := with_mcp (SessionManager.shutdown outcome (mcp w)) w in
  let '(t, r) := TokenManager.shutdown (tokens w1, pools w1) in
  let w2 := with_pools r (with_tokens t w1) in
  with_pools (Connection.closeAllSessionPools (pools w2)) w2.

(** From registry [r] to registry [r'], every [close()] made on a pool was
    made on one registered under another key than ["global"], and a pool
    registered under ["global"] is still the one registered. *)
Definition spares_global (r r' : Connection.Registry) : Prop :=
  exists closed,
    Connection.closeCalls r' = Connection.closeCalls r ++ closed /\
    ("global" ∉ closed) /\
    forall p, Connection.sessionPools r !! "global" = Some p ->
              Connection.sessionPools r' !! "global" = Some p.

(** The requests of a run of the application, each with what its
    surroundings supply, served one after the other. *)
Definition serveAll (httpConfig : HttpConfig) (reqs : list (Surroundings * Request))
    (w : World) : World :=
  foldl (fun acc sr => (serve httpConfig sr.1 sr.2 acc).2) w reqs.

(** A request as it arrives: the [Authorization] header is still to be
    parsed by [extractBearerToken]. *)
Definition postMcpWithHeader (httpConfig : HttpConfig) (s : Surroundings)
    (authorization sessionId : option string) (isInitializeRequest : bool)
    (w : World) : Response * World :=
  serve httpConfig s
    (PostMcp (AuthHeader.extractBearerToken authorization) sessionId isInitializeRequest) w.

End Http.

(* ===================================================================== *)
(** ** Concrete configurations and scenarios used in examples *)
(* ===================================================================== *)

Module Scenario.

Definition sample_config : DB2iConfig :=
  {| hostname := "ibmi.example.com"; port := 446; username := "USER";
     password := "secret"; database := "*LOCAL"; schema := "";
     jdbcOptions := [] |}.

Definition two_sessions : HttpConfig :=
  {| sessionMode := stateful; authMode := AuthRequired; staticToken := None;
     tokenExpiry := 3600; maxSessions := 2 |}.

(** One session is created; [DELETE /mcp] and [shutdown()] are both
    called on it before either has been scheduled; then the two tasks are
    run in turn until both have returned. *)
Definition closing_twice : SessionManager.System :=
  let s0 := SessionManager.boot in
  let s1 := {| SessionManager.mgr :=
                 (SessionManager.createSession "s1" 1%nat 1%nat "tok" (Ok ()) 0
                    (SessionManager.mgr s0)).2;
               SessionManager.tasks := SessionManager.tasks s0;
               SessionManager.issued := {["s1"]} ∪ SessionManager.issued s0 |} in
  let s2 := {| SessionManager.mgr := SessionManager.mgr s1;
               SessionManager.tasks :=
                 SessionManager.tasks s1
                 ++ [{| SessionManager.waiting := None;
                        SessionManager.todo := ["s1"] |}];
               SessionManager.issued := SessionManager.issued s1 |} in
  let s3 := {| SessionManager.mgr := SessionManager.mgr s2;
               SessionManager.tasks :=
                 SessionManager.tasks s2
                 ++ [{| SessionManager.waiting := None;
                        SessionManager.todo :=
                          SessionManager.shutdownSessionIds (SessionManager.mgr s2) |}];
               SessionManager.issued := SessionManager.issued s2 |} in
  SessionManager.advance 0 (Ok ())
    (SessionManager.advance 1 (Ok ())
       (SessionManager.advance 0 (Ok ())
          (SessionManager.advance 1 (Ok ())
             (SessionManager.advance 0 (Ok ()) s3)))).

(** Two sessions idle for more than thirty minutes at instant 2000000, the
    second with a request in flight. *)
Definition idle_and_busy : SessionManager.State :=
  SessionManager.incrementActiveRequests "busy" 100
    (SessionManager.createSession "busy" 2%nat 2%nat "tok" (Ok ()) 0
       (SessionManager.createSession "idle" 1%nat 1%nat "tok" (Ok ()) 0
          SessionManager.init).2).2.

Definition all_close_ok (sessionId : string) : SessionManager.CloseOutcome :=
  {| SessionManager.transport_close := Ok (); SessionManager.server_close := Ok () |}.

Definition required_stateless : HttpConfig :=
  {| sessionMode := stateless; authMode := AuthRequired; staticToken := None;
     tokenExpiry := 3600; maxSessions := 100 |}.

(** Surroundings in which every collaborator succeeds, at instant [t]. *)
Definition calm (t : Z) : Http.Surroundings :=
  {| Http.clientIp := "10.0.0.1";
     Http.now := t;
     Http.jt400_pool := fun cfg =>
       Ok {| Connection.pool_config := cfg; Connection.query_ok := true;
             Connection.close_rejects := false |};
     Http.loadConfig := Ok sample_config;
     Http.loadPartialConfig := fun _ => Ok sample_config;
     Http.randomHex := "00ff";
     Http.generateTokenString := "tok-1";
     Http.createMcpServer := Ok 1%nat;
     Http.randomUUID := "uuid-1";
     Http.newTransport := 1%nat;
     Http.connect := Ok ();
     Http.handleRequest := Ok ();
     Http.settledAt := t + 20;
     Http.closeOutcome := all_close_ok;
     Http.globalPool := None |}.

Definition with_server (srv : result SessionManager.McpServer) (connect : result unit)
    (s : Http.Surroundings) : Http.Surroundings :=
  {| Http.clientIp := Http.clientIp s;
     Http.now := Http.now s;
     Http.jt400_pool := Http.jt400_pool s;
     Http.loadConfig := Http.loadConfig s;
     Http.loadPartialConfig := Http.loadPartialConfig s;
     Http.randomHex := Http.randomHex s;
     Http.generateTokenString := Http.generateTokenString s;
     Http.createMcpServer := srv;
     Http.randomUUID := Http.randomUUID s;
     Http.newTransport := Http.newTransport s;
     Http.connect := connect;
     Http.handleRequest := Http.handleRequest s;
     Http.settledAt := Http.settledAt s;
     Http.closeOutcome := Http.closeOutcome s;
     Http.globalPool := Http.globalPool s |}.

(** The server is built but cannot be connected to its transport. *)
Definition connect_fails (t : Z) : Http.Surroundings :=
  with_server (Ok 7%nat) (Throw "connect failed") (calm t).

(** The remote system refuses the credentials, and closing the pool that
    was opened for them rejects as well. *)
Definition bad_credentials (t : Z) : Http.Surroundings :=
  {| Http.clientIp := "10.0.0.1";
     Http.now := t;
     Http.jt400_pool := fun cfg =>
       Ok {| Connection.pool_config := cfg; Connection.query_ok := false;
             Connection.close_rejects := true |};
     Http.loadConfig := Ok sample_config;
     Http.loadPartialConfig := fun _ => Ok sample_config;
     Http.randomHex := "00ff";
     Http.generateTokenString := "tok-1";
     Http.createMcpServer := Ok 1%nat;
     Http.randomUUID := "uuid-1";
     Http.newTransport := 1%nat;
     Http.connect := Ok ();
     Http.handleRequest := Ok ();
     Http.settledAt := t + 20;
     Http.closeOutcome := all_close_ok;
     Http.globalPool := None |}.

Definition weak_stateful : HttpConfig :=
  {| sessionMode := stateful; authMode := AuthNone; staticToken := None;
     tokenExpiry := 3600; maxSessions := 100 |}.

(** A world in which the shared pool is registered: one session has been
    initialised in a weak auth mode. *)
Definition shared_pool_in_use : Http.World :=
  (Http.serve weak_stateful (calm 0) (Http.PostMcp None None true)
     (Http.startHttpServer weak_stateful Http.boot)).2.

Definition one_second_login : option Http.AuthBody :=
  Some {| Http.b_username := Http.JsString "USER";
          Http.b_password := Http.JsString "secret";
          Http.b_host := Http.JsUndefined;
          Http.b_port := Http.JsUndefined;
          Http.b_database := Http.JsUndefined;
          Http.b_schema := Http.JsUndefined;
          Http.b_duration := Http.JsNumber 1 |}.

(** A token valid for one second is issued at instant 0 and used at
    instant 500, which opens the pool keyed by the token. *)
Definition token_in_use : Http.World :=
  let w0 := Http.startHttpServer required_stateless Http.boot in
  let w1 := (Http.serve required_stateless (calm 0) (Http.PostAuth one_second_login) w0).2 in
  (Http.serve required_stateless (calm 500) (Http.PostMcp (Some "tok-1") None true) w1).2.

(** The token is next presented at instant 2000, after it has expired; the
    manager's timer fires at instant 60000; then the manager shuts down. *)
Definition expired_on_request : Http.Response * Http.World :=
  Http.serve required_stateless (calm 2000) (Http.PostMcp (Some "tok-1") None true)
    token_in_use.

Definition expired_on_request_then_tick : Http.World :=
  let w := Http.expiredTokenTick 60000 expired_on_request.2 in
  let '(t, r) := TokenManager.shutdown (Http.tokens w, Http.pools w) in
  Http.with_pools r (Http.with_tokens t w).

(** The same token expiring under the timer instead. *)
Definition expired_on_tick : Http.World :=
  Http.expiredTokenTick 60000 token_in_use.







(** A token manager whose cleanup callback records the tokens it is given,
    with one token stored. *)
Definition watched : TokenManager.State (list string) * list string :=
  (TokenManager.setCleanupCallback (fun tok seen => seen ++ [tok])
     (TokenManager.createSession two_sessions "kept" sample_config None 0
        TokenManager.init).2,
   []).

(** Three requests a minute. *)
Definition three_per_minute : RateLimiter.RateLimitConfig :=
  {| RateLimiter.windowMs := 60000; RateLimiter.maxRequests := 3;
     RateLimiter.enabled := true |}.

(** What a tool handler gives when its query succeeds. *)
Definition rows_found : result Server.ToolResult * string :=
  (Ok {| Server.success := true; Server.tr_error := None; Server.payload := "rows" |},
   "Failed to execute query").

(** One token valid for a minute, issued at instant 0. *)
Definition one_token : TokenManager.State unit :=
  (TokenManager.createSession two_sessions "tok" sample_config (Some 60) 0
     TokenManager.init).2.

(** One session is created, then a request on it starts. *)
Definition one_session : SessionManager.System :=
  {| SessionManager.mgr :=
       (SessionManager.createSession "s1" 1%nat 1%nat "tok" (Ok ()) 0
          (SessionManager.mgr SessionManager.boot)).2;
     SessionManager.tasks := SessionManager.tasks SessionManager.boot;
     SessionManager.issued := {["s1"]} ∪ SessionManager.issued SessionManager.boot |}.

Definition one_request : SessionManager.System :=
  {| SessionManager.mgr :=
       SessionManager.incrementActiveRequests "s1" 5 (SessionManager.mgr one_session);
     SessionManager.tasks := SessionManager.tasks one_session;
     SessionManager.issued := SessionManager.issued one_session |}.

Definition weak_stateless : HttpConfig :=
  {| sessionMode := stateless; authMode := AuthNone; staticToken := None;
     tokenExpiry := 3600; maxSessions := 100 |}.

(** A login has succeeded at instant 0; the token is valid for one second. *)
Definition logged_in : Http.World :=
  (Http.serve required_stateless (calm 0) (Http.PostAuth one_second_login)
     (Http.startHttpServer required_stateless Http.boot)).2.

(** A default token lifetime so long that the expiry of a token is out of
    the range of dates, and a login that gives no duration of its own. *)
Definition endless : HttpConfig :=
  {| sessionMode := stateless; authMode := AuthRequired; staticToken := None;
     tokenExpiry := 10000000000000; maxSessions := 100 |}.

Definition plain_login : option Http.AuthBody :=
  Some {| Http.b_username := Http.JsString "USER";
          Http.b_password := Http.JsString "secret";
          Http.b_host := Http.JsUndefined;
          Http.b_port := Http.JsUndefined;
          Http.b_database := Http.JsUndefined;
          Http.b_schema := Http.JsUndefined;
          Http.b_duration := Http.JsUndefined |}.

(** One login has failed at instant 0. *)
Definition one_failure : Http.World :=
  (Http.authPost endless (bad_credentials 0) plain_login
     (Http.startHttpServer endless Http.boot)).2.

(** The pool the driver opens for [sample_config] in calm surroundings. *)
Definition sample_pool : Connection.Pool :=
  {| Connection.pool_config := sample_config; Connection.query_ok := true;
     Connection.close_rejects := false |}.

(** What [validateAuthRequest] makes of [one_second_login]. *)
(** The same login with the user name typed after a no-break space and
    followed by an ideographic space and a space. *)
Definition padded_login : option Http.AuthBody :=
  Some {| Http.b_username :=
            Http.JsString
              (String.string_of_list_ascii
                 (Http.utf8 [194; 160; 85; 83; 69; 82; 227; 128; 128; 32]%nat));
          Http.b_password := Http.JsString "secret";
          Http.b_host := Http.JsUndefined;
          Http.b_port := Http.JsUndefined;
          Http.b_database := Http.JsUndefined;
          Http.b_schema := Http.JsUndefined;
          Http.b_duration := Http.JsNumber 1 |}.

(** A login whose user name is a no-break space, an em space and a tab. *)
Definition blank_login : option Http.AuthBody :=
  Some {| Http.b_username :=
            Http.JsString
              (String.string_of_list_ascii (Http.utf8 [194; 160; 226; 128; 131; 9]%nat));
          Http.b_password := Http.JsString "secret";
          Http.b_host := Http.JsUndefined;
          Http.b_port := Http.JsUndefined;
          Http.b_database := Http.JsUndefined;
          Http.b_schema := Http.JsUndefined;
          Http.b_duration := Http.JsNumber 1 |}.

Definition one_second_request : Http.AuthRequest :=
  {| Http.username := "USER"; Http.password := "secret"; Http.host := None;
     Http.port := None; Http.database := None; Http.schema := None;
     Http.duration := Some 1 |}.

End Scenario.

(* ===================================================================== *)
(** * Properties *)
(* ===================================================================== *)

(** [ceil_div a b] is the least integer whose product with [b] reaches [a]. *)
Lemma ceil_div_spec (a b : Z) :
  0 < b -> (ceil_div a b - 1) * b < a <= ceil_div a b * b.
Proof.
  intros Hb. unfold ceil_div.
  pose proof (Z.div_mod (- a) b ltac:(lia)) as Hdm.
  pose proof (Z.mod_pos_bound (- a) b Hb) as Hmod.
  nia.
Qed.

Module RateLimiterFacts.
Import RateLimiter.

Lemma checkLimit_enabled_cases config key now windows :
  enabled config = true ->
  let w := current_window config key now windows in
  let '(r, windows') := checkLimit config key now windows in
  resetTime r = windowStart w + windowMs config /\
  (forall k, k <> key -> windows' !! k = windows !! k) /\
  if decide (count w < maxRequests config) then
    allowed r = true /\
    windows' !! key = Some {| count := count w + 1;
                              windowStart := windowStart w |} /\
    remaining r = maxRequests config - (count w + 1)
  else
    allowed r = false /\
    remaining r = 0 /\
    retryAfterSeconds r = ceil_div (resetTime r - now) 1000 /\
    windows' !! key = Some w.
Proof.
  intros Hen. unfold checkLimit, current_window. rewrite Hen. cbn [negb].
  destruct (windows !! key) as [w0|] eqn:Hk.
  - destruct (Z.geb_spec now (windowStart w0 + windowMs config)) as [Hge|Hlt].
    + rewrite decide_True by lia. cbn.
      destruct (Z.geb_spec 0 (maxRequests config)) as [Hc|Hc].
      * rewrite decide_False by lia. cbn.
        repeat split; [intros; by rewrite lookup_insert_ne| by rewrite lookup_insert_eq].
      * rewrite decide_True by lia. cbn.
        repeat split; [intros; by rewrite !lookup_insert_ne| by rewrite lookup_insert_eq].
    + rewrite decide_False by lia.
      destruct (Z.geb_spec (count w0) (maxRequests config)) as [Hc|Hc].
      * rewrite decide_False by lia. cbn. repeat split; done.
      * rewrite decide_True by lia. cbn.
        repeat split; [intros; by rewrite lookup_insert_ne| by rewrite lookup_insert_eq].
  - cbn.
    destruct (Z.geb_spec 0 (maxRequests config)) as [Hc|Hc].
    + rewrite decide_False by lia. cbn.
      repeat split; [intros; by rewrite lookup_insert_ne| by rewrite lookup_insert_eq].
    + rewrite decide_True by lia. cbn.
      repeat split; [intros; by rewrite !lookup_insert_ne| by rewrite lookup_insert_eq].
Qed.

End RateLimiterFacts.

Module RateLimiterClaims.
Import RateLimiter.

Lemma checkLimit_refines_check_spec config key now (windows : Windows) :
  enabled config = true ->
  checkLimit config key now windows = check_spec config key now windows.
Proof.
  intros Hen. unfold checkLimit, check_spec, current_window. rewrite Hen. cbn [negb].
  destruct (windows !! key) as [w0|] eqn:Hk.
  - destruct (Z.geb_spec now (windowStart w0 + windowMs config)) as [Hge|Hlt];
      destruct (decide (now >= windowStart w0 + windowMs config)); try lia; cbn.
    + destruct (Z.geb_spec 0 (maxRequests config));
        destruct (decide (0 < maxRequests config)); try lia; [done|].
      by rewrite insert_insert_eq.
    + destruct (Z.geb_spec (count w0) (maxRequests config));
        destruct (decide (count w0 < maxRequests config)); try lia; [|done].
      by rewrite insert_id.
  - cbn. destruct (Z.geb_spec 0 (maxRequests config));
      destruct (decide (0 < maxRequests config)); try lia; [done|].
    by rewrite insert_insert_eq.
Qed.

(** C5.  With the limiter enabled, after any history of earlier checks,
    [checkLimit(key)] is the check of the specification: the current window
    is the stored one unless it is absent or [now >= windowStart + windowMs],
    in which case it starts at [now] with count 0; below the limit the count
    is incremented and the call is allowed with
    [remaining = limit - count] (the count just reached); otherwise it is
    refused with [remaining = 0] and
    [retryAfterSeconds = ceil((resetTime - now) / 1000)].  The ceiling is
    the one integer [r] with [(r - 1) * 1000 < resetTime - now <= r * 1000],
    and [resetTime] is the start of the current window plus [windowMs]. *)
Theorem checkLimit_fixed_window config (history : list (string * Z)) key now :
  enabled config = true ->
  checkLimit config key now (replay config history)
  = check_spec config key now (replay config history) /\
  let r := (checkLimit config key now (replay config history)).1 in
  resetTime r
  = windowStart (current_window config key now (replay config history))
    + windowMs config /\
  (retryAfterSeconds r - 1) * 1000 < resetTime r - now <= retryAfterSeconds r * 1000 /\
  (forall n, (n - 1) * 1000 < resetTime r - now <= n * 1000 ->
             retryAfterSeconds r = n).
Proof.
  intros Hen. split; [by apply checkLimit_refines_check_spec|]. cbv zeta.
  rewrite (checkLimit_refines_check_spec _ _ _ _ Hen). unfold check_spec. cbv zeta.
  set (w := current_window config key now (replay config history)).
  pose proof (ceil_div_spec (windowStart w + windowMs config - now) 1000 ltac:(lia))
    as Hceil.
  destruct (decide (count w < maxRequests config)); cbn;
    (split; [done|]); (split; [exact Hceil|]); intros m Hm; lia.
Qed.

Lemma checkLimit_fixed_window_witness :
  checkLimit DEFAULT_RATE_LIMIT "default" 1500
    (replay DEFAULT_RATE_LIMIT [("default", 0); ("other", 5)])
  = check_spec DEFAULT_RATE_LIMIT "default" 1500
      (replay DEFAULT_RATE_LIMIT [("default", 0); ("other", 5)]) /\
  retryAfterSeconds
    (checkLimit DEFAULT_RATE_LIMIT "default" 1500
       (replay DEFAULT_RATE_LIMIT [("default", 0); ("other", 5)])).1 = 899.
Proof.
  destruct (checkLimit_fixed_window DEFAULT_RATE_LIMIT
              [("default", 0); ("other", 5)] "default" 1500 eq_refl)
    as (Heq & Hreset & _ & Honly).
  split; [exact Heq|]. apply Honly. rewrite Hreset. vm_compute. split; [reflexivity|].
  discriminate.
Defined.

Example checkLimit_first_call :
  (checkLimit DEFAULT_RATE_LIMIT "default" 1000 ∅).1
  = {| allowed := true; remaining := 99; resetTime := 901000;
       retryAfterSeconds := 900; limit := 100; r_windowMs := 900000 |}.
Proof. reflexivity. Qed.

Example checkLimit_refused :
  let config := {| windowMs := 1000; maxRequests := 1; enabled := true |} in
  (checkLimit config "k" 1500 (replay config [("k", 1000)])).1
  = {| allowed := false; remaining := 0; resetTime := 2000;
       retryAfterSeconds := 1; limit := 1; r_windowMs := 1000 |}.
Proof. vm_compute. reflexivity. Qed.

End RateLimiterClaims.

(* ===================================================================== *)
(** ** Token manager *)
(* ===================================================================== *)

Module TokenManagerClaims.
Import TokenManager Scenario.

Section Generic.
Context {E : Type}.
Implicit Types (st : State E) (w : State E * E) (e : E).

Lemma notifyCleanup_sessions tok w :
  sessions (notifyCleanup tok w).1 = sessions w.1.
Proof. unfold notifyCleanup. by destruct (cleanupCallback w.1). Qed.

Lemma size_delete_le (m : gmap string TokenSession) tok :
  (size (delete tok m) <= size m)%nat.
Proof.
  rewrite map_size_delete. destruct (m !! tok); unfold id; lia.
Qed.

Lemma size_insert_le (m : gmap string TokenSession) tok s :
  (size (<[tok := s]> m) <= S (size m))%nat.
Proof.
  rewrite map_size_insert. destruct (m !! tok); unfold id; lia.
Qed.

Lemma cleanup_loop_size (toks : list string) w :
  (size (sessions
           (foldl (fun acc tok =>
                     notifyCleanup tok
                       (with_sessions (delete tok (sessions acc.1)) acc.1, acc.2))
                  w toks).1)
   <= size (sessions w.1))%nat.
Proof.
  revert w. induction toks as [|tok toks IH]; intros w; cbn [foldl]; [lia|].
  etrans; [apply IH|]. rewrite notifyCleanup_sessions. cbn.
  apply size_delete_le.
Qed.

Lemma createSession_size httpConfig fresh cfg d now st :
  0 <= maxSessions httpConfig ->
  Z.of_nat (size (sessions st)) <= maxSessions httpConfig ->
  Z.of_nat (size (sessions (createSession httpConfig fresh cfg d now st).2))
  <= maxSessions httpConfig.
Proof.
  intros Hmax Hsz. unfold createSession.
  destruct (Z.geb_spec (Z.of_nat (size (sessions st))) (maxSessions httpConfig));
    cbn; [done|].
  pose proof (size_insert_le (sessions st) fresh
    {| token := fresh; config := cfg; createdAt := now;
       expiresAt := newDate (now + default (tokenExpiry httpConfig) d * 1000);
       lastUsedAt := now; mcpSessionId := None |}).
  lia.
Qed.

Lemma size_insert_present (m : gmap string TokenSession) tok s s' :
  m !! tok = Some s -> size (<[tok := s']> m) = size m.
Proof. intros H. by rewrite map_size_insert, H. Qed.

Lemma exec_size httpConfig (op : Op E) w :
  0 <= maxSessions httpConfig ->
  Z.of_nat (size (sessions w.1)) <= maxSessions httpConfig ->
  Z.of_nat (size (sessions (exec httpConfig op w).1)) <= maxSessions httpConfig.
Proof.
  intros Hmax Hsz. destruct op as [fresh cfg d now|tok now|tok sid|tok|now|cb|]; cbn.
  - by apply createSession_size.
  - unfold validateToken. destruct (decide (tok = "")); [done|].
    destruct (sessions w.1 !! tok) as [s|] eqn:Hs; [|done].
    destruct (later_than now (expiresAt s)); cbn.
    + pose proof (size_delete_le (sessions w.1) tok). lia.
    + by erewrite size_insert_present.
  - unfold setMcpSessionId. destruct (sessions w.1 !! tok) as [s|] eqn:Hs; [|done].
    cbn. by erewrite size_insert_present.
  - unfold revokeToken. destruct (sessions w.1 !! tok); [|done].
    cbn [snd]. rewrite notifyCleanup_sessions. cbn.
    pose proof (size_delete_le (sessions w.1) tok). lia.
  - unfold cleanupExpiredSessions.
    pose proof (cleanup_loop_size (expiredTokens now w.1) w). lia.
  - done.
  - unfold shutdown. cbn. rewrite map_size_empty. lia.
Qed.

Lemma run_size httpConfig (ops : list (Op E)) w :
  0 <= maxSessions httpConfig ->
  Z.of_nat (size (sessions w.1)) <= maxSessions httpConfig ->
  Z.of_nat (size (sessions (run httpConfig ops w).1)) <= maxSessions httpConfig.
Proof.
  intros Hmax. revert w. induction ops as [|op ops IH]; intros w Hsz; [done|].
  cbn. apply IH. by apply exec_size.
Qed.

Lemma max_sessions_message_includes httpConfig :
  includes "Maximum concurrent sessions" (max_sessions_message httpConfig) = true.
Proof. reflexivity. Qed.

Lemma createSession_at_cap httpConfig fresh cfg d now st :
  Z.of_nat (size (sessions st)) >= maxSessions httpConfig ->
  createSession httpConfig fresh cfg d now st
  = (Throw (max_sessions_message httpConfig), st).
Proof.
  intros H. unfold createSession.
  destruct (Z.geb_spec (Z.of_nat (size (sessions st))) (maxSessions httpConfig)); [done|lia].
Qed.

Lemma createSession_admitted httpConfig fresh cfg d now st :
  Z.of_nat (size (sessions st)) < maxSessions httpConfig ->
  let expiresIn := default (tokenExpiry httpConfig) d in
  createSession httpConfig fresh cfg d now st
  = (Ok {| cr_token := fresh; cr_expiresAt := newDate (now + expiresIn * 1000);
           cr_expiresIn := expiresIn |},
     with_sessions
       (<[fresh := {| token := fresh; config := cfg; createdAt := now;
                      expiresAt := newDate (now + expiresIn * 1000);
                      lastUsedAt := now;
                      mcpSessionId := None |}]> (sessions st)) st).
Proof.
  intros H. unfold createSession.
  destruct (Z.geb_spec (Z.of_nat (size (sessions st))) (maxSessions httpConfig)); [lia|done].
Qed.

Lemma validateToken_expired tok now st s :
  tok <> "" -> sessions st !! tok = Some s -> later_than now (expiresAt s) = true ->
  validateToken tok now st
  = ({| valid := false; session := None; error := Some "Token expired" |},
     with_sessions (delete tok (sessions st)) st).
Proof.
  intros Hne Hs Hexp. unfold validateToken. rewrite decide_False by done.
  rewrite Hs. by rewrite Hexp.
Qed.

(** C2.  Starting from an empty store and for every sequence of calls on
    the manager ([createSession], [validateToken], [setMcpSessionId],
    [revokeToken], the expiry sweep, [setCleanupCallback], [shutdown]),
    the number of stored sessions is at most [maxSessions] after every
    call, for a cap that is a count (not negative).  Each [createSession]
    is one step of the sequence: its size test and its insertion are not
    separated by a suspension point, so no other call runs between them.
    In any state with [size >= maxSessions] the call throws an error whose
    message includes "Maximum concurrent sessions" and stores nothing. *)
Theorem sessions_never_exceed_maxSessions httpConfig (ops : list (Op E)) e :
  0 <= maxSessions httpConfig ->
  Z.of_nat (size (sessions (run httpConfig ops (init, e)).1)) <= maxSessions httpConfig /\
  forall st fresh cfg d now,
    Z.of_nat (size (sessions st)) >= maxSessions httpConfig ->
    exists msg,
      createSession httpConfig fresh cfg d now st = (Throw msg, st) /\
      includes "Maximum concurrent sessions" msg = true.
Proof.
  intros Hmax. split.
  - apply run_size; [done|]. cbn. rewrite map_size_empty. lia.
  - intros st fresh cfg d now Hfull. eexists. split.
    + by apply createSession_at_cap.
    + apply max_sessions_message_includes.
Qed.

(** C9.  [revokeToken] on a token that is not stored returns [false] and
    changes nothing: the session map, the callback's environment and the
    trace of callback invocations are as before.  Whenever one call does
    invoke the callback, an entry for that token was stored before the call
    and is gone after it, the call returns [true] and the callback ran once,
    with that token. *)
Theorem revokeToken_absent_is_noop tok w :
  (sessions w.1 !! tok = None -> revokeToken tok w = (false, w)) /\
  (forall b w', revokeToken tok w = (b, w') ->
     invoked w'.1 <> invoked w.1 ->
     is_Some (sessions w.1 !! tok) /\ sessions w'.1 !! tok = None /\
     b = true /\ invoked w'.1 = invoked w.1 ++ [tok]).
Proof.
  split.
  - intros Hnone. unfold revokeToken. by rewrite Hnone.
  - intros b w' Hr Hinv. unfold revokeToken in Hr.
    destruct (sessions w.1 !! tok) as [s|] eqn:Hs.
    + injection Hr as <- <-. split; [by eexists|].
      rewrite notifyCleanup_sessions. cbn. split; [apply lookup_delete_eq|].
      split; [done|]. revert Hinv. unfold notifyCleanup. cbn.
      destruct (cleanupCallback w.1); cbn; [done|]. intros Hc. by destruct Hc.
    + injection Hr as <- <-. by destruct Hinv.
Qed.

End Generic.

Lemma sessions_never_exceed_maxSessions_witness :
  Z.of_nat (size (sessions
     (run two_sessions
        [OpCreate "a" sample_config None 0; OpCreate "b" sample_config (Some 60) 1;
         OpCreate "c" sample_config None 2; OpRevoke "a"; OpCleanupExpired 70000]
        (init, tt)).1)) <= maxSessions two_sessions /\
  forall (st : State unit) fresh cfg d now,
    Z.of_nat (size (sessions st)) >= maxSessions two_sessions ->
    exists msg,
      createSession two_sessions fresh cfg d now st = (Throw msg, st) /\
      includes "Maximum concurrent sessions" msg = true.
Proof.
  apply (sessions_never_exceed_maxSessions two_sessions). cbn. lia.
Defined.

Example third_session_refused :
  (createSession two_sessions "c" sample_config None 2
     (run two_sessions
        [OpCreate "a" sample_config None 0; OpCreate "b" sample_config None 1]
        (init, tt)).1).1
  = Throw "Maximum concurrent sessions (2) reached. Please try again later.".
Proof. vm_compute. reflexivity. Qed.

Lemma revokeToken_absent_is_noop_witness :
  revokeToken "missing" watched = (false, watched) /\
  is_Some (sessions watched.1 !! "kept") /\
  sessions (revokeToken "kept" watched).2.1 !! "kept" = None /\
  (revokeToken "kept" watched).1 = true /\
  invoked (revokeToken "kept" watched).2.1 = invoked watched.1 ++ ["kept"] /\
  (revokeToken "kept" watched).2.2 = ["kept"].
Proof.
  split.
  - apply (proj1 (revokeToken_absent_is_noop "missing" watched)).
    vm_compute. reflexivity.
  - assert (Hinv : invoked (revokeToken "kept" watched).2.1 <> invoked watched.1).
    { vm_compute. discriminate. }
    destruct (proj2 (revokeToken_absent_is_noop "kept" watched) _ _
                (surjective_pairing _) Hinv) as (Hs & Hgone & Hb & Ht).
    split; [exact Hs|]. split; [exact Hgone|]. split; [exact Hb|].
    split; [exact Ht|]. vm_compute. reflexivity.
Defined.

End TokenManagerClaims.

(* ===================================================================== *)
(** ** MCP session manager *)
(* ===================================================================== *)

Module SessionManagerClaims.
Import SessionManager Scenario.

(** *** [closeSession] run to completion *)

Lemma closeSession_begin_refused sessionId st :
  (sessions st !! sessionId = None \/
   exists s, sessions st !! sessionId = Some s /\ isClosing s = true) ->
  closeSession_begin sessionId st = (inl false, st).
Proof.
  unfold closeSession_begin. intros [->|(s & -> & ->)]; done.
Qed.

Lemma closeSession_begin_admitted sessionId st s :
  sessions st !! sessionId = Some s -> isClosing s = false ->
  closeSession_begin sessionId st
  = (inr AwaitTransportClose,
     {| sessions := <[sessionId := set_isClosing true s]> (sessions st);
        calls := calls st ++ [TransportClose sessionId] |}).
Proof. unfold closeSession_begin. by intros -> ->. Qed.

Lemma closeSession_refused sessionId o st :
  (sessions st !! sessionId = None \/
   exists s, sessions st !! sessionId = Some s /\ isClosing s = true) ->
  closeSession sessionId o st = (false, st).
Proof.
  intros H. unfold closeSession. by rewrite closeSession_begin_refused.
Qed.

Lemma closeSession_admitted sessionId o st s :
  sessions st !! sessionId = Some s -> isClosing s = false ->
  closeSession sessionId o st
  = (true, {| sessions := delete sessionId (sessions st);
              calls := calls st ++ close_calls sessionId o |}).
Proof.
  intros Hs Hc. unfold closeSession, close_calls.
  rewrite (closeSession_begin_admitted _ _ _ Hs Hc).
  destruct (transport_close o) as [[]|msg]; cbn.
  - destruct (server_close o) as [[]|msg]; cbn; unfold with_sessions; cbn;
      by rewrite delete_insert_eq, <- app_assoc.
  - unfold with_sessions; cbn. by rewrite delete_insert_eq.
Qed.

Lemma closeEach_cons outcome sessionId ids st :
  (closeEach outcome (sessionId :: ids) st).2
  = (closeEach outcome ids (closeSession sessionId (outcome sessionId) st).2).2.
Proof.
  unfold closeEach. cbn [foldl fst snd].
  destruct (closeSession sessionId (outcome sessionId) st) as [closed st1]. cbn [snd].
  generalize (if closed then 0 + 1 else 0). generalize 0.
  revert st1. induction ids as [|i ids IH]; intros st1 n m; [done|].
  cbn [foldl fst snd].
  destruct (closeSession i (outcome i) st1) as [c st2]. apply IH.
Qed.

Lemma closeEach_nil outcome st : (closeEach outcome [] st).2 = st.
Proof. done. Qed.

(** Closing a list of distinct, stored, not yet closing sessions removes
    exactly them and makes the close calls for exactly them. *)
Lemma closeEach_effect outcome ids st :
  NoDup ids ->
  (forall i, i ∈ ids -> exists s, sessions st !! i = Some s /\ isClosing s = false) ->
  let st' := (closeEach outcome ids st).2 in
  (forall i, i ∈ ids -> sessions st' !! i = None) /\
  (forall i, i ∉ ids -> sessions st' !! i = sessions st !! i) /\
  calls st' = calls st ++ concat ((fun i => close_calls i (outcome i)) <$> ids).
Proof.
  revert st. induction ids as [|i0 ids IH]; intros st Hnd Hall.
  - cbn. split; [intros i Hi; by apply elem_of_nil in Hi|].
    split; [done|]. by rewrite app_nil_r.
  - apply NoDup_cons in Hnd as [Hfresh Hnd].
    destruct (Hall i0) as (s0 & Hs0 & Hc0); [by left|].
    cbn zeta. rewrite closeEach_cons.
    rewrite (closeSession_admitted _ _ _ _ Hs0 Hc0). cbn [snd].
    set (st1 := {| sessions := delete i0 (sessions st);
                   calls := calls st ++ close_calls i0 (outcome i0) |}).
    destruct (IH st1 Hnd) as (Hin & Hout & Hcalls).
    { intros i Hi. destruct (Hall i) as (s & Hs & Hc); [by right|].
      exists s. split; [|done]. cbn. rewrite lookup_delete_ne; [done|].
      intros ->. done. }
    split; [|split].
    + intros i [->|Hi]%elem_of_cons; [|by apply Hin].
      rewrite Hout by done. cbn. apply lookup_delete_eq.
    + intros i Hi. apply not_elem_of_cons in Hi as [Hne Hi].
      rewrite Hout by done. cbn. by rewrite lookup_delete_ne.
    + rewrite Hcalls. cbn. by rewrite <- app_assoc.
Qed.

Lemma elem_of_close_calls c sessionId o :
  c ∈ close_calls sessionId o ->
  c = TransportClose sessionId \/ c = ServerClose sessionId.
Proof.
  unfold close_calls. destruct (transport_close o); intros H;
    repeat (apply elem_of_cons in H as [->|H]; [by auto|]);
    by apply elem_of_nil in H.
Qed.

Lemma TransportClose_in_close_calls sessionId o :
  TransportClose sessionId ∈ close_calls sessionId o.
Proof. unfold close_calls. destruct (transport_close o); by left. Qed.

Lemma staleSessionIds_elem now st sessionId :
  sessionId ∈ staleSessionIds now st <->
  exists s, sessions st !! sessionId = Some s /\ isClosing s = false /\
            activeRequests s = 0 /\ now - lastAccessedAt s > staleTimeoutMs.
Proof.
  unfold staleSessionIds. rewrite list_elem_of_fmap. split.
  - intros ([i s] & -> & Hin). apply list_elem_of_filter in Hin as [(Hc & Hage & Hact) Hin].
    apply elem_of_map_to_list in Hin. cbn in *. by exists s.
  - intros (s & Hs & Hc & Hact & Hage). exists (sessionId, s). split; [done|].
    apply list_elem_of_filter. split; [done|]. by apply elem_of_map_to_list.
Qed.

Lemma staleSessionIds_NoDup now st : NoDup (staleSessionIds now st).
Proof.
  unfold staleSessionIds. apply NoDup_fmap_fst.
  - intros i s1 s2 [_ H1]%list_elem_of_filter [_ H2]%list_elem_of_filter.
    apply elem_of_map_to_list in H1, H2. congruence.
  - apply NoDup_filter, NoDup_map_to_list.
Qed.

Lemma elem_of_concat_close_calls c outcome (ids : list string) :
  c ∈ concat ((fun i => close_calls i (outcome i)) <$> ids) ->
  exists i, i ∈ ids /\ (c = TransportClose i \/ c = ServerClose i).
Proof.
  induction ids as [|i ids IH]; cbn; [by intros H%elem_of_nil|].
  intros [H|H]%elem_of_app.
  - exists i. split; [by left|]. by eapply elem_of_close_calls.
  - destruct (IH H) as (j & Hj & Hc). exists j. split; [by right|done].
Qed.

Lemma TransportClose_in_concat outcome (ids : list string) i :
  i ∈ ids -> TransportClose i ∈ concat ((fun i => close_calls i (outcome i)) <$> ids).
Proof.
  induction ids as [|j ids IH]; [by intros H%elem_of_nil|].
  cbn. intros [->|H]%elem_of_cons; apply elem_of_app.
  - left. apply TransportClose_in_close_calls.
  - right. by apply IH.
Qed.

(** *** Interleaved execution: the invariant [consistent] *)

Lemma count_occ_snoc (l : list Call) c c' :
  count_occ Call_eq_dec (l ++ [c']) c
  = (count_occ Call_eq_dec l c + (if decide (c' = c) then 1 else 0))%nat.
Proof.
  rewrite count_occ_app. f_equal.
Qed.

Lemma inflight_app i ts1 ts2 :
  inflight i (ts1 ++ ts2) = (inflight i ts1 + inflight i ts2)%nat.
Proof. apply sum_list_with_app. Qed.

Lemma inflight_cons i t ts :
  inflight i (t :: ts) = ((if awaits i t then 1 else 0) + inflight i ts)%nat.
Proof. done. Qed.

Lemma inflight_idle i ts t :
  waiting t = None -> inflight i (ts ++ [t]) = inflight i ts.
Proof.
  intros H. rewrite inflight_app, inflight_cons. unfold awaits. rewrite H. cbn. lia.
Qed.

Lemma awaits_true i t : awaits i t = true <-> exists p, waiting t = Some (i, p).
Proof.
  unfold awaits. destruct (waiting t) as [[j p]|]; [|by split; [|intros [? ?]]].
  rewrite bool_decide_eq_true. split; [intros ->; eauto|intros [? ?]; congruence].
Qed.

Lemma inflight_elem i ts t :
  t ∈ ts -> awaits i t = true -> (1 <= inflight i ts)%nat.
Proof.
  induction ts as [|t' ts IH]; [by intros H%elem_of_nil|].
  rewrite inflight_cons. intros [->|H]%elem_of_cons Ha.
  - rewrite Ha. lia.
  - specialize (IH H Ha). lia.
Qed.

Lemma consistent_boot : consistent boot.
Proof.
  intros i. unfold times, untouched, inflight. cbn.
  repeat split; try done; try lia.
Qed.

Lemma consistent_same_closing sys m' :
  consistent sys ->
  (forall i, isClosing <$> m' !! i = isClosing <$> sessions (mgr sys) !! i) ->
  consistent {| mgr := {| sessions := m'; calls := calls (mgr sys) |};
                tasks := tasks sys; issued := issued sys |}.
Proof.
  intros H Hm i. destruct (H i) as (HT & HS & HF & HU & HI & HE).
  specialize (Hm i). unfold times, untouched in *. cbn.
  split; [done|]. split; [done|]. split; [done|]. split; [|split; [|done]].
  - intros Hu. apply HU.
    destruct (m' !! i), (sessions (mgr sys) !! i); simplify_eq/=; congruence.
  - intros Hi. specialize (HI Hi). rewrite HI in Hm. by destruct (m' !! i).
Qed.

Lemma getSession_same_closing sessionId now st :
  exists m', (getSession sessionId now st).2 = {| sessions := m'; calls := calls st |} /\
    forall i, isClosing <$> m' !! i = isClosing <$> sessions st !! i.
Proof.
  unfold getSession. destruct (sessions st !! sessionId) as [s|] eqn:Hs.
  - destruct (isClosing s) eqn:Hc; [exists (sessions st); by destruct st|].
    eexists. split; [done|]. intros i. destruct (decide (sessionId = i)) as [<-|Hne].
    + by rewrite lookup_insert_eq, Hs.
    + by rewrite lookup_insert_ne.
  - exists (sessions st); by destruct st.
Qed.

Lemma incrementActiveRequests_same_closing sessionId now st :
  exists m', incrementActiveRequests sessionId now st
             = {| sessions := m'; calls := calls st |} /\
    forall i, isClosing <$> m' !! i = isClosing <$> sessions st !! i.
Proof.
  unfold incrementActiveRequests. destruct (sessions st !! sessionId) as [s|] eqn:Hs.
  - eexists. split; [done|]. intros i. destruct (decide (sessionId = i)) as [<-|Hne].
    + by rewrite lookup_insert_eq, Hs.
    + by rewrite lookup_insert_ne.
  - exists (sessions st); by destruct st.
Qed.

Lemma decrementActiveRequests_same_closing sessionId now st :
  exists m', decrementActiveRequests sessionId now st
             = {| sessions := m'; calls := calls st |} /\
    forall i, isClosing <$> m' !! i = isClosing <$> sessions st !! i.
Proof.
  unfold decrementActiveRequests. destruct (sessions st !! sessionId) as [s|] eqn:Hs.
  - destruct (activeRequests s >? 0)%Z; [|exists (sessions st); by destruct st].
    eexists. split; [done|]. intros i. destruct (decide (sessionId = i)) as [<-|Hne].
    + by rewrite lookup_insert_eq, Hs.
    + by rewrite lookup_insert_ne.
  - exists (sessions st); by destruct st.
Qed.

Lemma consistent_spawn sys ids :
  consistent sys ->
  consistent {| mgr := mgr sys;
                tasks := tasks sys ++ [{| waiting := None; todo := ids |}];
                issued := issued sys |}.
Proof.
  intros H i. destruct (H i) as (HT & HS & HF & HU & HI & HE).
  unfold untouched in *. cbn [mgr tasks issued]. rewrite inflight_idle by done.
  split; [done|]. split; [done|]. split; [done|]. split; [done|]. split; [done|].
  intros t [Ht|Ht]%elem_of_app Hw; [by eapply HE|].
  apply list_elem_of_singleton in Ht as ->. done.
Qed.

Lemma consistent_create sys sessionId srv tr tok connect now r st' :
  consistent sys ->
  sessionId ∉ issued sys ->
  createSession sessionId srv tr tok connect now (mgr sys) = (r, st') ->
  consistent {| mgr := st'; tasks := tasks sys; issued := {[sessionId]} ∪ issued sys |}.
Proof.
  intros H Hfresh Hc i. destruct (H i) as (HT & HS & HF & HU & HI & HE).
  unfold createSession in Hc. unfold times, untouched in *.
  assert (Hgrow : i ∉ ({[sessionId]} ∪ issued sys : gset string) -> i ∉ issued sys).
  { intros Hn Hi. apply Hn, elem_of_union. by right. }
  destruct connect as [[]|msg]; simplify_eq/=.
  - destruct (decide (sessionId = i)) as [<-|Hne].
    + rewrite lookup_insert_eq.
      specialize (HI Hfresh). rewrite HI in HU. specialize (HU Hfresh).
      destruct HU as (-> & -> & ->).
      split; [lia|]. split; [lia|]. split; [lia|]. split; [done|].
      split; [|done]. intros Hn. exfalso. apply Hn, elem_of_union. left.
      by apply elem_of_singleton.
    + rewrite lookup_insert_ne by done.
      split; [done|]. split; [done|]. split; [done|]. split; [|split; [|done]].
      * intros Hu. apply HU. destruct (sessions (mgr sys) !! i); auto.
      * intros Hi. apply HI. auto.
  - split; [done|]. split; [done|]. split; [done|]. split; [|split; [|done]].
    + intros Hu. apply HU. destruct (sessions (mgr sys) !! i); auto.
    + intros Hi. apply HI. auto.
Qed.

Lemma awaits_idle i t : waiting t = None -> awaits i t = false.
Proof. unfold awaits. by intros ->. Qed.

Lemma awaits_same i p rest : awaits i {| waiting := Some (i, p); todo := rest |} = true.
Proof. unfold awaits. cbn. by apply bool_decide_eq_true. Qed.

Lemma awaits_other i j p rest :
  j <> i -> awaits i {| waiting := Some (j, p); todo := rest |} = false.
Proof. intros H. unfold awaits. cbn. by apply bool_decide_eq_false. Qed.

Lemma inflight_middle i before t after :
  inflight i (before ++ t :: after)
  = (inflight i before + (if awaits i t then 1 else 0) + inflight i after)%nat.
Proof. rewrite inflight_app, inflight_cons. lia. Qed.

(** A second task suspended in [closeSession(i)] would make two. *)
Lemma inflight_two i before t after t0 :
  awaits i t = true -> awaits i t0 = true ->
  t0 ∈ before ++ after ->
  (2 <= inflight i (before ++ t :: after))%nat.
Proof.
  intros Ht Ht0 Hin. rewrite inflight_middle, Ht.
  apply elem_of_app in Hin as [Hin|Hin];
    pose proof (inflight_elem _ _ _ Hin Ht0); lia.
Qed.

Lemma elem_of_middle (t0 t : Task) before after :
  t0 ∈ before ++ t :: after <-> t0 = t \/ t0 ∈ before ++ after.
Proof. rewrite !elem_of_app, elem_of_cons. tauto. Qed.

Lemma consistent_task sys before t after settled t' st' :
  consistent sys ->
  tasks sys = before ++ t :: after ->
  task_step settled t (mgr sys) = Some (t', st') ->
  consistent {| mgr := st'; tasks := before ++ t' :: after; issued := issued sys |}.
Proof.
  intros H Htasks Hstep i. destruct (H i) as (HT & HS & HF & HU & HI & HE).
  rewrite Htasks in HF, HU, HE. rewrite inflight_middle in HF, HU.
  unfold task_step in Hstep.
  destruct (waiting t) as [[i0 p]|] eqn:Hw.
  - (* resuming the suspended call *)
    assert (Hat : awaits i0 t = true) by (apply awaits_true; eauto).
    assert (Hbusy : ~ untouched i0 sys).
    { intros Hu. destruct (H i0) as (_ & _ & _ & HU0 & _ & _).
      destruct (HU0 Hu) as (_ & _ & Hz). rewrite Htasks, inflight_middle, Hat in Hz. lia. }
    assert (Hsole : forall t0 q, t0 ∈ before ++ after -> waiting t0 <> Some (i0, q)).
    { intros t0 q Hin Hw0. destruct (H i0) as (_ & _ & HF0 & _).
      rewrite Htasks in HF0.
      pose proof (inflight_two i0 before t after t0 Hat
                    (proj2 (awaits_true _ _) (ex_intro _ q Hw0)) Hin). lia. }
    assert (Hother : i0 <> i -> awaits i t = false).
    { intros Hne. unfold awaits. rewrite Hw. by apply bool_decide_eq_false. }
    assert (Hdone : forall st0,
      st0 = with_sessions (delete i0 (sessions (mgr sys))) (mgr sys) ->
      (times (TransportClose i) st0 <= 1)%nat /\
      (times (ServerClose i) st0 <= 1)%nat /\
      (inflight i (before ++ {| waiting := None; todo := todo t |} :: after) <= 1)%nat /\
      (untouched i {| mgr := st0;
                      tasks := before ++ {| waiting := None; todo := todo t |} :: after;
                      issued := issued sys |} ->
         times (TransportClose i) st0 = 0%nat /\
         times (ServerClose i) st0 = 0%nat /\
         inflight i (before ++ {| waiting := None; todo := todo t |} :: after) = 0%nat) /\
      (i ∉ issued sys -> sessions st0 !! i = None) /\
      (forall t0, t0 ∈ before ++ {| waiting := None; todo := todo t |} :: after ->
         waiting t0 = Some (i, AwaitTransportClose) ->
         times (ServerClose i) st0 = 0%nat)).
    { intros st0 ->. unfold untouched, times in *.
      cbn [mgr sessions calls tasks issued with_sessions].
      rewrite inflight_middle, awaits_idle by done.
      destruct (decide (i0 = i)) as [->|Hne].
      - rewrite Hat in *. rewrite lookup_delete_eq.
        split; [done|]. split; [done|]. split; [lia|]. split; [|split; [done|]].
        + intros Hu. destruct Hbusy. by rewrite (HI Hu).
        + intros t0 [->|Hin]%elem_of_middle Hw0; [done|]. by destruct (Hsole t0 _ Hin Hw0).
      - rewrite (Hother Hne) in *. rewrite lookup_delete_ne by done.
        split; [done|]. split; [done|]. split; [lia|]. split; [|split; [done|]].
        + intros Hu. destruct (HU Hu) as (? & ? & ?). repeat split; lia.
        + intros t0 [->|Hin]%elem_of_middle Hw0; [done|].
          eapply HE; [|exact Hw0]. apply elem_of_middle. by right. }
    destruct p, settled as [[]|msg]; simplify_eq/=; try (by apply Hdone).
    (* transport.close() resolved: server.close() is called *)
    unfold untouched, times in *. cbn [mgr sessions calls tasks issued].
    rewrite inflight_middle, !count_occ_snoc.
    destruct (decide (i0 = i)) as [->|Hne].
    + rewrite Hat in *. rewrite awaits_same.
      assert (HS0 : count_occ Call_eq_dec (calls (mgr sys)) (ServerClose i) = 0%nat).
      { eapply HE; [|exact Hw]. apply elem_of_middle. by left. }
      rewrite decide_False by done. rewrite decide_True by done.
      split; [lia|]. split; [lia|]. split; [lia|]. split; [|split; [done|]].
      * intros Hu. by destruct Hbusy.
      * intros t0 [->|Hin]%elem_of_middle Hw0; [done|]. by destruct (Hsole t0 _ Hin Hw0).
    + rewrite awaits_other by done. rewrite (Hother Hne) in *.
      rewrite decide_False by done. rewrite decide_False by congruence.
      split; [lia|]. split; [lia|]. split; [lia|]. split; [|split; [done|]].
      * intros Hu. destruct (HU Hu) as (? & ? & ?). repeat split; lia.
      * intros t0 [->|Hin]%elem_of_middle Hw0; [done|].
        rewrite Nat.add_0_r.
        eapply HE; [|exact Hw0]. apply elem_of_middle. by right.
  - (* starting the next call *)
    rewrite (awaits_idle i t Hw) in *.
    destruct (todo t) as [|i0 rest] eqn:Htodo; [done|].
    unfold closeSession_begin in Hstep.
    assert (Hskip :
      (times (TransportClose i) (mgr sys) <= 1)%nat /\
      (times (ServerClose i) (mgr sys) <= 1)%nat /\
      (inflight i (before ++ {| waiting := None; todo := rest |} :: after) <= 1)%nat /\
      (untouched i {| mgr := mgr sys;
                      tasks := before ++ {| waiting := None; todo := rest |} :: after;
                      issued := issued sys |} ->
         times (TransportClose i) (mgr sys) = 0%nat /\
         times (ServerClose i) (mgr sys) = 0%nat /\
         inflight i (before ++ {| waiting := None; todo := rest |} :: after) = 0%nat) /\
      (i ∉ issued sys -> sessions (mgr sys) !! i = None) /\
      (forall t0, t0 ∈ before ++ {| waiting := None; todo := rest |} :: after ->
         waiting t0 = Some (i, AwaitTransportClose) ->
         times (ServerClose i) (mgr sys) = 0%nat)).
    { unfold untouched, times in *. cbn [mgr sessions calls tasks issued].
      rewrite inflight_middle, awaits_idle by done.
      split; [done|]. split; [done|]. split; [lia|]. split; [|split; [done|]].
      - intros Hu. destruct (HU Hu) as (? & ? & ?). repeat split; lia.
      - intros t0 [->|Hin]%elem_of_middle Hw0; [done|].
        eapply HE; [|exact Hw0]. apply elem_of_middle. by right. }
    destruct (sessions (mgr sys) !! i0) as [s|] eqn:Hs; [|by simplify_eq/=].
    destruct (isClosing s) eqn:Hc; [by simplify_eq/=|].
    simplify_eq/=.
    unfold untouched, times in *. cbn [mgr sessions calls tasks issued].
    rewrite inflight_middle, !count_occ_snoc.
    destruct (decide (i0 = i)) as [->|Hne].
    + rewrite awaits_same, lookup_insert_eq. rewrite Hs in HU.
      destruct (HU Hc) as (HT0 & HS0 & HF0).
      rewrite decide_True by done. rewrite decide_False by done.
      split; [lia|]. split; [lia|]. split; [lia|]. split; [done|]. split; [|intros; lia].
      intros Hi. specialize (HI Hi). congruence.
    + rewrite awaits_other, lookup_insert_ne by done.
      rewrite decide_False by congruence. rewrite decide_False by done.
      split; [lia|]. split; [lia|]. split; [lia|]. split; [|split; [done|]].
      * intros Hu. destruct (HU Hu) as (? & ? & ?). repeat split; lia.
      * intros t0 [->|Hin]%elem_of_middle Hw0; [cbn in Hw0; congruence|].
        rewrite Nat.add_0_r.
        eapply HE; [|exact Hw0]. apply elem_of_middle. by right.
Qed.

Lemma step_consistent sys sys' : consistent sys -> step sys sys' -> consistent sys'.
Proof.
  intros H Hstep. destruct Hstep.
  - by eapply consistent_create.
  - destruct (getSession_same_closing sessionId now (mgr sys)) as (m' & -> & Hm).
    by apply consistent_same_closing.
  - destruct (incrementActiveRequests_same_closing sessionId now (mgr sys)) as (m' & -> & Hm).
    by apply consistent_same_closing.
  - destruct (decrementActiveRequests_same_closing sessionId now (mgr sys)) as (m' & -> & Hm).
    by apply consistent_same_closing.
  - by apply consistent_spawn.
  - by apply consistent_spawn.
  - by apply consistent_spawn.
  - by apply consistent_spawn.
  - by eapply consistent_task.
Qed.

Lemma reachable_consistent sys : reachable sys -> consistent sys.
Proof.
  induction 1; [apply consistent_boot|by eapply step_consistent].
Qed.

(** A tick of the stale-session timer that runs from its first line to its
    last with nothing else scheduled between its [await]s.  The ids it
    collects are exactly those of the stored sessions with [isClosing]
    false, [activeRequests] zero and [now - lastAccessedAt] above the stale
    timeout; it calls [closeSession] on these ids and on no other, and a
    session that has [activeRequests > 0] when the tick fires stays in the
    map as it was. *)
Lemma stale_sweep_skips_active outcome now st :
  (forall sessionId,
     sessionId ∈ staleSessionIds now st <->
     exists s, sessions st !! sessionId = Some s /\ isClosing s = false /\
               activeRequests s = 0 /\ now - lastAccessedAt s > staleTimeoutMs) /\
  exists new,
    calls (cleanupStaleSessions outcome now st) = calls st ++ new /\
    (forall sessionId,
       TransportClose sessionId ∈ new <-> sessionId ∈ staleSessionIds now st) /\
    (forall sessionId,
       ServerClose sessionId ∈ new -> sessionId ∈ staleSessionIds now st) /\
    (forall sessionId,
       sessionId ∈ staleSessionIds now st ->
       sessions (cleanupStaleSessions outcome now st) !! sessionId = None) /\
    (forall sessionId s,
       sessions st !! sessionId = Some s -> 0 < activeRequests s ->
       sessions (cleanupStaleSessions outcome now st) !! sessionId = Some s /\
       (TransportClose sessionId ∉ new) /\ (ServerClose sessionId ∉ new)).
Proof.
  split; [apply staleSessionIds_elem|].
  destruct (closeEach_effect outcome (staleSessionIds now st) st) as (Hin & Hout & Hcalls).
  { apply staleSessionIds_NoDup. }
  { intros i (s & Hs & Hc & _)%staleSessionIds_elem. by exists s. }
  assert (Hnew : forall c i,
    c ∈ concat ((fun i => close_calls i (outcome i)) <$> staleSessionIds now st) ->
    c = TransportClose i \/ c = ServerClose i -> i ∈ staleSessionIds now st).
  { intros c i Hc Hci. apply elem_of_concat_close_calls in Hc as (j & Hj & Hcj).
    destruct Hci as [->| ->], Hcj as [Hcj|Hcj]; by simplify_eq. }
  eexists. split; [exact Hcalls|].
  split; [|split; [|split]].
  - intros i. split; [intros H; eapply Hnew; eauto|apply TransportClose_in_concat].
  - intros i H. eapply Hnew; eauto.
  - exact Hin.
  - intros i s Hs Hact.
    assert (Hnot : i ∉ staleSessionIds now st).
    { intros (s' & Hs' & _ & Hz & _)%staleSessionIds_elem. simplify_eq. lia. }
    split; [unfold cleanupStaleSessions; by rewrite Hout|].
    split; intros H; apply Hnot; eapply Hnew; eauto.
Qed.

Lemma advance_reachable n settled sys : reachable sys -> reachable (advance n settled sys).
Proof.
  intros H. unfold advance.
  destruct (tasks sys !! n) as [t|] eqn:Ht; [|done].
  destruct (task_step settled t (mgr sys)) as [[t' st']|] eqn:Hstep; [|done].
  eapply reachable_step; [exact H|].
  eapply step_task; [|exact Hstep]. by rewrite take_drop_middle.
Qed.

Lemma closing_twice_reachable : reachable closing_twice.
Proof.
  unfold closing_twice. cbv zeta. do 5 apply advance_reachable.
  eapply reachable_step; [|apply step_call_shutdown].
  eapply reachable_step; [|apply step_call_closeSession].
  eapply reachable_step; [apply reachable_boot|].
  eapply (step_create boot "s1" 1%nat 1%nat "tok" (Ok ()) 0);
    [apply not_elem_of_empty|apply surjective_pairing].
Qed.

Example closing_twice_calls :
  calls (mgr closing_twice) = [TransportClose "s1"; ServerClose "s1"] /\
  sessions (mgr closing_twice) !! "s1" = None.
Proof. vm_compute. done. Qed.

Example stale_sweep_run_to_completion :
  sessions (cleanupStaleSessions all_close_ok 2000000 idle_and_busy) !! "busy"
  = sessions idle_and_busy !! "busy" /\
  sessions (cleanupStaleSessions all_close_ok 2000000 idle_and_busy) !! "idle" = None.
Proof.
  destruct (stale_sweep_skips_active all_close_ok 2000000 idle_and_busy)
    as (Hsel & new & Hcalls & HT & HS & Hgone & Hkept).
  split.
  - assert (Hs : sessions idle_and_busy !! "busy"
                 = Some {| id := "busy"; server := 2%nat; transport := 2%nat;
                           authToken := "tok"; createdAt := 0; lastAccessedAt := 100;
                           activeRequests := 1; isClosing := false |})
      by (vm_compute; reflexivity).
    rewrite Hs. apply (Hkept "busy" _ Hs). cbn. lia.
  - apply Hgone, Hsel.
    exists {| id := "idle"; server := 1%nat; transport := 1%nat;
              authToken := "tok"; createdAt := 0; lastAccessedAt := 0;
              activeRequests := 0; isClosing := false |}.
    split; [vm_compute; reflexivity|]. cbn. unfold staleTimeoutMs. lia.
Qed.



(** C6.  [closeSession(id)] returns [false] and changes nothing (session
    map and calls made) when the session is absent or already has
    [isClosing] set.  Otherwise it marks the session as closing in the same
    synchronous stretch in which it calls [transport.close()], and when run
    to its end it has called [transport.close()], then [server.close()]
    (unless the first rejected), deleted the entry and returned [true].
    In every state reachable by interleaving, at their suspension points,
    any number of [closeSession], [closeSessionsByToken], stale-session
    sweep and [shutdown] activations with session creation and request
    accounting, [transport.close()] and [server.close()] have each been
    called at most once for every session id, and a stored session on
    which either has been called has [isClosing] set.  Session ids are
    never issued twice. *)
Theorem closeSession_runs_once :
  (forall sessionId st,
     (sessions st !! sessionId = None \/
      exists s, sessions st !! sessionId = Some s /\ isClosing s = true) ->
     closeSession_begin sessionId st = (inl false, st) /\
     forall o, closeSession sessionId o st = (false, st)) /\
  (forall sessionId st s o,
     sessions st !! sessionId = Some s -> isClosing s = false ->
     closeSession_begin sessionId st
     = (inr AwaitTransportClose,
        {| sessions := <[sessionId := set_isClosing true s]> (sessions st);
           calls := calls st ++ [TransportClose sessionId] |}) /\
     closeSession sessionId o st
     = (true, {| sessions := delete sessionId (sessions st);
                 calls := calls st ++ close_calls sessionId o |})) /\
  (forall sys, reachable sys -> forall sessionId,
     (times (TransportClose sessionId) (mgr sys) <= 1)%nat /\
     (times (ServerClose sessionId) (mgr sys) <= 1)%nat /\
     forall s, sessions (mgr sys) !! sessionId = Some s ->
       (0 < times (TransportClose sessionId) (mgr sys)
            + times (ServerClose sessionId) (mgr sys))%nat ->
       isClosing s = true).
Proof.
  split; [|split].
  - intros sessionId st H. split; [by apply closeSession_begin_refused|].
    intros o. by apply closeSession_refused.
  - intros sessionId st s o Hs Hc.
    split; [by apply closeSession_begin_admitted|by eapply closeSession_admitted].
  - intros sys Hr sessionId.
    destruct (reachable_consistent sys Hr sessionId) as (HT & HS & _ & HU & _ & _).
    split; [done|]. split; [done|]. intros s Hs Hpos.
    destruct (isClosing s) eqn:Hc; [done|].
    unfold untouched in HU. rewrite Hs in HU. destruct (HU Hc) as (? & ? & _). lia.
Qed.

Lemma closeSession_runs_once_witness :
  (times (TransportClose "s1") (mgr closing_twice) <= 1)%nat /\
  (times (ServerClose "s1") (mgr closing_twice) <= 1)%nat.
Proof.
  destruct (proj2 (proj2 closeSession_runs_once) closing_twice
              closing_twice_reachable "s1") as (HT & HS & _).
  split; [exact HT|exact HS].
Defined.


Example closeSession_twice_sequentially :
  let st := (createSession "s1" 1%nat 1%nat "tok" (Ok ()) 0 init).2 in
  let '(first, st1) := closeSession "s1" (all_close_ok "s1") st in
  let '(second, st2) := closeSession "s1" (all_close_ok "s1") st1 in
  first = true /\ second = false /\
  calls st2 = [TransportClose "s1"; ServerClose "s1"].
Proof. vm_compute. done. Qed.

End SessionManagerClaims.

(* ===================================================================== *)
(** ** HTTP transport *)
(* ===================================================================== *)

Module HttpClaims.
Import Http Scenario Connection.

(** *** The pool registry *)

Lemma closeSessionPool_removes k r : sessionPools (closeSessionPool k r) !! k = None.
Proof.
  unfold closeSessionPool. destruct (sessionPools r !! k) as [p|] eqn:Hk; [|done].
  destruct (close_rejects p); cbn; apply lookup_delete_eq.
Qed.

Lemma closeSessionPool_registered k r p :
  sessionPools r !! k = Some p ->
  closeSessionPool k r
  = {| sessionPools := delete k (sessionPools r); closeCalls := closeCalls r ++ [k] |}.
Proof. unfold closeSessionPool. intros ->. by destruct (close_rejects p). Qed.

Lemma closeSessionPool_unregistered k r :
  sessionPools r !! k = None -> closeSessionPool k r = r.
Proof. unfold closeSessionPool. by intros ->. Qed.

Lemma closeSessionPool_other k k' r :
  k <> k' -> sessionPools (closeSessionPool k r) !! k' = sessionPools r !! k'.
Proof.
  intros Hne. unfold closeSessionPool. destruct (sessionPools r !! k) as [p|]; [|done].
  destruct (close_rejects p); cbn; by rewrite lookup_delete_ne.
Qed.

Lemma initializeSessionPool_ok f k cfg r r' :
  initializeSessionPool f k cfg r = (Ok (), r') ->
  is_Some (sessionPools r' !! k) /\ closeCalls r' = closeCalls r.
Proof.
  unfold initializeSessionPool. destruct (sessionPools r !! k) as [p|] eqn:Hk.
  - intros [= <-]. split; [by eexists|done].
  - destruct (f cfg) as [p|msg]; [|done]. intros [= <-]. cbn.
    rewrite lookup_insert_eq. split; [by eexists|done].
Qed.

Lemma initializeSessionPool_throw f k cfg r r' msg :
  initializeSessionPool f k cfg r = (Throw msg, r') -> r' = r.
Proof.
  unfold initializeSessionPool. destruct (sessionPools r !! k); [done|].
  destruct (f cfg); [done|]. by intros [= _ <-].
Qed.

(** *** Keeping the shared pool *)

Lemma spares_global_refl r : spares_global r r.
Proof. exists []. rewrite app_nil_r. split; [done|]. split; [apply not_elem_of_nil|done]. Qed.

Lemma spares_global_trans r1 r2 r3 :
  spares_global r1 r2 -> spares_global r2 r3 -> spares_global r1 r3.
Proof.
  intros (c1 & Hc1 & Hn1 & Hp1) (c2 & Hc2 & Hn2 & Hp2). exists (c1 ++ c2).
  split; [by rewrite Hc2, Hc1, app_assoc|]. split; [|by auto].
  by intros [?|?]%elem_of_app.
Qed.

Lemma initializeSessionPool_spares f k cfg r :
  spares_global r (initializeSessionPool f k cfg r).2.
Proof.
  unfold initializeSessionPool. destruct (sessionPools r !! k) as [p|] eqn:Hk;
    [apply spares_global_refl|].
  destruct (f cfg) as [p|msg]; [|apply spares_global_refl].
  exists []. cbn. rewrite app_nil_r. split; [done|]. split; [apply not_elem_of_nil|].
  intros q Hq. rewrite lookup_insert_ne; [done|]. intros ->. congruence.
Qed.

Lemma closeSessionPool_spares k r :
  k <> "global" -> spares_global r (closeSessionPool k r).
Proof.
  intros Hne. destruct (sessionPools r !! k) as [p|] eqn:Hk.
  - rewrite (closeSessionPool_registered _ _ _ Hk). exists [k]. cbn.
    split; [done|]. split; [intros H%list_elem_of_singleton; congruence|].
    intros q Hq. by rewrite lookup_delete_ne.
  - rewrite closeSessionPool_unregistered by done. apply spares_global_refl.
Qed.

Lemma testPoolId_not_global s : testPoolId s <> "global".
Proof. unfold testPoolId. cbn. discriminate. Qed.

Lemma credentialProbe_registry s dbConfig r :
  (credentialProbe s dbConfig r).2
  = closeSessionPool (testPoolId s)
      (initializeSessionPool (jt400_pool s) (testPoolId s) dbConfig r).2.
Proof.
  unfold credentialProbe. cbv zeta.
  destruct (initializeSessionPool (jt400_pool s) (testPoolId s) dbConfig r)
    as [[[]|msg] r1]; cbn; [|done].
  by destruct (testSessionConnection (globalPool s) (testPoolId s) r1).
Qed.

Lemma credentialProbe_spares s dbConfig r :
  spares_global r (credentialProbe s dbConfig r).2.
Proof.
  rewrite credentialProbe_registry. eapply spares_global_trans.
  - apply initializeSessionPool_spares.
  - apply closeSessionPool_spares, testPoolId_not_global.
Qed.


Lemma initializeCleanup_spares srv k w :
  spares_global (pools w) (pools (initializeCleanup srv k w)).
Proof.
  unfold initializeCleanup. destruct srv; cbn;
    (destruct (decide (k <> "global")); cbn;
     [by apply closeSessionPool_spares|apply spares_global_refl]).
Qed.

Lemma authHandler_spares httpConfig s body w :
  spares_global (pools w) (pools (authHandler httpConfig s body w).2).
Proof.
  unfold authHandler.
  destruct (authMode httpConfig); try apply spares_global_refl.
  destruct (validateAuthRequest body) as [err|authReq]; [apply spares_global_refl|].
  destruct (loadPartialConfig s authReq) as [dbConfig|msg]; [|apply spares_global_refl].
  pose proof (credentialProbe_spares s dbConfig (pools w)) as Hp.
  destruct (credentialProbe s dbConfig (pools w)) as [[descr|[]] r]; [exact Hp|].
  cbn in Hp. cbv zeta.
  destruct (negb _); [exact Hp|].
  destruct (TokenManager.createSession _ _ _ _ _ _) as [[res|msg] t];
    [by destruct (TokenManager.cr_expiresAt res)|].
  by destruct (includes _ _).
Qed.

Lemma initializeSession_spares httpConfig s dbConfig k w :
  spares_global (pools w) (pools (initializeSession httpConfig s dbConfig k w).2).
Proof.
  unfold initializeSession.
  pose proof (initializeSessionPool_spares (jt400_pool s) k dbConfig (pools w)) as Hi.
  destruct (initializeSessionPool (jt400_pool s) k dbConfig (pools w)) as [[[]|msg] r];
    [|exact Hi].
  cbn in Hi. cbv zeta.
  destruct (createMcpServer s) as [srv|msg].
  - destruct (SessionManager.createSession _ _ _ _ _ _ _) as [[[sid tr]|msg] m].
    + destruct (authMode httpConfig), (handleRequest s); exact Hi.
    + eapply spares_global_trans; [exact Hi|].
      apply (initializeCleanup_spares (Some srv) k (with_mcp m (with_pools r w))).
  - eapply spares_global_trans; [exact Hi|].
    apply (initializeCleanup_spares None k (with_pools r w)).
Qed.

Lemma statelessRequest_spares s dbConfig k w :
  spares_global (pools w) (pools (statelessRequest s dbConfig k w).2).
Proof.
  unfold statelessRequest.
  pose proof (initializeSessionPool_spares (jt400_pool s) k dbConfig (pools w)) as Hi.
  destruct (initializeSessionPool (jt400_pool s) k dbConfig (pools w)) as [[[]|msg] r];
    [|exact Hi].
  cbn in Hi. cbv zeta.
  destruct (createMcpServer s); [|exact Hi].
  destruct (connect s); [|exact Hi]. by destruct (handleRequest s).
Qed.

(** A request on an existing session touches the session manager only. *)
Lemma existingSession_frame s sid w :
  tokens (existingSession s sid w).2 = tokens w /\
  pools (existingSession s sid w).2 = pools w /\
  authAttempts (existingSession s sid w).2 = authAttempts w /\
  serverCloses (existingSession s sid w).2 = serverCloses w.
Proof.
  unfold existingSession, existingSession_begin, existingSession_end.
  destruct (SessionManager.getSession sid (now s) (mcp w)) as [[?|] m];
    [destruct (handleRequest s)|]; done.
Qed.

Lemma mcpPostHandler_spares httpConfig s ctx sessionId isInit w :
  spares_global (pools w) (pools (mcpPostHandler httpConfig s ctx sessionId isInit w).2).
Proof.
  unfold mcpPostHandler.
  destruct (selectSessionKey httpConfig s ctx) as [resp|[dbConfig k]];
    [apply spares_global_refl|].
  destruct (sessionMode httpConfig); [|apply statelessRequest_spares].
  destruct (present sessionId) as [sid|].
  - destruct (existingSession_frame s sid w) as (_ & -> & _).
    apply spares_global_refl.
  - destruct isInit; [apply initializeSession_spares|apply spares_global_refl].
Qed.

Lemma behindAuth_spares httpConfig s bearer k w :
  (forall ctx w0, spares_global (pools w0) (pools (k ctx w0).2)) ->
  spares_global (pools w) (pools (behindAuth httpConfig s bearer k w).2).
Proof.
  intros Hk. unfold behindAuth.
  destruct (authMiddleware httpConfig bearer (now s) (tokens w)) as [[resp|ctx] t];
    [apply spares_global_refl|].
  apply (Hk ctx (with_tokens t w)).
Qed.

Lemma serve_spares httpConfig s req w :
  spares_global (pools w) (pools (serve httpConfig s req w).2).
Proof.
  destruct req; cbn [serve].
  - unfold authPost.
    destruct (AuthThrottle.authRateLimitMiddleware _ _ _) as [[retry|[]] a];
      [apply spares_global_refl|].
    apply (authHandler_spares httpConfig s body (with_authAttempts a w)).
  - apply behindAuth_spares. intros. apply mcpPostHandler_spares.
  - apply behindAuth_spares. intros ctx w0. unfold mcpGetHandler.
    destruct (sessionMode httpConfig); [|apply spares_global_refl].
    destruct (present sessionId); [|apply spares_global_refl].
    destruct (SessionManager.getSession _ _ _) as [[?|] m]; apply spares_global_refl.
  - apply behindAuth_spares. intros ctx w0. unfold mcpDeleteHandler.
    destruct (present sessionId); [|apply spares_global_refl].
    destruct (SessionManager.closeSession _ _ _) as [[] m]; apply spares_global_refl.
  - apply spares_global_refl.
Qed.


(** *** Failure after the pool has been ensured *)

Lemma initializeCleanup_effect srv k w p :
  sessionPools (pools w) !! k = Some p ->
  let w' := initializeCleanup srv k w in
  serverCloses w' = serverCloses w ++ from_option (fun x => [x]) [] srv /\
  closeCalls (pools w')
  = closeCalls (pools w) ++ (if decide (k = "global") then [] else [k]) /\
  (k = "global" -> pools w' = pools w) /\
  (k <> "global" -> sessionPools (pools w') !! k = None) /\
  mcp w' = mcp w /\ tokens w' = tokens w.
Proof.
  intros Hk. unfold initializeCleanup.
  assert (Hs : forall w1, pools w1 = pools w ->
    closeCalls (pools (if decide (k <> "global")
                       then with_pools (closeSessionPool k (pools w1)) w1 else w1))
    = closeCalls (pools w) ++ (if decide (k = "global") then [] else [k]) /\
    (k = "global" ->
       pools (if decide (k <> "global")
              then with_pools (closeSessionPool k (pools w1)) w1 else w1) = pools w) /\
    (k <> "global" ->
       sessionPools (pools (if decide (k <> "global")
              then with_pools (closeSessionPool k (pools w1)) w1 else w1)) !! k = None)).
  { intros w1 Hw1. destruct (decide (k <> "global")) as [Hne|Heq].
    - rewrite decide_False by done. cbn. rewrite Hw1.
      rewrite (closeSessionPool_registered _ _ _ Hk). cbn.
      split; [done|]. split; [done|]. intros _. apply lookup_delete_eq.
    - apply dec_stable in Heq. rewrite decide_True by done.
      rewrite app_nil_r, Hw1. done. }
  destruct srv as [srv|]; cbn [from_option].
  - destruct (Hs (close_server srv w) eq_refl) as (H1 & H2 & H3).
    split; [by destruct (decide (k <> "global"))|]. split; [exact H1|].
    split; [exact H2|]. split; [exact H3|]. by destruct (decide (k <> "global")).
  - destruct (Hs w eq_refl) as (H1 & H2 & H3).
    split; [destruct (decide (k <> "global")); cbn; by rewrite app_nil_r|].
    split; [exact H1|]. split; [exact H2|]. split; [exact H3|].
    by destruct (decide (k <> "global")).
Qed.

(** *** Closing every pool at shutdown *)

Lemma closeEvery_effect (ks : list string) r :
  NoDup ks ->
  (forall k, k ∈ ks -> is_Some (sessionPools r !! k)) ->
  let r' := foldl (fun acc k => closeSessionPool k acc) r ks in
  closeCalls r' = closeCalls r ++ ks /\
  forall k, sessionPools r' !! k = if decide (k ∈ ks) then None else sessionPools r !! k.
Proof.
  revert r. induction ks as [|k0 ks IH]; intros r Hnd Hreg; cbn.
  - rewrite app_nil_r. split; [done|]. intros k. rewrite decide_False; [done|].
    apply not_elem_of_nil.
  - apply NoDup_cons in Hnd as [Hfresh Hnd].
    destruct (Hreg k0) as [p Hp]; [by left|].
    rewrite (closeSessionPool_registered _ _ _ Hp).
    destruct (IH {| sessionPools := delete k0 (sessionPools r);
                    closeCalls := closeCalls r ++ [k0] |} Hnd) as (Hc & Hl).
    { intros k Hk. cbn. rewrite lookup_delete_ne; [apply Hreg; by right|].
      intros ->. done. }
    split; [rewrite Hc; cbn; by rewrite <- app_assoc|].
    intros k. rewrite Hl. cbn. destruct (decide (k ∈ ks)) as [Hin|Hnin].
    + rewrite decide_True; [done|by right].
    + destruct (decide (k = k0)) as [->|Hne].
      * rewrite decide_True by (by left). apply lookup_delete_eq.
      * rewrite decide_False by (by intros [?|?]%elem_of_cons).
        by rewrite lookup_delete_ne.
Qed.

Lemma closeAllSessionPools_effect r :
  sessionPools (closeAllSessionPools r) = ∅ /\
  exists closed,
    closeCalls (closeAllSessionPools r) = closeCalls r ++ closed /\
    NoDup closed /\
    forall k, k ∈ closed <-> is_Some (sessionPools r !! k).
Proof.
  unfold closeAllSessionPools.
  destruct (decide (size (sessionPools r) = 0%nat)) as [Hz|Hnz].
  - apply map_size_empty_inv in Hz. split; [done|]. exists [].
    rewrite app_nil_r. split; [done|]. split; [constructor|].
    intros k. rewrite Hz, lookup_empty. split; [by intros ?%elem_of_nil|by intros [? ?]].
  - assert (Hk : forall k, k ∈ (map_to_list (sessionPools r)).*1
                           <-> is_Some (sessionPools r !! k)).
    { intros k. rewrite list_elem_of_fmap. split.
      - intros ([k' p] & -> & Hin). apply elem_of_map_to_list in Hin. by eexists.
      - intros [p Hp]. exists (k, p). split; [done|]. by apply elem_of_map_to_list. }
    destruct (closeEvery_effect ((map_to_list (sessionPools r)).*1) r) as (Hc & Hl).
    { apply NoDup_fst_map_to_list. }
    { intros k. apply Hk. }
    split.
    + apply map_eq. intros k. rewrite Hl, lookup_empty.
      destruct (decide (k ∈ (map_to_list (sessionPools r)).*1)) as [|Hn]; [done|].
      destruct (sessionPools r !! k) eqn:Hp; [|done]. destruct Hn. apply Hk. by eexists.
    + eexists. split; [exact Hc|]. split; [apply NoDup_fst_map_to_list|exact Hk].
Qed.

(** A member of a duplicate-free list occurs in it exactly once. *)
Lemma NoDup_once (l : list string) k :
  NoDup l -> k ∈ l ->
  exists before after, l = before ++ k :: after /\ (k ∉ before) /\ (k ∉ after).
Proof.
  intros Hnd Hin. apply list_elem_of_split in Hin as (l1 & l2 & ->).
  exists l1, l2. split; [done|].
  apply NoDup_app in Hnd as (_ & Hdisj & Hnd2). apply NoDup_cons in Hnd2 as [Hn2 _].
  split; [|done]. intros Hl1. apply (Hdisj k Hl1). by left.
Qed.


Lemma closeSome_effect (ks : list string) r :
  NoDup ks ->
  let r' := foldl (fun acc k => closeSessionPool k acc) r ks in
  (exists closed,
     closeCalls r' = closeCalls r ++ closed /\ NoDup closed /\
     forall k, k ∈ closed <-> k ∈ ks /\ is_Some (sessionPools r !! k)) /\
  forall k, sessionPools r' !! k = if decide (k ∈ ks) then None else sessionPools r !! k.
Proof.
  revert r. induction ks as [|k0 ks IH]; intros r Hnd; cbn.
  - split.
    + exists []. rewrite app_nil_r. split; [done|]. split; [constructor|].
      intros k. split; [by intros ?%elem_of_nil|by intros [?%elem_of_nil _]].
    + intros k. rewrite decide_False; [done|apply not_elem_of_nil].
  - apply NoDup_cons in Hnd as [Hfresh Hnd].
    destruct (IH (closeSessionPool k0 r) Hnd) as ((closed & Hc & Hndc & Hmem) & Hl).
    assert (Hrest : forall k, k ∈ ks ->
              sessionPools (closeSessionPool k0 r) !! k = sessionPools r !! k).
    { intros k Hk. apply closeSessionPool_other. intros ->. done. }
    split.
    + destruct (sessionPools r !! k0) as [p|] eqn:Hp.
      * exists (k0 :: closed). rewrite Hc, (closeSessionPool_registered _ _ _ Hp). cbn.
        split; [by rewrite <- app_assoc|]. split.
        -- apply NoDup_cons. split; [|done]. intros [Hk _]%Hmem. done.
        -- intros k. rewrite !elem_of_cons, Hmem. split.
           ++ intros [->|[Hk Hs]]; [split; [by left|by eexists]|].
              split; [by right|]. by rewrite <- Hrest.
           ++ intros [[->|Hk] Hs]; [by left|]. right. split; [done|]. by rewrite Hrest.
      * exists closed. rewrite Hc, (closeSessionPool_unregistered _ _ Hp).
        split; [done|]. split; [done|]. intros k. rewrite Hmem, elem_of_cons.
        rewrite (closeSessionPool_unregistered _ _ Hp). split.
        -- intros [Hk Hs]. split; [by right|done].
        -- intros [[->|Hk] Hs]; [rewrite Hp in Hs; by destruct Hs|done].
    + intros k. rewrite Hl. destruct (decide (k ∈ ks)) as [Hin|Hnin].
      * rewrite decide_True; [done|by right].
      * destruct (decide (k = k0)) as [->|Hne].
        -- rewrite decide_True by (by left). apply closeSessionPool_removes.
        -- rewrite decide_False by (by intros [?|?]%elem_of_cons).
           by apply closeSessionPool_other.
Qed.

Lemma notify_loop_without_callback {E} (toks : list string) (t : TokenManager.State E) e :
  TokenManager.cleanupCallback t = None ->
  foldl (fun acc tok => TokenManager.notifyCleanup tok acc) (t, e) toks = (t, e).
Proof.
  intros Hcb. induction toks as [|tok toks IH]; [done|].
  cbn [foldl]. unfold TokenManager.notifyCleanup at 2. cbn. by rewrite Hcb.
Qed.

Lemma notify_loop_with_callback {E} (toks : list string) (t : TokenManager.State E) e cb :
  TokenManager.cleanupCallback t = Some cb ->
  (foldl (fun acc tok => TokenManager.notifyCleanup tok acc) (t, e) toks).2
  = foldl (fun acc tok => cb tok acc) e toks.
Proof.
  revert t e. induction toks as [|tok toks IH]; intros t e Hcb; [done|].
  cbn [foldl]. unfold TokenManager.notifyCleanup at 2. cbn. rewrite Hcb.
  by apply IH.
Qed.

(** The registry left by [shutdownHttpServer] when the cleanup callback is
    the one [startHttpServer] registers, or none. *)
Lemma shutdownHttpServer_pools outcome w :
  TokenManager.cleanupCallback (tokens w) = None \/
  TokenManager.cleanupCallback (tokens w) = Some closeSessionPool ->
  exists ks,
    NoDup ks /\
    pools (shutdownHttpServer outcome w)
    = closeAllSessionPools (foldl (fun acc k => closeSessionPool k acc) (pools w) ks).
Proof.
  intros Hcb. unfold shutdownHttpServer, TokenManager.shutdown. cbn.
  destruct Hcb as [Hcb|Hcb].
  - exists []. split; [constructor|]. by rewrite notify_loop_without_callback.
  - eexists. split; [|by rewrite (notify_loop_with_callback _ _ _ _ Hcb)].
    apply NoDup_fst_map_to_list.
Qed.

Lemma shutdown_closes_global_once outcome w p :
  TokenManager.cleanupCallback (tokens w) = None \/
  TokenManager.cleanupCallback (tokens w) = Some closeSessionPool ->
  sessionPools (pools w) !! "global" = Some p ->
  sessionPools (pools (shutdownHttpServer outcome w)) = ∅ /\
  exists before after,
    closeCalls (pools (shutdownHttpServer outcome w))
    = closeCalls (pools w) ++ before ++ "global" :: after /\
    ("global" ∉ before) /\ ("global" ∉ after).
Proof.
  intros Hcb Hg.
  destruct (shutdownHttpServer_pools outcome w Hcb) as (ks & Hnd & ->).
  destruct (closeSome_effect ks (pools w) Hnd) as ((c1 & Hc1 & Hnd1 & Hm1) & Hl1).
  set (r1 := foldl (fun acc k => closeSessionPool k acc) (pools w) ks) in *.
  destruct (closeAllSessionPools_effect r1) as (Hempty & c2 & Hc2 & Hnd2 & Hm2).
  split; [done|]. rewrite Hc2, Hc1, <- app_assoc.
  destruct (decide ("global" ∈ ks)) as [Hin|Hnin].
  - assert (H1 : "global" ∈ c1) by (apply Hm1; split; [done|by eexists]).
    assert (H2 : "global" ∉ c2).
    { intros [q Hq]%Hm2. rewrite Hl1, decide_True in Hq; done. }
    destruct (NoDup_once c1 "global" Hnd1 H1) as (b & a & -> & Hb & Ha).
    exists b, (a ++ c2). split; [by rewrite <- app_assoc|]. split; [done|].
    by intros [?|?]%elem_of_app.
  - assert (H1 : "global" ∉ c1) by (by intros [? _]%Hm1).
    assert (H2 : "global" ∈ c2).
    { apply Hm2. rewrite Hl1, decide_False by done. by eexists. }
    destruct (NoDup_once c2 "global" Hnd2 H2) as (b & a & -> & Hb & Ha).
    exists (c1 ++ b), a. split; [by rewrite <- app_assoc|]. split; [|done].
    by intros [?|?]%elem_of_app.
Qed.


Lemma initializeSession_failure httpConfig s dbConfig k w r :
  initializeSessionPool (jt400_pool s) k dbConfig (pools w) = (Ok (), r) ->
  (forall srv, createMcpServer s = Ok srv -> exists msg, connect s = Throw msg) ->
  (initializeSession httpConfig s dbConfig k w).1 = internal_error /\
  serverCloses (initializeSession httpConfig s dbConfig k w).2
  = serverCloses w ++ match createMcpServer s with Ok srv => [srv] | Throw _ => [] end /\
  closeCalls (pools (initializeSession httpConfig s dbConfig k w).2)
  = closeCalls (pools w) ++ (if decide (k = "global") then [] else [k]) /\
  (k = "global" -> pools (initializeSession httpConfig s dbConfig k w).2 = r) /\
  (k <> "global" ->
   sessionPools (pools (initializeSession httpConfig s dbConfig k w).2) !! k = None).
Proof.
  intros Hinit Hfail. unfold initializeSession. rewrite Hinit. cbv zeta.
  destruct (initializeSessionPool_ok _ _ _ _ _ Hinit) as [[p Hp] Hcalls].
  destruct (createMcpServer s) as [srv|msg] eqn:Hsrv.
  - destruct (Hfail srv eq_refl) as [msg Hconn]. rewrite Hconn.
    cbn [SessionManager.createSession fst snd].
    destruct (initializeCleanup_effect (Some srv) k
                (with_mcp (mcp (with_pools r w)) (with_pools r w)) p Hp)
      as (H1 & H2 & H3 & H4 & _).
    split; [done|]. split; [exact H1|]. split; [by rewrite H2, <- Hcalls|].
    split; [exact H3|exact H4].
  - cbn [fst snd].
    destruct (initializeCleanup_effect None k (with_pools r w) p Hp)
      as (H1 & H2 & H3 & H4 & _).
    split; [done|]. split; [exact H1|]. split; [by rewrite H2, <- Hcalls|].
    split; [exact H3|exact H4].
Qed.

Lemma cleanup_loop_env {E} (toks : list string) (t : TokenManager.State E) e :
  (foldl (fun acc tok =>
            TokenManager.notifyCleanup tok
              (TokenManager.with_sessions
                 (delete tok (TokenManager.sessions acc.1)) acc.1, acc.2))
         (t, e) toks).2
  = match TokenManager.cleanupCallback t with
    | Some cb => foldl (fun acc tok => cb tok acc) e toks
    | None => e
    end.
Proof.
  revert t e. induction toks as [|tok toks IH]; intros t e; cbn [foldl].
  - by destruct (TokenManager.cleanupCallback t).
  - unfold TokenManager.notifyCleanup at 2. cbn.
    destruct (TokenManager.cleanupCallback t) as [cb|] eqn:Hcb.
    + rewrite IH. cbn. by rewrite ?Hcb.
    + rewrite IH. cbn. by rewrite ?Hcb.
Qed.

Lemma closeSome_spares (ks : list string) r :
  "global" ∉ ks ->
  spares_global r (foldl (fun acc k => closeSessionPool k acc) r ks).
Proof.
  revert r. induction ks as [|k ks IH]; intros r Hn; [apply spares_global_refl|].
  apply not_elem_of_cons in Hn as [Hne Hn]. cbn.
  apply (spares_global_trans _ (closeSessionPool k r));
    [apply closeSessionPool_spares; by intros ->|by apply IH].
Qed.

(** The token manager's timer keeps the shared pool too, as long as no
    token is the string ["global"]. *)
Lemma expiredTokenTick_spares now w :
  TokenManager.cleanupCallback (tokens w) = None \/
  TokenManager.cleanupCallback (tokens w) = Some closeSessionPool ->
  TokenManager.sessions (tokens w) !! "global" = None ->
  spares_global (pools w) (pools (expiredTokenTick now w)).
Proof.
  intros Hcb Hg. unfold expiredTokenTick, TokenManager.cleanupExpiredSessions.
  pose proof (cleanup_loop_env (TokenManager.expiredTokens now (tokens w))
                (tokens w) (pools w)) as Henv. cbn [fst snd] in *.
  destruct (foldl _ _ _) as [t r]. cbn in Henv. subst r. cbn.
  destruct Hcb as [->| ->]; [apply spares_global_refl|].
  apply closeSome_spares. unfold TokenManager.expiredTokens.
  intros ([k s] & Hk & Hin)%list_elem_of_fmap. cbn in Hk. subst k.
  apply list_elem_of_filter in Hin as [_ Hin]. apply elem_of_map_to_list in Hin.
  congruence.
Qed.

(** C3.  On the stateful initialize path, once the pool has been ensured,
    a failure of server construction or of session creation is answered
    with an error after closing the server, if one was created, and
    closing the pool if and only if its key is not ["global"].  No request
    served by the application and no tick of the stale-session timer calls
    [close()] on a pool registered under ["global"] or replaces it.  At
    shutdown, with the cleanup callback that [startHttpServer] registers
    (or none), a pool registered under ["global"] has [close()] called on
    it exactly once and the registry is left empty. *)
Theorem global_pool_closed_only_at_shutdown :
  (forall httpConfig s dbConfig sessionKey w r,
     initializeSessionPool (jt400_pool s) sessionKey dbConfig (pools w) = (Ok (), r) ->
     (forall srv, createMcpServer s = Ok srv -> exists msg, connect s = Throw msg) ->
     (initializeSession httpConfig s dbConfig sessionKey w).1 = internal_error /\
     serverCloses (initializeSession httpConfig s dbConfig sessionKey w).2
     = serverCloses w ++ match createMcpServer s with Ok srv => [srv] | Throw _ => [] end /\
     closeCalls (pools (initializeSession httpConfig s dbConfig sessionKey w).2)
     = closeCalls (pools w) ++ (if decide (sessionKey = "global") then [] else [sessionKey]) /\
     (sessionKey = "global" ->
      pools (initializeSession httpConfig s dbConfig sessionKey w).2 = r) /\
     (sessionKey <> "global" ->
      sessionPools (pools (initializeSession httpConfig s dbConfig sessionKey w).2)
        !! sessionKey = None)) /\
  (forall httpConfig s req w,
     spares_global (pools w) (pools (serve httpConfig s req w).2)) /\
  (forall outcome w p,
     TokenManager.cleanupCallback (tokens w) = None \/
     TokenManager.cleanupCallback (tokens w) = Some closeSessionPool ->
     sessionPools (pools w) !! "global" = Some p ->
     sessionPools (pools (shutdownHttpServer outcome w)) = ∅ /\
     exists before after,
       closeCalls (pools (shutdownHttpServer outcome w))
       = closeCalls (pools w) ++ before ++ "global" :: after /\
       ("global" ∉ before) /\ ("global" ∉ after)).
Proof.
  split; [|split].
  - intros. by apply initializeSession_failure.
  - intros. apply serve_spares.
  - intros. by eapply shutdown_closes_global_once.
Qed.

(** C10.  For a [POST /auth] in required mode whose body validates and
    whose configuration loads, so that the credential probe runs, the
    registry left by the handler is the one obtained by
    [closeSessionPool(testPoolId)] after [initializeSessionPool], whatever
    the probe's outcome (connected, not connected, or the driver throwing),
    and holds no entry under [testPoolId].  [closeSessionPool] leaves no
    entry under the key it is given, also when the pool's [close()]
    rejects; a registered pool has [close()] called on it. *)
Theorem probe_pool_removed_on_every_outcome :
  (forall httpConfig s body w authReq dbConfig,
     authMode httpConfig = AuthRequired ->
     validateAuthRequest body = inr authReq ->
     loadPartialConfig s authReq = Ok dbConfig ->
     pools (authHandler httpConfig s body w).2
     = closeSessionPool (testPoolId s)
         (initializeSessionPool (jt400_pool s) (testPoolId s) dbConfig (pools w)).2 /\
     sessionPools (pools (authHandler httpConfig s body w).2) !! testPoolId s = None) /\
  (forall k r, sessionPools (closeSessionPool k r) !! k = None) /\
  (forall k r p,
     sessionPools r !! k = Some p -> close_rejects p = true ->
     sessionPools (closeSessionPool k r) = delete k (sessionPools r) /\
     closeCalls (closeSessionPool k r) = closeCalls r ++ [k]).
Proof.
  split; [|split].
  - intros httpConfig s body w authReq dbConfig Hmode Hval Hload.
    assert (Hp : pools (authHandler httpConfig s body w).2
                 = (credentialProbe s dbConfig (pools w)).2).
    { unfold authHandler. rewrite Hmode, Hval, Hload.
      destruct (credentialProbe s dbConfig (pools w)) as [[descr|[]] r]; [done|].
      cbv zeta. destruct (negb _); [done|].
      destruct (TokenManager.createSession _ _ _ _ _ _) as [[res|msg] t];
        [by destruct (TokenManager.cr_expiresAt res)|].
      by destruct (includes _ _). }
    rewrite Hp, credentialProbe_registry. split; [done|]. apply closeSessionPool_removes.
  - apply closeSessionPool_removes.
  - intros k r p Hk _. by rewrite (closeSessionPool_registered _ _ _ Hk).
Qed.


(** *** Token lifetime *)

Lemma validateAuthRequest_duration body authReq n :
  validateAuthRequest body = inr authReq ->
  duration authReq = Some n ->
  b_duration <$> body = Some (JsNumber n) /\ 1 <= n <= 86400.
Proof.
  intros H Hd. unfold validateAuthRequest in H.
  destruct body as [req|]; [|done].
  destruct (b_username req); try done. destruct (decide _); [done|].
  destruct (b_password req); try done. destruct (decide _); [done|].
  cbv zeta in H. cbn [fmap option_fmap option_map].
  destruct (b_duration req) as [| |b|m|str|] eqn:Hdur;
    repeat match type of H with
           | (if ?b then _ else _) = _ => destruct b eqn:?; [done|]
           end;
    cbn in H; simplify_eq/=.
  split; [done|]. lia.
Qed.

Lemma authHandler_expiry httpConfig s body w w' tok e x :
  authHandler httpConfig s body w = (AuthResponse tok e x, w') ->
  exists authReq,
    validateAuthRequest body = inr authReq /\
    e = default (tokenExpiry httpConfig) (duration authReq) /\
    x = now s + e * 1000.
Proof.
  unfold authHandler. destruct (authMode httpConfig); try done.
  destruct (validateAuthRequest body) as [err|authReq]; [done|].
  destruct (loadPartialConfig s authReq) as [dbConfig|msg]; [|done].
  destruct (credentialProbe s dbConfig (pools w)) as [[descr|[]] r]; [done|].
  cbv zeta. destruct (negb _); [done|].
  unfold TokenManager.createSession.
  destruct (_ >=? _); cbn; [done|]. unfold newDate.
  destruct (Z.abs _ <=? maxTimeValue); [|done].
  intros [= <- <- <- _]. by exists authReq.
Qed.


Lemma validateAuthRequest_body body authReq :
  validateAuthRequest body = inr authReq ->
  exists req, body = Some req /\ duration authReq = as_number (b_duration req).
Proof.
  intros H. unfold validateAuthRequest in H.
  destruct body as [req|]; [|done]. exists req. split; [done|].
  destruct (b_username req); try done. destruct (decide _); [done|].
  destruct (b_password req); try done. destruct (decide _); [done|].
  cbv zeta in H.
  repeat match type of H with
         | (if ?b then _ else _) = _ => destruct b eqn:?; [done|]
         end.
  by injection H as <-.
Qed.

(** C4, as the code has it.  [createSession] applies neither a cap nor a
    floor: an admitted call returns and stores
    [expiresAt = new Date(now + (durationSeconds ?? tokenExpiry) * 1000)],
    which is that instant when it lies within 8.64e15 ms of the epoch and
    an Invalid Date otherwise.  The bounds are those of
    [validateAuthRequest], which rejects a [duration] outside [1, 86400]
    instead of clamping it; hence for every token issued by [POST /auth]
    (a 201 answer) on a request that provides a duration [n],
    [expires_in = n], [1 <= n <= 86400] and
    [expiresAt = now + min(n, 86400)] seconds. *)
Theorem createSession_expiry_unclamped :
  (forall E httpConfig fresh cfg d now (st st' : TokenManager.State E) res,
     TokenManager.createSession httpConfig fresh cfg d now st = (Ok res, st') ->
     TokenManager.cr_expiresIn res = default (tokenExpiry httpConfig) d /\
     (Z.abs (now + TokenManager.cr_expiresIn res * 1000) <= maxTimeValue ->
      TokenManager.cr_expiresAt res
      = Some (now + TokenManager.cr_expiresIn res * 1000)) /\
     (Z.abs (now + TokenManager.cr_expiresIn res * 1000) > maxTimeValue ->
      TokenManager.cr_expiresAt res = None) /\
     TokenManager.expiresAt <$> TokenManager.sessions st' !! fresh
     = Some (TokenManager.cr_expiresAt res)) /\
  (forall body authReq n,
     validateAuthRequest body = inr authReq -> duration authReq = Some n ->
     1 <= n <= 86400) /\
  (forall httpConfig s body w w' tok e x n,
     authHandler httpConfig s body w = (AuthResponse tok e x, w') ->
     b_duration <$> body = Some (JsNumber n) ->
     e = n /\ 1 <= n <= 86400 /\ x = now s + Z.min n 86400 * 1000).
Proof.
  split; [|split].
  - intros E httpConfig fresh cfg d now st st' res. unfold TokenManager.createSession.
    destruct (_ >=? _); [done|]. intros [= <- <-]. cbn.
    rewrite lookup_insert_eq. unfold newDate.
    destruct (Z.leb_spec (Z.abs (now + default (tokenExpiry httpConfig) d * 1000))
                maxTimeValue); repeat split; try done; lia.
  - intros body authReq n Hv Hd. by destruct (validateAuthRequest_duration _ _ _ Hv Hd).
  - intros httpConfig s body w w' tok e x n Hh Hb.
    destruct (authHandler_expiry _ _ _ _ _ _ _ _ Hh) as (authReq & Hv & -> & ->).
    destruct (validateAuthRequest_body _ _ Hv) as (req & -> & Hd).
    cbn in Hb. injection Hb as Hb. rewrite Hb in Hd. cbn in Hd.
    destruct (validateAuthRequest_duration _ _ _ Hv Hd) as [_ Hn].
    rewrite Hd. cbn. split; [done|]. split; [done|]. by rewrite Z.min_l by lia.
Qed.

Lemma createSession_expiry_unclamped_witness :
  TokenManager.cr_expiresAt
    {| TokenManager.cr_token := "t"; TokenManager.cr_expiresAt := Some 100000000;
       TokenManager.cr_expiresIn := 100000 |}
  = Some (0 + 100000 * 1000) /\
  (TokenManager.createSession two_sessions "t" sample_config (Some 10000000000000) 0
     (@TokenManager.init unit)).1
  = Ok {| TokenManager.cr_token := "t"; TokenManager.cr_expiresAt := None;
          TokenManager.cr_expiresIn := 10000000000000 |}.
Proof.
  split.
  - destruct (proj1 createSession_expiry_unclamped unit two_sessions "t" sample_config
                (Some 100000) 0 TokenManager.init _ _ eq_refl) as (_ & H & _).
    apply H. vm_compute. discriminate.
  - vm_compute. reflexivity.
Defined.

(** C4, as stated, fails: a duration above the cap is not reduced to 86400
    seconds, and a duration of zero is not raised to one second. *)
Lemma createSession_applies_no_clamp :
  ~ (forall httpConfig fresh cfg d now (st st' : TokenManager.State unit) res,
       TokenManager.createSession httpConfig fresh cfg d now st = (Ok res, st') ->
       TokenManager.cr_expiresAt res
       = Some (now + Z.min (default (tokenExpiry httpConfig) d) 86400 * 1000)) /\
  ~ (forall httpConfig fresh cfg d now (st st' : TokenManager.State unit) res,
       TokenManager.createSession httpConfig fresh cfg d now st = (Ok res, st') ->
       exists expires_at,
         TokenManager.cr_expiresAt res = Some expires_at /\
         1000 <= expires_at - now).
Proof.
  split; intros H.
  - specialize (H two_sessions "t" sample_config (Some 100000) 0
                  TokenManager.init _ _ eq_refl). vm_compute in H. discriminate H.
  - specialize (H two_sessions "t" sample_config (Some 0) 0
                  TokenManager.init _ _ eq_refl) as (x & Hx & Hle).
    vm_compute in Hx. injection Hx as <-. lia.
Qed.

(** *** Expiry noticed by [validateToken] *)

Lemma validateToken_never_notifies {E} tok now (st : TokenManager.State E) :
  TokenManager.invoked (TokenManager.validateToken tok now st).2 = TokenManager.invoked st.
Proof.
  unfold TokenManager.validateToken. destruct (decide (tok = "")); [done|].
  destruct (TokenManager.sessions st !! tok) as [s|]; [|done].
  by destruct (later_than now (TokenManager.expiresAt s)).
Qed.

(** C1 at a failing input.  A token issued for one second and used once,
    so that its pool is open, is presented again after it has expired:
    [validateToken] answers "Token expired" and deletes the entry, but the
    cleanup callback is not invoked, neither then nor by the next tick of
    the expiry timer nor by the manager's shutdown, and the token's pool
    stays registered.  When the same token expires under the timer, the
    callback is invoked and the pool is closed. *)
Theorem expired_token_on_request_skips_cleanup :
  expired_on_request.1 = ErrorResponse 401 "invalid_token" "Token expired" /\
  TokenManager.sessions (tokens expired_on_request.2) !! "tok-1" = None /\
  TokenManager.invoked (tokens expired_on_request_then_tick) = [] /\
  closeCalls (pools expired_on_request_then_tick) = ["auth-test-00ff"] /\
  is_Some (sessionPools (pools expired_on_request_then_tick) !! "tok-1") /\
  TokenManager.invoked (tokens expired_on_tick) = ["tok-1"] /\
  closeCalls (pools expired_on_tick) = ["auth-test-00ff"; "tok-1"] /\
  sessionPools (pools expired_on_tick) !! "tok-1" = None.
Proof.
  repeat split; try (vm_compute; reflexivity). vm_compute. by eexists.
Qed.

Lemma global_pool_closed_only_at_shutdown_witness :
  closeCalls (pools (initializeSession weak_stateful (connect_fails 10) sample_config
                       "global" shared_pool_in_use).2)
  = closeCalls (pools shared_pool_in_use) ++ [] /\
  serverCloses (initializeSession weak_stateful (connect_fails 10) sample_config
                  "global" shared_pool_in_use).2
  = serverCloses shared_pool_in_use ++ [7%nat].
Proof.
  destruct (proj1 global_pool_closed_only_at_shutdown weak_stateful (connect_fails 10)
              sample_config "global" shared_pool_in_use _ eq_refl
              (fun _ _ => ex_intro _ "connect failed" eq_refl))
    as (_ & Hs & Hc & _).
  split; [exact Hc|exact Hs].
Defined.

Lemma probe_pool_removed_on_every_outcome_witness :
  sessionPools (pools (authHandler required_stateless (bad_credentials 0)
                         one_second_login Http.boot).2)
    !! testPoolId (bad_credentials 0) = None.
Proof.
  destruct (proj1 probe_pool_removed_on_every_outcome required_stateless
              (bad_credentials 0) one_second_login Http.boot
              _ sample_config eq_refl eq_refl eq_refl) as [_ H].
  exact H.
Defined.

Example bad_credentials_answer :
  (authHandler required_stateless (bad_credentials 0) one_second_login Http.boot).1
  = ErrorResponse 401 "invalid_credentials"
      "Authentication failed: unable to connect to database" /\
  closeCalls (pools (authHandler required_stateless (bad_credentials 0)
                       one_second_login Http.boot).2) = ["auth-test-00ff"].
Proof. vm_compute. done. Qed.

Example shared_pool_survives_failed_initialize :
  sessionPools (pools (serve weak_stateful (connect_fails 10) (PostMcp None None true)
                         shared_pool_in_use).2) !! "global"
  = sessionPools (pools shared_pool_in_use) !! "global" /\
  is_Some (sessionPools (pools shared_pool_in_use) !! "global").
Proof. vm_compute. split; [done|by eexists]. Qed.

End HttpClaims.

(** * More of the rate limiter ([src/utils/rateLimiter.ts]) *)

Module RateLimiterExtras.
Import RateLimiter Scenario.

(** One check against a stored window that has not run out. *)
Lemma checkLimit_live config key now (windows : Windows) c t0 :
  enabled config = true ->
  windows !! key = Some {| count := c; windowStart := t0 |} ->
  now < t0 + windowMs config ->
  checkLimit config key now windows
  = if decide (c < maxRequests config) then
      ({| allowed := true; remaining := maxRequests config - (c + 1);
          resetTime := t0 + windowMs config;
          retryAfterSeconds := ceil_div (t0 + windowMs config - now) 1000;
          limit := maxRequests config; r_windowMs := windowMs config |},
       <[key := {| count := c + 1; windowStart := t0 |}]> windows)
    else
      ({| allowed := false; remaining := 0;
          resetTime := t0 + windowMs config;
          retryAfterSeconds := ceil_div (t0 + windowMs config - now) 1000;
          limit := maxRequests config; r_windowMs := windowMs config |}, windows).
Proof.
  intros Hen Hk Hlive. unfold checkLimit. rewrite Hen, Hk. cbn.
  destruct (Z.geb_spec now (t0 + windowMs config)); [lia|]. cbn.
  destruct (Z.geb_spec c (maxRequests config)), (decide (c < maxRequests config));
    try lia; done.
Qed.

(** One check when no window is stored or the stored one has run out. *)
Lemma checkLimit_fresh config key now (windows : Windows) :
  enabled config = true ->
  (forall w, windows !! key = Some w -> now >= windowStart w + windowMs config) ->
  checkLimit config key now windows
  = if decide (0 < maxRequests config) then
      ({| allowed := true; remaining := maxRequests config - 1;
          resetTime := now + windowMs config;
          retryAfterSeconds := ceil_div (now + windowMs config - now) 1000;
          limit := maxRequests config; r_windowMs := windowMs config |},
       <[key := {| count := 1; windowStart := now |}]> windows)
    else
      ({| allowed := false; remaining := 0;
          resetTime := now + windowMs config;
          retryAfterSeconds := ceil_div (now + windowMs config - now) 1000;
          limit := maxRequests config; r_windowMs := windowMs config |},
       <[key := {| count := 0; windowStart := now |}]> windows).
Proof.
  intros Hen Hold. unfold checkLimit. rewrite Hen. cbn [negb].
  assert (Hw : match windows !! key with
               | Some w =>
                   if now >=? windowStart w + windowMs config
                   then ({| count := 0; windowStart := now |},
                         <[key := {| count := 0; windowStart := now |}]> windows)
                   else (w, windows)
               | None => ({| count := 0; windowStart := now |},
                          <[key := {| count := 0; windowStart := now |}]> windows)
               end
               = ({| count := 0; windowStart := now |},
                  <[key := {| count := 0; windowStart := now |}]> windows)).
  { destruct (windows !! key) as [w|] eqn:Hk; [|done].
    specialize (Hold w eq_refl).
    destruct (Z.geb_spec now (windowStart w + windowMs config)); [done|lia]. }
  rewrite Hw. cbn.
  destruct (Z.geb_spec 0 (maxRequests config)), (decide (0 < maxRequests config));
    try lia; [done|]. by rewrite insert_insert_eq.
Qed.

Lemma checkEach_live config key (times : list Z) (windows : Windows) c t0 :
  enabled config = true ->
  windows !! key = Some {| count := c; windowStart := t0 |} ->
  Forall (fun t => t < t0 + windowMs config) times ->
  forall (i : nat) r,
    checkEach config key times windows !! i = Some r ->
    allowed r = bool_decide (c + Z.of_nat i < maxRequests config) /\
    remaining r = (if allowed r then maxRequests config - (c + Z.of_nat i) - 1 else 0) /\
    resetTime r = t0 + windowMs config.
Proof.
  intros Hen. revert windows c.
  induction times as [|t times IH]; intros windows c Hk Hall i r Hi; [done|].
  apply Forall_cons in Hall as [Ht Hall]. cbn [checkEach] in Hi.
  rewrite (checkLimit_live _ _ _ _ _ _ Hen Hk Ht) in Hi.
  destruct (decide (c < maxRequests config)) as [Hc|Hc]; cbn [fst snd] in Hi.
  - destruct i as [|i]; cbn in Hi.
    + injection Hi as <-. cbn. rewrite bool_decide_eq_true_2 by lia.
      split; [done|]. split; [lia|done].
    + destruct (IH _ (c + 1) (lookup_insert_eq _ _ _) Hall i r Hi) as (Ha & Hr & Hs).
      replace (c + 1 + Z.of_nat i) with (c + Z.of_nat (S i)) in * by lia.
      done.
  - destruct i as [|i]; cbn in Hi.
    + injection Hi as <-. cbn. rewrite bool_decide_eq_false_2 by lia. done.
    + destruct (IH _ c Hk Hall i r Hi) as (Ha & Hr & Hs).
      rewrite Hs. split; [|split; [|done]].
      * rewrite Ha. rewrite !bool_decide_eq_false_2 by lia. done.
      * rewrite Hr, Ha. rewrite bool_decide_eq_false_2 by lia. done.
Qed.

(** X1.  A window's quota.  With the limiter enabled and, for the key, no
    stored window or one that has run out at [t0], the check at [t0] opens
    a window; of the checks made from [t0] to before [t0 + windowMs],
    numbered from 0, the [i]-th is allowed exactly when [i < maxRequests];
    it reports [maxRequests - i - 1] requests remaining when allowed and 0
    when refused, and every one reports the reset instant
    [t0 + windowMs]. *)
Theorem window_quota config key t0 (times : list Z) (windows : Windows) :
  enabled config = true ->
  (forall w, windows !! key = Some w -> t0 >= windowStart w + windowMs config) ->
  Forall (fun t => t < t0 + windowMs config) times ->
  forall (i : nat) r,
    checkEach config key (t0 :: times) windows !! i = Some r ->
    allowed r = bool_decide (Z.of_nat i < maxRequests config) /\
    remaining r = (if allowed r then maxRequests config - Z.of_nat i - 1 else 0) /\
    resetTime r = t0 + windowMs config.
Proof.
  intros Hen Hold Hall i r Hi. cbn [checkEach] in Hi.
  rewrite (checkLimit_fresh _ _ _ _ Hen Hold) in Hi.
  destruct (decide (0 < maxRequests config)) as [Hc|Hc]; cbn [fst snd] in Hi.
  - destruct i as [|i]; cbn in Hi.
    + injection Hi as <-. cbn. rewrite bool_decide_eq_true_2 by lia.
      split; [done|]. split; [lia|done].
    + destruct (checkEach_live config key times _ 1 t0 Hen (lookup_insert_eq _ _ _)
                  Hall i r Hi) as (Ha & Hr & Hs).
      replace (1 + Z.of_nat i) with (Z.of_nat (S i)) in * by lia.
      rewrite Hs, Hr. split; [done|]. split; [|done]. destruct (allowed r); lia.
  - destruct i as [|i]; cbn in Hi.
    + injection Hi as <-. cbn. rewrite bool_decide_eq_false_2 by lia. done.
    + destruct (checkEach_live config key times _ 0 t0 Hen (lookup_insert_eq _ _ _)
                  Hall i r Hi) as (Ha & Hr & Hs).
      rewrite Hs. rewrite Hr, Ha. rewrite !bool_decide_eq_false_2 by lia. done.
Qed.


(** The verdict of a check depends on the stored window of its key only. *)
Lemma checkLimit_result_local config key now (ws ws' : Windows) :
  ws !! key = ws' !! key ->
  (checkLimit config key now ws).1 = (checkLimit config key now ws').1.
Proof.
  intros Hk. unfold checkLimit. destruct (negb (enabled config)); [done|].
  rewrite <- Hk. destruct (ws !! key) as [w|].
  - destruct (now >=? windowStart w + windowMs config);
      cbn; by destruct (_ >=? _).
  - cbn; by destruct (_ >=? _).
Qed.

Lemma checkLimit_keeps_others config key now (ws : Windows) k :
  k <> key -> (checkLimit config key now ws).2 !! k = ws !! k.
Proof.
  intros Hne. unfold checkLimit. destruct (negb (enabled config)); [done|].
  destruct (ws !! key) as [w|].
  - destruct (now >=? windowStart w + windowMs config); cbn;
      destruct (_ >=? _); cbn; by rewrite ?lookup_insert_ne.
  - cbn; destruct (_ >=? _); cbn; by rewrite ?lookup_insert_ne.
Qed.

Lemma checkLimit_stored config key now (ws : Windows) :
  enabled config = true ->
  let w := current_window config key now ws in
  (checkLimit config key now ws).2 !! key
  = Some (if decide (count w < maxRequests config)
          then {| count := count w + 1; windowStart := windowStart w |} else w).
Proof.
  intros Hen. rewrite (RateLimiterClaims.checkLimit_refines_check_spec _ _ _ _ Hen).
  unfold check_spec. cbv zeta.
  destruct (decide (count (current_window config key now ws) < maxRequests config));
    cbn; by rewrite lookup_insert_eq.
Qed.

Lemma checkLimit_keeps_bound config key now (ws : Windows) :
  0 <= maxRequests config ->
  (forall k w, ws !! k = Some w -> 0 <= count w <= maxRequests config) ->
  forall k w, (checkLimit config key now ws).2 !! k = Some w ->
              0 <= count w <= maxRequests config.
Proof.
  intros Hmax Hinv k w. destruct (enabled config) eqn:Hen.
  - destruct (decide (k = key)) as [->|Hne].
    + rewrite (checkLimit_stored _ _ _ _ Hen). cbv zeta.
      assert (Hcur : 0 <= count (current_window config key now ws) <= maxRequests config).
      { unfold current_window. destruct (ws !! key) as [w0|] eqn:Hk; [|cbn; lia].
        destruct (decide _); [cbn; lia|by eapply Hinv]. }
      destruct (decide _); intros [= <-]; cbn; lia.
    + rewrite checkLimit_keeps_others by done. apply Hinv.
  - unfold checkLimit. rewrite Hen. cbn. apply Hinv.
Qed.

Lemma replay_from_keeps_bound config (history : list (string * Z)) (ws : Windows) :
  0 <= maxRequests config ->
  (forall k w, ws !! k = Some w -> 0 <= count w <= maxRequests config) ->
  forall k w,
    foldl (fun ws '(k, t) => snd (checkLimit config k t ws)) ws history !! k = Some w ->
    0 <= count w <= maxRequests config.
Proof.
  intros Hmax. revert ws. induction history as [|[k0 t0] history IH]; intros ws Hinv; [done|].
  cbn [foldl]. apply IH. by apply checkLimit_keeps_bound.
Qed.

(** X2.  Whatever the history of checks made on a fresh limiter, every
    stored window has counted between 0 and [maxRequests] requests, for a
    [maxRequests] that is not negative. *)
Theorem count_within_limit config (history : list (string * Z)) key w :
  0 <= maxRequests config ->
  replay config history !! key = Some w ->
  0 <= count w <= maxRequests config.
Proof.
  intros Hmax. unfold replay. apply replay_from_keeps_bound; [done|].
  intros k w0. by rewrite lookup_empty.
Qed.

(** X3.  [getStatus] predicts [checkLimit].  With the limiter enabled and
    a positive [maxRequests], the status of a key at an instant is allowed
    exactly when a check of the key at that instant is, and the status
    reports one request more remaining than an allowed check (which has
    counted itself), and the same, zero, as a refused one. *)
Theorem getStatus_predicts_checkLimit config key now (ws : Windows) :
  enabled config = true ->
  0 < maxRequests config ->
  allowed (getStatus config key now ws) = allowed (checkLimit config key now ws).1 /\
  remaining (getStatus config key now ws)
  = remaining (checkLimit config key now ws).1
    + (if allowed (checkLimit config key now ws).1 then 1 else 0).
Proof.
  intros Hen Hmax. unfold getStatus, checkLimit. rewrite Hen. cbn [negb].
  destruct (ws !! key) as [w|].
  - destruct (Z.geb_spec now (windowStart w + windowMs config)); cbn.
    + destruct (Z.geb_spec 0 (maxRequests config)); [lia|]. cbn. split; [done|lia].
    + destruct (Z.geb_spec (count w) (maxRequests config)); cbn.
      * rewrite Z.max_l by lia. done.
      * rewrite Z.max_r by lia. split; [|lia].
        destruct (Z.gtb_spec (maxRequests config - count w) 0); [done|lia].
  - cbn. destruct (Z.geb_spec 0 (maxRequests config)); [lia|]. cbn. split; [done|lia].
Qed.

Lemma cleanup_lookup config now (ws : Windows) k :
  cleanup config now ws !! k
  = match ws !! k with
    | Some w => if decide (now >= windowStart w + windowMs config) then None else Some w
    | None => None
    end.
Proof.
  unfold cleanup. destruct (ws !! k) as [w|] eqn:Hk.
  - destruct (decide (now >= windowStart w + windowMs config)) as [He|He].
    + apply map_lookup_filter_None. right. intros w' Hw'. simplify_eq. cbn. tauto.
    + apply map_lookup_filter_Some. done.
  - apply map_lookup_filter_None. by left.
Qed.

(** X4.  The timer's [cleanup] cannot be observed: after a cleanup at
    [now], the verdict of a check and the status of any key at [now] or
    later are what they are without the cleanup. *)
Theorem cleanup_is_not_observed config key now now' (ws : Windows) :
  now <= now' ->
  (checkLimit config key now' (cleanup config now ws)).1
  = (checkLimit config key now' ws).1 /\
  getStatus config key now' (cleanup config now ws) = getStatus config key now' ws.
Proof.
  intros Hle.
  pose proof (cleanup_lookup config now ws key) as Hc.
  destruct (ws !! key) as [w|] eqn:Hk.
  - destruct (decide (now >= windowStart w + windowMs config)) as [He|He].
    + unfold checkLimit, getStatus. rewrite Hc, Hk.
      destruct (negb (enabled config)); [done|].
      destruct (Z.geb_spec now' (windowStart w + windowMs config)); [|lia].
      cbn. by destruct (_ >=? _).
    + split.
      * apply checkLimit_result_local. by rewrite Hc, Hk.
      * unfold getStatus. by rewrite Hc, Hk.
  - split.
    + apply checkLimit_result_local. by rewrite Hc, Hk.
    + unfold getStatus. by rewrite Hc, Hk.
Qed.

(** X5.  A refusal tells when to retry.  With the limiter enabled and a
    positive [maxRequests], a refused check reports a wait of at least one
    second, and a check of the same key made that many seconds later, or
    any time after that, is allowed. *)
Theorem refusal_tells_when_to_retry config key now (ws : Windows) :
  enabled config = true ->
  0 < maxRequests config ->
  allowed (checkLimit config key now ws).1 = false ->
  1 <= retryAfterSeconds (checkLimit config key now ws).1 /\
  forall now',
    now + retryAfterSeconds (checkLimit config key now ws).1 * 1000 <= now' ->
    allowed (checkLimit config key now' (checkLimit config key now ws).2).1 = true.
Proof.
  intros Hen Hmax.
  pose proof (checkLimit_stored config key now ws Hen) as Hst. cbv zeta in Hst.
  rewrite (RateLimiterClaims.checkLimit_refines_check_spec _ _ _ _ Hen) in *.
  unfold check_spec in *. cbv zeta in *.
  set (w := current_window config key now ws) in *.
  destruct (decide (count w < maxRequests config)) as [Hc|Hc]; [done|]. cbn. intros _.
  assert (Hlive : now < windowStart w + windowMs config).
  { unfold w, current_window in *. destruct (ws !! key) as [w0|]; [|cbn in Hc; lia].
    destruct (decide _); [cbn in Hc; lia|lia]. }
  pose proof (ceil_div_spec (windowStart w + windowMs config - now) 1000 ltac:(lia)) as Hceil.
  split; [lia|]. intros now' Hnow'.
  rewrite (checkLimit_fresh config key now' _ Hen).
  - rewrite decide_True by done. done.
  - intros w' Hw'. cbn in Hst. rewrite Hst in Hw'. injection Hw' as <-. lia.
Qed.

Lemma window_quota_witness :
  exists r,
    checkEach three_per_minute "default" [0; 10; 20; 30] ∅ !! 3%nat = Some r /\
    allowed r = false /\ remaining r = 0 /\ resetTime r = 60000.
Proof.
  exists {| allowed := false; remaining := 0; resetTime := 60000;
            retryAfterSeconds := 60; limit := 3; r_windowMs := 60000 |}.
  split; [vm_compute; reflexivity|].
  assert (Hold : forall w, (∅ : Windows) !! "default" = Some w ->
                   0 >= windowStart w + windowMs three_per_minute).
  { intros w Hw. rewrite lookup_empty in Hw. discriminate Hw. }
  assert (Hall : Forall (fun t => t < 0 + windowMs three_per_minute) [10; 20; 30]).
  { repeat constructor; cbn; lia. }
  exact (window_quota three_per_minute "default" 0 [10; 20; 30] ∅ eq_refl Hold Hall
           3%nat _ eq_refl).
Defined.

Lemma count_within_limit_witness :
  replay three_per_minute [("a", 0); ("a", 1); ("a", 2); ("a", 3); ("b", 5)] !! "a"
  = Some {| count := 3; windowStart := 0 |} /\
  0 <= 3 <= maxRequests three_per_minute.
Proof.
  split; [vm_compute; reflexivity|].
  apply (count_within_limit three_per_minute
           [("a", 0); ("a", 1); ("a", 2); ("a", 3); ("b", 5)] "a"
           {| count := 3; windowStart := 0 |});
    [cbn; lia|vm_compute; reflexivity].
Defined.

Lemma getStatus_predicts_checkLimit_witness :
  allowed (getStatus three_per_minute "k" 10 (replay three_per_minute [("k", 0)]))
  = allowed (checkLimit three_per_minute "k" 10 (replay three_per_minute [("k", 0)])).1 /\
  remaining (getStatus three_per_minute "k" 10 (replay three_per_minute [("k", 0)]))
  = remaining (checkLimit three_per_minute "k" 10 (replay three_per_minute [("k", 0)])).1
    + (if allowed (checkLimit three_per_minute "k" 10
                     (replay three_per_minute [("k", 0)])).1 then 1 else 0).
Proof.
  apply (getStatus_predicts_checkLimit three_per_minute "k" 10
           (replay three_per_minute [("k", 0)]) eq_refl).
  cbn; lia.
Defined.

Lemma cleanup_is_not_observed_witness :
  (checkLimit three_per_minute "k" 70001
     (cleanup three_per_minute 70000 (replay three_per_minute [("k", 0)]))).1
  = (checkLimit three_per_minute "k" 70001 (replay three_per_minute [("k", 0)])).1 /\
  getStatus three_per_minute "k" 70001
    (cleanup three_per_minute 70000 (replay three_per_minute [("k", 0)]))
  = getStatus three_per_minute "k" 70001 (replay three_per_minute [("k", 0)]).
Proof.
  apply (cleanup_is_not_observed three_per_minute "k" 70000 70001). lia.
Defined.

Lemma refusal_tells_when_to_retry_witness :
  1 <= retryAfterSeconds
         (checkLimit three_per_minute "k" 3
            (replay three_per_minute [("k", 0); ("k", 1); ("k", 2)])).1 /\
  forall now',
    3 + retryAfterSeconds
          (checkLimit three_per_minute "k" 3
             (replay three_per_minute [("k", 0); ("k", 1); ("k", 2)])).1 * 1000 <= now' ->
    allowed (checkLimit three_per_minute "k" now'
               (checkLimit three_per_minute "k" 3
                  (replay three_per_minute [("k", 0); ("k", 1); ("k", 2)])).2).1 = true.
Proof.
  apply (refusal_tells_when_to_retry three_per_minute "k" 3
           (replay three_per_minute [("k", 0); ("k", 1); ("k", 2)]) eq_refl);
    [cbn; lia|vm_compute; reflexivity].
Defined.

End RateLimiterExtras.

(** * The tool wrapper ([src/server.ts]) *)

Module ServerExtras.
Import RateLimiter Server Scenario.

Lemma callTools_live config (calls : list (Z * (result ToolResult * string)))
    (st : State) c t0 :
  enabled config = true ->
  windows st !! "default" = Some {| count := c; windowStart := t0 |} ->
  Forall (fun call => call.1 < t0 + windowMs config) calls ->
  handled (callTools config calls st)
  = (handled st
     + Z.to_nat (Z.min (Z.of_nat (length calls)) (Z.max 0 (maxRequests config - c))))%nat.
Proof.
  intros Hen. unfold callTools. revert st c.
  induction calls as [|[t [h msg]] calls IH]; intros st c Hk Hall.
  - cbn. lia.
  - apply Forall_cons in Hall as [Ht Hall]. cbn [foldl fst snd length].
    unfold withToolHandler at 2. cbn in Ht.
    rewrite (RateLimiterExtras.checkLimit_live _ _ _ _ _ _ Hen Hk Ht).
    destruct (decide (c < maxRequests config)) as [Hc|Hc]; cbn [allowed negb].
    + assert (Hstep : forall st1,
                windows st1 = <[ "default" := {| count := c + 1; windowStart := t0 |}]>
                                (windows st) ->
                handled st1 = S (handled st) ->
                handled (foldl (fun acc call =>
                           (withToolHandler config call.2.1 call.2.2 call.1 acc).2)
                         st1 calls)
                = (handled st
                   + Z.to_nat (Z.min (Z.of_nat (S (length calls)))
                                 (Z.max 0 (maxRequests config - c))))%nat).
      { intros st1 Hw Hh. rewrite (IH st1 (c + 1)); [|by rewrite Hw, lookup_insert_eq|done].
        rewrite Hh. lia. }
      destruct h as [res|e]; cbn [negb snd fst];
        [destruct (success res); cbn [negb snd]|]; by apply Hstep.
    + rewrite (IH _ c); [cbn; lia|done|done].
Qed.

(** X6.  The limit holds at the tool boundary.  With the limiter enabled
    and the window of the key [default] absent or run out at [t0], of the
    tool calls made through [withToolHandler] from [t0] to before
    [t0 + windowMs] the wrapped handlers are invoked
    [min (number of calls) maxRequests] times, whatever the handlers
    return or throw. *)
Theorem tool_calls_within_quota config t0 h0
    (calls : list (Z * (result ToolResult * string))) (st : State) :
  enabled config = true ->
  (forall w, windows st !! "default" = Some w -> t0 >= windowStart w + windowMs config) ->
  Forall (fun call => call.1 < t0 + windowMs config) calls ->
  handled (callTools config ((t0, h0) :: calls) st)
  = (handled st
     + Z.to_nat (Z.min (Z.of_nat (S (length calls))) (maxRequests config)))%nat.
Proof.
  intros Hen Hold Hall. unfold callTools. cbn [foldl fst snd].
  fold (callTools config calls (withToolHandler config h0.1 h0.2 t0 st).2).
  unfold withToolHandler.
  rewrite (RateLimiterExtras.checkLimit_fresh _ _ _ _ Hen Hold).
  destruct (decide (0 < maxRequests config)) as [Hc|Hc]; cbn [allowed negb].
  - assert (Hstep : forall st1,
              windows st1 = <[ "default" := {| count := 1; windowStart := t0 |}]>
                              (windows st) ->
              handled st1 = S (handled st) ->
              handled (callTools config calls st1)
              = (handled st
                 + Z.to_nat (Z.min (Z.of_nat (S (length calls)))
                               (maxRequests config)))%nat).
    { intros st1 Hw Hh. rewrite (callTools_live config calls st1 1 t0 Hen);
        [|by rewrite Hw, lookup_insert_eq|done].
      rewrite Hh. lia. }
    destruct h0 as [[res|e] msg]; cbn [negb snd fst];
      [destruct (success res); cbn [negb snd]|]; by apply Hstep.
  - cbn [snd]. rewrite (callTools_live config calls _ 0 t0 Hen);
      [cbn; lia|by cbn; rewrite lookup_insert_eq|done].
Qed.

Lemma tool_calls_within_quota_witness :
  handled (callTools three_per_minute
             [(0, rows_found); (1, rows_found); (2, rows_found); (3, rows_found);
              (4, rows_found)]
             {| windows := ∅; handled := 0 |})
  = (0 + Z.to_nat (Z.min (Z.of_nat 5) (maxRequests three_per_minute)))%nat.
Proof.
  apply (tool_calls_within_quota three_per_minute 0 rows_found
           [(1, rows_found); (2, rows_found); (3, rows_found); (4, rows_found)]
           {| windows := ∅; handled := 0 |} eq_refl).
  - intros w Hw. cbn in Hw. rewrite lookup_empty in Hw. discriminate Hw.
  - repeat constructor; cbn; lia.
Defined.

End ServerExtras.

(** * More of the token manager ([src/auth/tokenManager.ts]) *)

Module TokenManagerExtras.
Import TokenManager Scenario.

Section Generic.
Context {E : Type}.
Implicit Types (st : State E) (w : State E * E).

Lemma later_than_spec now (d : TimeValue) :
  later_than now d = true <-> exists t, d = Some t /\ now > t.
Proof.
  destruct d as [t|]; cbn.
  - destruct (Z.gtb_spec now t); split; try done.
    + intros _. exists t. split; [done|lia].
    + intros (? & [= <-] & ?). lia.
  - split; [done|]. by intros (? & ? & _).
Qed.

Lemma stats_loop now (l : list (string * TokenSession)) a e :
  foldl (fun acc kv =>
           if not_later_than now (expiresAt kv.2)
           then (acc.1 + 1, acc.2) else (acc.1, acc.2 + 1))
        (a, e) l
  = (a + Z.of_nat (length l)
       - Z.of_nat (length (filter (fun kv => later_than now (expiresAt kv.2) = true) l))
       - Z.of_nat (length (filter (fun kv => expiresAt kv.2 = None) l)),
     e + Z.of_nat (length (filter (fun kv => later_than now (expiresAt kv.2) = true) l))
       + Z.of_nat (length (filter (fun kv => expiresAt kv.2 = None) l))).
Proof.
  revert a e. induction l as [|kv l IH]; intros a e; cbn [foldl].
  - cbn. f_equal; lia.
  - destruct (expiresAt kv.2) as [t|] eqn:Hd; cbn [not_later_than].
    + rewrite (filter_cons_False (fun kv => expiresAt kv.2 = None))
        by (by rewrite Hd).
      destruct (Z.leb_spec now t) as [Hle|Hgt]; rewrite IH; cbn [fst snd].
      * rewrite (filter_cons_False (fun kv => later_than now (expiresAt kv.2) = true)).
        2:{ rewrite Hd. cbn. destruct (Z.gtb_spec now t); [lia|done]. }
        cbn [length]. f_equal; lia.
      * rewrite (filter_cons_True (fun kv => later_than now (expiresAt kv.2) = true)).
        2:{ rewrite Hd. cbn. destruct (Z.gtb_spec now t); [done|lia]. }
        cbn [length]. f_equal; lia.
    + rewrite IH; cbn [fst snd].
      rewrite (filter_cons_True (fun kv => expiresAt kv.2 = None)) by done.
      rewrite (filter_cons_False (fun kv => later_than now (expiresAt kv.2) = true))
        by (by rewrite Hd).
      cbn [length]. f_equal; lia.
Qed.

Lemma length_two_filters {A} (P Q : A -> Prop)
    `{!forall x, Decision (P x)} `{!forall x, Decision (Q x)} (l : list A) :
  (forall x, P x -> Q x -> False) ->
  (length (filter P l) + length (filter Q l) <= length l)%nat.
Proof.
  intros Hdisj. induction l as [|x l IH]; [done|].
  destruct (decide (P x)) as [HP|HP], (decide (Q x)) as [HQ|HQ].
  - by destruct (Hdisj x).
  - rewrite (filter_cons_True P), (filter_cons_False Q) by done. cbn. lia.
  - rewrite (filter_cons_False P), (filter_cons_True Q) by done. cbn. lia.
  - rewrite (filter_cons_False P), (filter_cons_False Q) by done. cbn. lia.
Qed.

(** X7.  [getStats] counts every stored token once: the total is the sum
    of the active and the expired tokens and no count is negative.  The
    expired ones are the tokens a sweep at the same instant collects
    together with the tokens whose expiry is an Invalid Date: such a token
    is counted as expired ([now <= expiresAt] is false) although no sweep
    collects it ([now > expiresAt] is false too). *)
Theorem getStats_partition now st :
  totalSessions (getStats now st)
  = activeSessions (getStats now st) + expiredSessions (getStats now st) /\
  expiredSessions (getStats now st)
  = Z.of_nat (length (expiredTokens now st))
    + Z.of_nat (length (filter (fun kv => expiresAt kv.2 = None)
                          (map_to_list (sessions st)))) /\
  0 <= activeSessions (getStats now st).
Proof.
  unfold getStats, expiredTokens. rewrite stats_loop. cbn.
  rewrite length_fmap, length_map_to_list.
  pose proof (length_two_filters
                (fun kv : string * TokenSession => later_than now (expiresAt kv.2) = true)
                (fun kv : string * TokenSession => expiresAt kv.2 = None)
                (map_to_list (sessions st))) as Hle.
  rewrite length_map_to_list in Hle.
  assert (Hdisj : forall x : string * TokenSession,
            later_than now (expiresAt x.2) = true -> expiresAt x.2 = None -> False).
  { intros x H1 H2. by rewrite H2 in H1. }
  specialize (Hle Hdisj). lia.
Qed.

(** X8.  The advisory check agrees with the hard limit:
    [canCreateSession()] returns true exactly when a [createSession] call
    made in the same state returns a token instead of throwing. *)
Theorem canCreateSession_decides_createSession httpConfig fresh cfg d now st :
  canCreateSession httpConfig st = true <->
  exists res st', createSession httpConfig fresh cfg d now st = (Ok res, st').
Proof.
  unfold canCreateSession, createSession.
  destruct (Z.ltb_spec (Z.of_nat (size (sessions st))) (maxSessions httpConfig));
    destruct (Z.geb_spec (Z.of_nat (size (sessions st))) (maxSessions httpConfig));
    try lia.
  - split; [eauto|done].
  - split; [done|]. by intros (? & ? & ?).
Qed.

(** X9.  A token that has been issued validates until it expires.  After
    an admitted [createSession], validating the (non-empty) token at
    [now'] succeeds exactly when [now' <= expiresAt], returning the
    session as created with [lastUsedAt = now'] and storing that; after
    [expiresAt] it answers "Token expired" and removes the entry.  A token
    whose expiry is an Invalid Date validates at every instant. *)
Theorem created_token_validates_until_expiry httpConfig fresh cfg d now now' st st' res :
  fresh <> "" ->
  createSession httpConfig fresh cfg d now st = (Ok res, st') ->
  validateToken fresh now' st'
  = if match cr_expiresAt res with
       | Some expires_at => bool_decide (now' <= expires_at)
       | None => true
       end then
      ({| valid := true;
          session := Some {| token := fresh; config := cfg; createdAt := now;
                             expiresAt := cr_expiresAt res; lastUsedAt := now';
                             mcpSessionId := None |};
          error := None |},
       with_sessions
         (<[fresh := {| token := fresh; config := cfg; createdAt := now;
                        expiresAt := cr_expiresAt res; lastUsedAt := now';
                        mcpSessionId := None |}]> (sessions st')) st')
    else
      ({| valid := false; session := None; error := Some "Token expired" |},
       with_sessions (delete fresh (sessions st')) st').
Proof.
  intros Hne. unfold createSession. destruct (_ >=? _); [done|].
  intros [= <- <-]. cbn. unfold validateToken. rewrite decide_False by done.
  cbn. rewrite lookup_insert_eq. cbn.
  destruct (newDate (now + default (tokenExpiry httpConfig) d * 1000)) as [x|];
    cbn; [|done].
  destruct (Z.gtb_spec now' x), (bool_decide_reflect (now' <= x)); try lia; done.
Qed.


Lemma notifyCleanup_effect tok w :
  sessions (notifyCleanup tok w).1 = sessions w.1 /\
  cleanupCallback (notifyCleanup tok w).1 = cleanupCallback w.1 /\
  invoked (notifyCleanup tok w).1
  = invoked w.1 ++ match cleanupCallback w.1 with Some _ => [tok] | None => [] end /\
  (notifyCleanup tok w).2
  = match cleanupCallback w.1 with Some cb => cb tok w.2 | None => w.2 end.
Proof.
  unfold notifyCleanup. destruct (cleanupCallback w.1) eqn:Hc; cbn.
  - done.
  - by rewrite Hc, app_nil_r.
Qed.

(** The deleting loop of the expiry sweep over any list of tokens. *)
Lemma sweep_loop (toks : list string) w :
  let w' := foldl (fun acc tok =>
                     notifyCleanup tok
                       (with_sessions (delete tok (sessions acc.1)) acc.1, acc.2))
                  w toks in
  (forall tok, sessions w'.1 !! tok
               = if decide (tok ∈ toks) then None else sessions w.1 !! tok) /\
  cleanupCallback w'.1 = cleanupCallback w.1 /\
  invoked w'.1
  = invoked w.1 ++ match cleanupCallback w.1 with Some _ => toks | None => [] end /\
  w'.2 = match cleanupCallback w.1 with
         | Some cb => foldl (fun e tok => cb tok e) w.2 toks
         | None => w.2
         end.
Proof.
  revert w. induction toks as [|tok0 toks IH]; intros w; cbn [foldl]; cbv zeta.
  - split; [intros tok; by rewrite decide_False by apply not_elem_of_nil|].
    split; [done|]. split; [by destruct (cleanupCallback w.1); rewrite app_nil_r|].
    by destruct (cleanupCallback w.1).
  - destruct (IH (notifyCleanup tok0
                    (with_sessions (delete tok0 (sessions w.1)) w.1, w.2)))
      as (Hl & Hcb & Hinv & Henv).
    destruct (notifyCleanup_effect tok0
                (with_sessions (delete tok0 (sessions w.1)) w.1, w.2))
      as (Hs1 & Hcb1 & Hinv1 & Henv1).
    cbn [fst snd with_sessions sessions cleanupCallback invoked] in Hs1, Hcb1, Hinv1, Henv1.
    rewrite Hcb1 in Hcb, Hinv, Henv. rewrite Hinv1 in Hinv. rewrite Henv1 in Henv.
    split; [|split; [|split]].
    + intros tok. rewrite Hl, Hs1.
      destruct (decide (tok ∈ toks)) as [Hin|Hnin].
      * rewrite decide_True; [done|by right].
      * destruct (decide (tok = tok0)) as [->|Hne].
        -- rewrite decide_True by (by left). apply lookup_delete_eq.
        -- rewrite decide_False by (by intros [?|?]%elem_of_cons).
           by rewrite lookup_delete_ne.
    + done.
    + rewrite Hinv. destruct (cleanupCallback w.1); [by rewrite <- app_assoc|].
      by rewrite !app_nil_r.
    + rewrite Henv. by destruct (cleanupCallback w.1).
Qed.

Lemma expiredTokens_elem now st tok :
  tok ∈ expiredTokens now st <->
  exists s, sessions st !! tok = Some s /\ later_than now (expiresAt s) = true.
Proof.
  unfold expiredTokens. rewrite list_elem_of_fmap. split.
  - intros ([k s] & -> & Hin). apply list_elem_of_filter in Hin as [Hexp Hin].
    apply elem_of_map_to_list in Hin. by exists s.
  - intros (s & Hs & Hexp). exists (tok, s). split; [done|].
    apply list_elem_of_filter. split; [done|]. by apply elem_of_map_to_list.
Qed.

Lemma expiredTokens_NoDup now st : NoDup (expiredTokens now st).
Proof.
  unfold expiredTokens. apply NoDup_fmap_fst.
  - intros k s1 s2 [_ H1]%list_elem_of_filter [_ H2]%list_elem_of_filter.
    apply elem_of_map_to_list in H1, H2. congruence.
  - apply NoDup_filter, NoDup_map_to_list.
Qed.

(** X10.  The sweep removes exactly the expired tokens.  After
    [cleanupExpiredSessions] at [now] a token is stored exactly when it was
    stored and [now > expiresAt] was false of it ([now <= expiresAt], or an
    expiry that is an Invalid Date), unchanged; with a callback registered,
    the callback has been called once for each removed token, in the order
    collected, and for no other. *)
Theorem sweep_removes_exactly_the_expired now w :
  (forall tok,
     sessions (cleanupExpiredSessions now w).1 !! tok
     = match sessions w.1 !! tok with
       | Some s =>
           match expiresAt s with
           | Some expires_at => if decide (now > expires_at) then None else Some s
           | None => Some s
           end
       | None => None
       end) /\
  (forall cb, cleanupCallback w.1 = Some cb ->
     invoked (cleanupExpiredSessions now w).1 = invoked w.1 ++ expiredTokens now w.1 /\
     (cleanupExpiredSessions now w).2
     = foldl (fun e tok => cb tok e) w.2 (expiredTokens now w.1)) /\
  NoDup (expiredTokens now w.1) /\
  (forall tok, tok ∈ expiredTokens now w.1 <->
               exists s expires_at,
                 sessions w.1 !! tok = Some s /\
                 expiresAt s = Some expires_at /\ now > expires_at).
Proof.
  destruct (sweep_loop (expiredTokens now w.1) w) as (Hl & _ & Hinv & Henv).
  split; [|split; [|split]].
  - intros tok. unfold cleanupExpiredSessions. rewrite Hl.
    destruct (decide (tok ∈ expiredTokens now w.1)) as [Hin|Hnin].
    + apply expiredTokens_elem in Hin as (s & -> & Hexp).
      apply later_than_spec in Hexp as (t & -> & Hgt). by rewrite decide_True.
    + destruct (sessions w.1 !! tok) as [s|] eqn:Hs; [|done].
      destruct (expiresAt s) as [t|] eqn:Hd; [|done].
      rewrite decide_False; [done|]. intros Hexp. apply Hnin, expiredTokens_elem.
      exists s. split; [done|]. apply later_than_spec. rewrite Hd. eauto.
  - intros cb Hcb. unfold cleanupExpiredSessions. rewrite Hinv, Henv, Hcb. done.
  - apply expiredTokens_NoDup.
  - intros tok. rewrite expiredTokens_elem. split.
    + intros (s & Hs & (t & Hd & Hgt)%later_than_spec). by exists s, t.
    + intros (s & t & Hs & Hd & Hgt). exists s. split; [done|].
      apply later_than_spec. eauto.
Qed.

Lemma notify_loop (toks : list string) w :
  let w' := foldl (fun acc tok => notifyCleanup tok acc) w toks in
  sessions w'.1 = sessions w.1 /\
  cleanupCallback w'.1 = cleanupCallback w.1 /\
  invoked w'.1
  = invoked w.1 ++ match cleanupCallback w.1 with Some _ => toks | None => [] end /\
  w'.2 = match cleanupCallback w.1 with
         | Some cb => foldl (fun e tok => cb tok e) w.2 toks
         | None => w.2
         end.
Proof.
  revert w. induction toks as [|tok0 toks IH]; intros w; cbn [foldl]; cbv zeta.
  - split; [done|]. split; [done|].
    split; [by destruct (cleanupCallback w.1); rewrite app_nil_r|].
    by destruct (cleanupCallback w.1).
  - destruct (IH (notifyCleanup tok0 w)) as (Hs & Hcb & Hinv & Henv).
    destruct (notifyCleanup_effect tok0 w) as (Hs1 & Hcb1 & Hinv1 & Henv1).
    rewrite Hcb1 in Hcb, Hinv, Henv. rewrite Hinv1 in Hinv. rewrite Henv1 in Henv.
    rewrite Hs, Hs1, Hcb, Hinv, Henv.
    destruct (cleanupCallback w.1); [by rewrite <- app_assoc|by rewrite !app_nil_r].
Qed.

(** X11.  [shutdown] notifies every token: it leaves no token stored and,
    with a callback registered, calls it exactly once for each token that
    was stored, and for no other; without a callback nothing else
    changes. *)
Theorem shutdown_notifies_every_token w :
  sessions (shutdown w).1 = ∅ /\
  (forall cb, cleanupCallback w.1 = Some cb ->
     exists toks,
       invoked (shutdown w).1 = invoked w.1 ++ toks /\
       NoDup toks /\
       (forall tok, tok ∈ toks <-> is_Some (sessions w.1 !! tok)) /\
       (shutdown w).2 = foldl (fun e tok => cb tok e) w.2 toks) /\
  (cleanupCallback w.1 = None -> invoked (shutdown w).1 = invoked w.1 /\ (shutdown w).2 = w.2).
Proof.
  unfold shutdown. cbv zeta.
  destruct (notify_loop ((map_to_list (sessions w.1)).*1) w) as (Hs & Hcb & Hinv & Henv).
  cbn [fst snd with_sessions sessions invoked].
  split; [done|]. split.
  - intros cb Hc. exists ((map_to_list (sessions w.1)).*1).
    rewrite Hinv, Henv, Hc. split; [done|]. split; [apply NoDup_fst_map_to_list|].
    split; [|done]. intros tok. rewrite list_elem_of_fmap. split.
    + intros ([k s] & -> & Hin). apply elem_of_map_to_list in Hin. by eexists.
    + intros [s Hstok]. exists (tok, s). split; [done|]. by apply elem_of_map_to_list.
  - intros Hc. rewrite Hinv, Henv, Hc, app_nil_r. done.
Qed.

(** X12.  A revoked token is gone.  After a [revokeToken] that returned
    true, the token is not stored, validating it answers "Token not found
    or expired" and changes nothing, revoking it again returns false and
    changes nothing, every other token is stored as before and one token
    less is stored. *)
Theorem revoked_token_is_gone tok w w' :
  revokeToken tok w = (true, w') ->
  sessions w'.1 !! tok = None /\
  (forall now, tok <> "" ->
     validateToken tok now w'.1
     = ({| valid := false; session := None;
           error := Some "Token not found or expired" |}, w'.1)) /\
  revokeToken tok w' = (false, w') /\
  (forall tok', tok' <> tok -> sessions w'.1 !! tok' = sessions w.1 !! tok') /\
  (Z.of_nat (size (sessions w'.1)) = Z.of_nat (size (sessions w.1)) - 1).
Proof.
  unfold revokeToken at 1. destruct (sessions w.1 !! tok) as [s|] eqn:Hs; [|done].
  intros [= <-].
  assert (Hsess : sessions (notifyCleanup tok
                    (with_sessions (delete tok (sessions w.1)) w.1, w.2)).1
                  = delete tok (sessions w.1)).
  { unfold notifyCleanup. cbn. by destruct (cleanupCallback w.1). }
  assert (Hgone : sessions (notifyCleanup tok
                    (with_sessions (delete tok (sessions w.1)) w.1, w.2)).1 !! tok = None).
  { rewrite Hsess. apply lookup_delete_eq. }
  split; [done|]. split; [|split; [|split]].
  - intros now Hne. unfold validateToken. rewrite decide_False by done. by rewrite Hgone.
  - unfold revokeToken. by rewrite Hgone.
  - intros tok' Hne. rewrite Hsess. by rewrite lookup_delete_ne.
  - rewrite Hsess, map_size_delete, Hs.
    assert (size (sessions w.1) <> 0%nat).
    { apply map_size_non_empty_iff. intros He. by rewrite He, lookup_empty in Hs. }
    lia.
Qed.

(** X13.  [setMcpSessionId] records the last id given: a second call
    overwrites the first, a call on a token that is not stored does
    nothing, only the [mcpSessionId] field of the token's session changes,
    the other tokens keep their sessions and the number of stored tokens
    stays the same. *)
Theorem setMcpSessionId_last_write_wins tok id1 id2 st :
  setMcpSessionId tok id2 (setMcpSessionId tok id1 st) = setMcpSessionId tok id2 st /\
  (sessions st !! tok = None -> setMcpSessionId tok id1 st = st) /\
  (forall s, sessions st !! tok = Some s ->
     getSession tok (setMcpSessionId tok id1 st)
     = Some {| token := token s; config := config s; createdAt := createdAt s;
               expiresAt := expiresAt s; lastUsedAt := lastUsedAt s;
               mcpSessionId := Some id1 |}) /\
  (forall tok', tok' <> tok ->
     getSession tok' (setMcpSessionId tok id1 st) = getSession tok' st) /\
  size (sessions (setMcpSessionId tok id1 st)) = size (sessions st).
Proof.
  unfold setMcpSessionId, getSession.
  destruct (sessions st !! tok) as [s|] eqn:Hs; cbn.
  - rewrite lookup_insert_eq. cbn. unfold with_sessions. cbn.
    rewrite insert_insert_eq. split; [done|]. split; [done|].
    split; [by intros ? [= <-]|].
    split; [intros tok' Hne; by rewrite lookup_insert_ne|].
    rewrite map_size_insert, Hs. done.
  - rewrite Hs. done.
Qed.

End Generic.

Lemma created_token_validates_until_expiry_witness :
  (validateToken "tok" 1000 one_token).1
  = {| valid := true;
       session := Some {| token := "tok"; config := sample_config; createdAt := 0;
                          expiresAt := Some 60000; lastUsedAt := 1000;
                          mcpSessionId := None |};
       error := None |} /\
  (validateToken "tok" 60001 one_token).1
  = {| valid := false; session := None; error := Some "Token expired" |}.
Proof.
  split.
  - rewrite (created_token_validates_until_expiry two_sessions "tok" sample_config
               (Some 60) 0 1000 init one_token
               {| cr_token := "tok"; cr_expiresAt := Some 60000; cr_expiresIn := 60 |});
      [reflexivity|discriminate|vm_compute; reflexivity].
  - rewrite (created_token_validates_until_expiry two_sessions "tok" sample_config
               (Some 60) 0 60001 init one_token
               {| cr_token := "tok"; cr_expiresAt := Some 60000; cr_expiresIn := 60 |});
      [reflexivity|discriminate|vm_compute; reflexivity].
Defined.

Lemma revoked_token_is_gone_witness :
  revokeToken "tok" (revokeToken "tok" (one_token, tt)).2
  = (false, (revokeToken "tok" (one_token, tt)).2).
Proof.
  assert (H : revokeToken "tok" (one_token, tt)
              = (true, (revokeToken "tok" (one_token, tt)).2))
    by (vm_compute; reflexivity).
  exact (proj1 (proj2 (proj2 (revoked_token_is_gone "tok" (one_token, tt) _ H)))).
Defined.

End TokenManagerExtras.

(** * More of the session manager ([src/transports/sessionManager.ts]) *)

Module SessionManagerExtras.
Import SessionManager Scenario.

Lemma task_step_nonneg settled t st t' st' :
  (forall i s, sessions st !! i = Some s -> 0 <= activeRequests s) ->
  task_step settled t st = Some (t', st') ->
  forall i s, sessions st' !! i = Some s -> 0 <= activeRequests s.
Proof.
  intros Hinv Hstep i s. unfold task_step in Hstep.
  destruct (waiting t) as [[i0 p]|].
  - destruct p, settled as [[]|msg]; simplify_eq/=; try apply Hinv;
      (destruct (decide (i = i0)) as [->|Hne];
       [by rewrite lookup_delete_eq|rewrite lookup_delete_ne by done; apply Hinv]).
  - destruct (todo t) as [|i0 rest]; [done|]. unfold closeSession_begin in Hstep.
    destruct (sessions st !! i0) as [s0|] eqn:Hs0; [|simplify_eq/=; apply Hinv].
    destruct (isClosing s0); simplify_eq/=; [apply Hinv|].
    destruct (decide (i = i0)) as [->|Hne].
    + rewrite lookup_insert_eq. intros [= <-]. cbn. by eapply Hinv.
    + rewrite lookup_insert_ne by done. apply Hinv.
Qed.

Lemma step_nonneg sys sys' :
  (forall i s, sessions (mgr sys) !! i = Some s -> 0 <= activeRequests s) ->
  step sys sys' ->
  forall i s, sessions (mgr sys') !! i = Some s -> 0 <= activeRequests s.
Proof.
  intros Hinv Hstep. destruct Hstep; cbn [mgr]; try exact Hinv.
  - intros i s. unfold createSession in H0. destruct connect; simplify_eq/=; [|apply Hinv].
    destruct (decide (i = sessionId)) as [->|Hne].
    + rewrite lookup_insert_eq. intros [= <-]. cbn. lia.
    + rewrite lookup_insert_ne by done. apply Hinv.
  - intros i s. unfold getSession.
    destruct (sessions (mgr sys) !! sessionId) as [s0|] eqn:Hs0; [|apply Hinv].
    destruct (isClosing s0); [apply Hinv|]. cbn.
    destruct (decide (i = sessionId)) as [->|Hne].
    + rewrite lookup_insert_eq. intros [= <-]. cbn. by eapply Hinv.
    + rewrite lookup_insert_ne by done. apply Hinv.
  - intros i s. unfold incrementActiveRequests.
    destruct (sessions (mgr sys) !! sessionId) as [s0|] eqn:Hs0; [|apply Hinv]. cbn.
    destruct (decide (i = sessionId)) as [->|Hne].
    + rewrite lookup_insert_eq. intros [= <-]. cbn. specialize (Hinv _ _ Hs0). lia.
    + rewrite lookup_insert_ne by done. apply Hinv.
  - intros i s. unfold decrementActiveRequests.
    destruct (sessions (mgr sys) !! sessionId) as [s0|] eqn:Hs0; [|apply Hinv].
    destruct (Z.gtb_spec (activeRequests s0) 0); [|apply Hinv]. cbn.
    destruct (decide (i = sessionId)) as [->|Hne].
    + rewrite lookup_insert_eq. intros [= <-]. cbn. lia.
    + rewrite lookup_insert_ne by done. apply Hinv.
  - by eapply task_step_nonneg.
Qed.

Lemma reachable_nonneg sys :
  reachable sys ->
  forall i s, sessions (mgr sys) !! i = Some s -> 0 <= activeRequests s.
Proof.
  induction 1 as [|sys sys' Hr IH Hstep]; [by intros i s; cbn; rewrite lookup_empty|].
  by eapply step_nonneg.
Qed.

(** X14.  Request accounting is balanced.  In every state the manager can
    reach, no session has a negative [activeRequests]; hence the
    decrement that a handler makes in its [finally] block undoes the
    increment made before the request was handed on, leaving the session
    as it was but for [lastAccessedAt]; and a decrement on a session with
    no request in flight does nothing. *)
Theorem activeRequests_balanced sys sessionId t1 t2 :
  reachable sys ->
  (forall s, sessions (mgr sys) !! sessionId = Some s -> 0 <= activeRequests s) /\
  sessions (decrementActiveRequests sessionId t2
              (incrementActiveRequests sessionId t1 (mgr sys))) !! sessionId
  = set_lastAccessedAt t2 <$> sessions (mgr sys) !! sessionId /\
  (forall s, sessions (mgr sys) !! sessionId = Some s -> activeRequests s = 0 ->
     decrementActiveRequests sessionId t2 (mgr sys) = mgr sys).
Proof.
  intros Hr. pose proof (reachable_nonneg sys Hr sessionId) as Hn.
  split; [exact Hn|]. split.
  - unfold incrementActiveRequests.
    destruct (sessions (mgr sys) !! sessionId) as [s|] eqn:Hs.
    + unfold decrementActiveRequests. cbn. rewrite lookup_insert_eq. cbn.
      specialize (Hn s eq_refl).
      destruct (Z.gtb_spec (activeRequests s + 1) 0); [|lia]. cbn.
      rewrite lookup_insert_eq. unfold set_lastAccessedAt, set_activeRequests. cbn.
      do 2 f_equal. lia.
    + unfold decrementActiveRequests. by rewrite Hs.
  - intros s Hs Hz. unfold decrementActiveRequests. rewrite Hs, Hz. done.
Qed.


(** X15.  A session that is being closed is hidden.  [hasSession] returns
    true exactly when [getSession] returns the session; a returned session
    is not closing and has been touched; and from the moment
    [closeSession] suspends at its first [await], both answer as for an
    unknown id although the session is still stored. *)
Theorem closing_session_is_hidden sessionId now st :
  (hasSession sessionId st = true <-> is_Some (getSession sessionId now st).1) /\
  (forall s, (getSession sessionId now st).1 = Some s ->
     isClosing s = false /\ lastAccessedAt s = now /\
     sessions (getSession sessionId now st).2 !! sessionId = Some s) /\
  (forall p st', closeSession_begin sessionId st = (inr p, st') ->
     hasSession sessionId st' = false /\
     getSession sessionId now st' = (None, st') /\
     is_Some (sessions st' !! sessionId)).
Proof.
  split; [|split].
  - unfold hasSession, getSession. destruct (sessions st !! sessionId) as [s|].
    + destruct (isClosing s); cbn; split; try done; by intros [? ?].
    + cbn. split; [done|by intros [? ?]].
  - intros s. unfold getSession. destruct (sessions st !! sessionId) as [s0|]; [|done].
    destruct (isClosing s0) eqn:Hc; [done|]. cbn. intros [= <-]. cbn.
    by rewrite lookup_insert_eq.
  - intros p st'. unfold closeSession_begin.
    destruct (sessions st !! sessionId) as [s|]; [|done].
    destruct (isClosing s); [done|]. intros [= <- <-].
    unfold hasSession, getSession. cbn. rewrite lookup_insert_eq. cbn.
    split; [done|]. split; [done|]. by eexists.
Qed.

Lemma closeEach_count_all outcome (ids : list string) st :
  NoDup ids ->
  (forall i, i ∈ ids -> exists s, sessions st !! i = Some s /\ isClosing s = false) ->
  (closeEach outcome ids st).1 = Z.of_nat (length ids).
Proof.
  unfold closeEach.
  assert (Hgen : forall n st0,
    NoDup ids ->
    (forall i, i ∈ ids -> exists s, sessions st0 !! i = Some s /\ isClosing s = false) ->
    (foldl (fun acc sessionId =>
              let '(closed, st') := closeSession sessionId (outcome sessionId) acc.2 in
              ((if closed then acc.1 + 1 else acc.1), st'))
           (n, st0) ids).1 = n + Z.of_nat (length ids)).
  { induction ids as [|i0 ids IH]; intros n st0 Hnd Hall; [cbn; lia|].
    apply NoDup_cons in Hnd as [Hfresh Hnd].
    destruct (Hall i0) as (s0 & Hs0 & Hc0); [by left|].
    cbn [foldl fst snd].
    rewrite (SessionManagerClaims.closeSession_admitted _ _ _ _ Hs0 Hc0).
    rewrite IH; [cbn [length]; lia|done|].
    intros i Hi. destruct (Hall i) as (s & Hs & Hc); [by right|].
    exists s. split; [|done]. cbn. rewrite lookup_delete_ne; [done|]. by intros ->. }
  intros Hnd Hall. rewrite Hgen by done. lia.
Qed.

Lemma sessionsToClose_elem tok st sessionId :
  sessionId ∈ sessionsToClose tok st <->
  exists s, sessions st !! sessionId = Some s /\ authToken s = tok.
Proof.
  unfold sessionsToClose. rewrite list_elem_of_fmap. split.
  - intros ([i s] & -> & Hin). apply list_elem_of_filter in Hin as [Htok Hin].
    apply elem_of_map_to_list in Hin. by exists s.
  - intros (s & Hs & Htok). exists (sessionId, s). split; [done|].
    apply list_elem_of_filter. split; [done|]. by apply elem_of_map_to_list.
Qed.

Lemma sessionsToClose_NoDup tok st : NoDup (sessionsToClose tok st).
Proof.
  unfold sessionsToClose. apply NoDup_fmap_fst.
  - intros i s1 s2 [_ H1]%list_elem_of_filter [_ H2]%list_elem_of_filter.
    apply elem_of_map_to_list in H1, H2. congruence.
  - apply NoDup_filter, NoDup_map_to_list.
Qed.

(** X16.  [closeSessionsByToken] closes the token's sessions and no other.
    When no stored session is being closed, the call returns the number of
    sessions of the token, leaves stored exactly the sessions of other
    tokens, unchanged, and has closed each session of the token once, in
    the order collected. *)
Theorem closeSessionsByToken_closes_the_tokens_sessions outcome tok st :
  (forall i s, sessions st !! i = Some s -> isClosing s = false) ->
  (closeSessionsByToken outcome tok st).1 = Z.of_nat (length (sessionsToClose tok st)) /\
  (forall i,
     sessions (closeSessionsByToken outcome tok st).2 !! i
     = match sessions st !! i with
       | Some s => if decide (authToken s = tok) then None else Some s
       | None => None
       end) /\
  calls (closeSessionsByToken outcome tok st).2
  = calls st ++ concat ((fun i => close_calls i (outcome i)) <$> sessionsToClose tok st) /\
  NoDup (sessionsToClose tok st).
Proof.
  intros Hopen. unfold closeSessionsByToken.
  assert (Hall : forall i, i ∈ sessionsToClose tok st ->
            exists s, sessions st !! i = Some s /\ isClosing s = false).
  { intros i (s & Hs & _)%sessionsToClose_elem. exists s. split; [done|by eapply Hopen]. }
  destruct (SessionManagerClaims.closeEach_effect outcome (sessionsToClose tok st) st
              (sessionsToClose_NoDup tok st) Hall) as (Hin & Hout & Hcalls).
  split; [by apply closeEach_count_all; [apply sessionsToClose_NoDup|]|].
  split; [|split; [exact Hcalls|apply sessionsToClose_NoDup]].
  intros i. destruct (decide (i ∈ sessionsToClose tok st)) as [Hi|Hi].
  - rewrite (Hin i Hi). apply sessionsToClose_elem in Hi as (s & -> & Htok).
    by rewrite decide_True.
  - rewrite (Hout i Hi). destruct (sessions st !! i) as [s|] eqn:Hs; [|done].
    rewrite decide_False; [done|]. intros Htok. apply Hi, sessionsToClose_elem. eauto.
Qed.

Lemma session_stats_loop now (l : list (string * McpSession)) a e :
  foldl (fun acc kv =>
           if isClosing kv.2 then acc
           else if now - lastAccessedAt kv.2 >? staleTimeoutMs
                then (acc.1, acc.2 + 1) else (acc.1 + 1, acc.2))
        (a, e) l
  = (a + Z.of_nat (length l)
       - Z.of_nat (length (filter (fun kv => isClosing kv.2 = true) l))
       - Z.of_nat (length (filter (fun kv => isClosing kv.2 = false /\
                                            now - lastAccessedAt kv.2 > staleTimeoutMs) l)),
     e + Z.of_nat (length (filter (fun kv => isClosing kv.2 = false /\
                                           now - lastAccessedAt kv.2 > staleTimeoutMs) l))).
Proof.
  revert a e. induction l as [|kv l IH]; intros a e; cbn [foldl].
  - cbn. f_equal; lia.
  - destruct (isClosing kv.2) eqn:Hc.
    + rewrite IH. rewrite (filter_cons_True (fun kv => isClosing kv.2 = true)) by done.
      rewrite filter_cons_False by (intros [? _]; congruence). cbn [length]. f_equal; lia.
    + rewrite (filter_cons_False (fun kv => isClosing kv.2 = true)) by congruence.
      destruct (Z.gtb_spec (now - lastAccessedAt kv.2) staleTimeoutMs); rewrite IH;
        cbn [fst snd].
      * rewrite filter_cons_True by (split; [done|lia]). cbn [length]. f_equal; lia.
      * rewrite filter_cons_False by (intros [_ ?]; lia). cbn [length]. f_equal; lia.
Qed.

Lemma length_filter_mono {A} (P Q : A -> Prop)
    `{!forall x, Decision (P x)} `{!forall x, Decision (Q x)} (l : list A) :
  (forall x, x ∈ l -> P x -> Q x) ->
  (length (filter P l) <= length (filter Q l))%nat.
Proof.
  induction l as [|x l IH]; intros Himp; [done|].
  assert (IH' := IH (fun y Hin => Himp y (list_elem_of_further _ _ _ Hin))).
  destruct (decide (P x)) as [Hp|Hp].
  - rewrite (filter_cons_True P) by done.
    rewrite (filter_cons_True Q) by (apply Himp; [by left|done]). cbn [length]. lia.
  - rewrite (filter_cons_False P) by done.
    destruct (decide (Q x)).
    + rewrite (filter_cons_True Q) by done. cbn [length]. lia.
    + by rewrite (filter_cons_False Q).
Qed.

Lemma length_filter_disjoint {A} (P Q : A -> Prop)
    `{!forall x, Decision (P x)} `{!forall x, Decision (Q x)} (l : list A) :
  (forall x, P x -> Q x -> False) ->
  (length (filter P l) + length (filter Q l) <= length l)%nat.
Proof.
  intros Hdisj. induction l as [|x l IH]; [done|].
  destruct (decide (P x)) as [Hp|Hp].
  - rewrite (filter_cons_True P) by done.
    rewrite (filter_cons_False Q) by (intros Hq; by eapply Hdisj). cbn [length]. lia.
  - rewrite (filter_cons_False P) by done.
    destruct (decide (Q x)).
    + rewrite (filter_cons_True Q) by done. cbn [length]. lia.
    + rewrite (filter_cons_False Q) by done. cbn [length]. lia.
Qed.

(** X17.  [getStats] counts every stored session once: the total is the
    sum of the active and the stale sessions and of those being closed,
    which are in neither count.  The stale count ignores requests in
    flight, so it is at least the number of sessions the sweep would close
    at the same instant, and equal to it when no session has a request in
    flight. *)
Theorem session_stats_partition now st :
  totalSessions (getStats now st)
  = activeSessions (getStats now st) + staleSessions (getStats now st)
    + Z.of_nat (length (filter (fun kv => isClosing kv.2 = true)
                          (map_to_list (sessions st)))) /\
  0 <= activeSessions (getStats now st) /\
  Z.of_nat (length (staleSessionIds now st)) <= staleSessions (getStats now st) /\
  ((forall i s, sessions st !! i = Some s -> activeRequests s = 0) ->
   staleSessions (getStats now st) = Z.of_nat (length (staleSessionIds now st))).
Proof.
  unfold getStats, staleSessionIds. rewrite session_stats_loop. cbn [fst snd
    totalSessions activeSessions staleSessions]. rewrite length_fmap.
  rewrite <- (length_map_to_list (sessions st)).
  set (l := map_to_list (sessions st)).
  pose proof (length_filter_disjoint
                (fun kv : string * McpSession => isClosing kv.2 = true)
                (fun kv : string * McpSession =>
                   isClosing kv.2 = false /\
                   now - lastAccessedAt kv.2 > staleTimeoutMs) l
                ltac:(intros kv H1 [H2 _]; congruence)) as Hdisj.
  pose proof (length_filter_mono
                (fun kv : string * McpSession =>
                   isClosing kv.2 = false /\
                   now - lastAccessedAt kv.2 > staleTimeoutMs /\
                   activeRequests kv.2 = 0)
                (fun kv : string * McpSession =>
                   isClosing kv.2 = false /\
                   now - lastAccessedAt kv.2 > staleTimeoutMs) l
                ltac:(intros kv _ (? & ? & _); done)) as Hsub.
  split; [lia|]. split; [lia|]. split; [lia|].
  intros Hidle.
  pose proof (length_filter_mono
                (fun kv : string * McpSession =>
                   isClosing kv.2 = false /\
                   now - lastAccessedAt kv.2 > staleTimeoutMs)
                (fun kv : string * McpSession =>
                   isClosing kv.2 = false /\
                   now - lastAccessedAt kv.2 > staleTimeoutMs /\
                   activeRequests kv.2 = 0) l) as Hsup.
  assert (Hall : forall x : string * McpSession, x ∈ l ->
            isClosing x.2 = false /\ now - lastAccessedAt x.2 > staleTimeoutMs ->
            isClosing x.2 = false /\ now - lastAccessedAt x.2 > staleTimeoutMs /\
            activeRequests x.2 = 0).
  { intros [i s] Hin [Hc Hage]. apply elem_of_map_to_list in Hin.
    split; [done|]. split; [done|]. by eapply Hidle. }
  specialize (Hsup Hall). lia.
Qed.

Lemma activeRequests_balanced_witness :
  sessions (decrementActiveRequests "s1" 9
              (incrementActiveRequests "s1" 7 (mgr one_request))) !! "s1"
  = set_lastAccessedAt 9 <$> sessions (mgr one_request) !! "s1".
Proof.
  assert (Hr : reachable one_request).
  { apply (reachable_step one_session one_request).
    - apply (reachable_step boot one_session); [apply reachable_boot|].
      eapply (step_create boot "s1" 1%nat 1%nat "tok" (Ok ()) 0);
        [apply not_elem_of_empty|apply surjective_pairing].
    - apply (step_increment one_session "s1" 5). }
  exact (proj1 (proj2 (activeRequests_balanced one_request "s1" 7 9 Hr))).
Defined.

Lemma closeSessionsByToken_closes_the_tokens_sessions_witness :
  (closeSessionsByToken all_close_ok "tok" idle_and_busy).1
  = Z.of_nat (length (sessionsToClose "tok" idle_and_busy)).
Proof.
  assert (H : map_Forall (fun _ s => isClosing s = false) (sessions idle_and_busy)).
  { apply map_Forall_to_list. vm_compute. repeat constructor. }
  exact (proj1 (closeSessionsByToken_closes_the_tokens_sessions
                  all_close_ok "tok" idle_and_busy H)).
Defined.

End SessionManagerExtras.

(** * The login throttle ([src/auth/authMiddleware.ts]) *)

Module AuthThrottleExtras.
Import AuthThrottle.

Lemma recordEach_live ip (times : list Z) (a : Attempts) c r :
  a !! ip = Some {| count := c; resetAt := r |} ->
  Forall (fun t => t < r) times ->
  recordEach ip times a !! ip
  = Some {| count := c + Z.of_nat (length times); resetAt := r |}.
Proof.
  unfold recordEach. revert a c.
  induction times as [|t times IH]; intros a c Ha Hall; cbn [foldl length].
  - rewrite Ha. do 2 f_equal. lia.
  - apply Forall_cons in Hall as [Ht Hall].
    rewrite (IH _ (c + 1)); [do 2 f_equal; lia| |done].
    unfold recordFailedAuthAttempt. rewrite Ha. cbn.
    destruct (Z.gtb_spec r t); [|lia]. by rewrite lookup_insert_eq.
Qed.

(** X18.  Lockout after five failures.  For a client with no entry, or one
    whose window has ended at [t0], failures recorded at [t0] and then
    before [t0 + 60 s] are all counted in the window opened at [t0]; until
    that window ends, [authRateLimitMiddleware] answers 429 exactly when
    five or more have been counted, with a [retry_after] of the seconds
    left, rounded up, which is at most 60; once the window has ended the
    client passes and its entry is deleted. *)
Theorem lockout_after_five_failures ip t0 (times : list Z) (a : Attempts) now :
  (forall e, a !! ip = Some e -> resetAt e <= t0) ->
  Forall (fun t => t < t0 + windowMs) times ->
  let a' := recordEach ip (t0 :: times) a in
  a' !! ip = Some {| count := 1 + Z.of_nat (length times); resetAt := t0 + windowMs |} /\
  (now <= t0 + windowMs ->
   authRateLimitMiddleware ip now a'
   = (if decide (5 <= 1 + Z.of_nat (length times))
      then inl (ceil_div (t0 + windowMs - now) 1000) else inr (), a')) /\
  (t0 <= now <= t0 + windowMs -> 0 <= ceil_div (t0 + windowMs - now) 1000 <= 60) /\
  (t0 + windowMs < now ->
   authRateLimitMiddleware ip now a' = (inr (), delete ip a')).
Proof.
  intros Hold Hall. cbv zeta.
  set (a' := recordEach ip (t0 :: times) a).
  assert (Ha' : a' !! ip
                = Some {| count := 1 + Z.of_nat (length times); resetAt := t0 + windowMs |}).
  { unfold a', recordEach. cbn [foldl]. apply (recordEach_live ip times _ 1); [|done].
    unfold recordFailedAuthAttempt. destruct (a !! ip) as [e|] eqn:He.
    - specialize (Hold e eq_refl). destruct (Z.gtb_spec (resetAt e) t0); [lia|].
      by rewrite lookup_insert_eq.
    - by rewrite lookup_insert_eq. }
  clearbody a'. split; [exact Ha'|]. split; [|split].
  - intros Hnow. unfold authRateLimitMiddleware. rewrite Ha'. cbn.
    destruct (Z.ltb_spec (t0 + windowMs) now); [lia|]. rewrite ?Ha'. cbn.
    unfold maxAttempts.
    destruct (Z.geb_spec (1 + Z.of_nat (length times)) 5),
      (decide (5 <= 1 + Z.of_nat (length times))); try lia; done.
  - intros Hnow. unfold windowMs in *.
    pose proof (ceil_div_spec (t0 + 60000 - now) 1000 ltac:(lia)). lia.
  - intros Hnow. unfold authRateLimitMiddleware. rewrite Ha'. cbn.
    destruct (Z.ltb_spec (t0 + windowMs) now); [|lia]. by rewrite lookup_delete_eq.
Qed.

Lemma lockout_after_five_failures_witness :
  authRateLimitMiddleware "10.0.0.1" 1000 (recordEach "10.0.0.1" [0; 1; 2; 3; 4] ∅)
  = (inl 59, recordEach "10.0.0.1" [0; 1; 2; 3; 4] ∅).
Proof.
  assert (Hold : forall e, (∅ : Attempts) !! "10.0.0.1" = Some e -> resetAt e <= 0).
  { intros e He. rewrite lookup_empty in He. discriminate He. }
  assert (Hall : Forall (fun t => t < 0 + windowMs) [1; 2; 3; 4]).
  { repeat constructor; unfold windowMs; lia. }
  assert (Hnow : 1000 <= 0 + windowMs) by (unfold windowMs; lia).
  exact (proj1 (proj2 (lockout_after_five_failures "10.0.0.1" 0 [1; 2; 3; 4] ∅ 1000
                         Hold Hall)) Hnow).
Defined.

End AuthThrottleExtras.

(** * The [Authorization] header ([src/auth/authMiddleware.ts]) *)

Module AuthHeaderExtras.
Import AuthHeader.

Lemma split_on_nonempty sep s : split_on sep s <> [].
Proof.
  destruct s as [|c s]; cbn; [done|].
  destruct (Ascii.eqb c sep); [done|]. by destruct (split_on sep s).
Qed.

Lemma split_on_app sep a b :
  ~ In sep (String.list_ascii_of_string a) ->
  split_on sep (a +:+ String sep b) = a :: split_on sep b.
Proof.
  induction a as [|c a IH]; simpl; intros Hn.
  - by rewrite Ascii.eqb_refl.
  - destruct (Ascii.eqb_spec c sep) as [->|Hne]; [tauto|].
    rewrite IH; [done|tauto].
Qed.

Lemma split_on_plain sep s :
  ~ In sep (String.list_ascii_of_string s) -> split_on sep s = [s].
Proof.
  induction s as [|c s IH]; cbn; intros Hn; [done|].
  destruct (Ascii.eqb_spec c sep) as [->|Hne]; [tauto|].
  rewrite IH; [done|tauto].
Qed.

Lemma split_on_inv sep s x rest :
  split_on sep s = x :: rest ->
  ~ In sep (String.list_ascii_of_string x) /\
  ((rest = [] /\ s = x) \/
   (exists s', s = x +:+ String sep s' /\ split_on sep s' = rest)).
Proof.
  revert x rest. induction s as [|c s IH]; cbn; intros x rest H.
  - injection H as <- <-. split; [by intros []|]. by left.
  - destruct (Ascii.eqb_spec c sep) as [->|Hne].
    + injection H as <- <-. split; [by intros []|]. right. by exists s.
    + destruct (split_on sep s) as [|first others] eqn:Hs;
        [by apply split_on_nonempty in Hs|].
      injection H as <- <-. destruct (IH first others eq_refl) as [Hn Hcase].
      split; [cbn; intros [?|?]; [congruence|tauto]|].
      destruct Hcase as [[-> ->]|(s' & -> & Hs')]; [by left|].
      right. by exists s'.
Qed.

Lemma extractBearerToken_Some (authHeader : option string) (tok : string) :
  extractBearerToken authHeader = Some tok ->
  exists scheme,
    authHeader = Some (scheme +:+ String " " tok) /\
    ~ In " "%char (String.list_ascii_of_string scheme) /\
    ~ In " "%char (String.list_ascii_of_string tok) /\
    toLowerCase scheme = "bearer".
Proof.
  unfold extractBearerToken.
  destruct authHeader as [h|]; [|done].
  destruct (decide (h = "")) as [|_]; [done|].
  destruct (split_on " " h) as [|scheme [|t [|? ?]]] eqn:Hs; try done.
  destruct (decide (toLowerCase scheme = "bearer")) as [Hb|]; [|done].
  intros [= ->]. exists scheme.
  apply split_on_inv in Hs as [Hn1 [[? _]|(s' & -> & Hs')]]; [done|].
  apply split_on_inv in Hs' as [Hn2 [[_ ->]|(s'' & _ & Hs'')]];
    [done|by apply split_on_nonempty in Hs''].
Qed.

(** X19.  [extractBearerToken] returns a token exactly for a header made
    of a scheme, one space and the token, where neither part contains a
    space and the scheme is [bearer] in any letter case; the token is
    returned as written. *)
Theorem extractBearerToken_shape (authHeader : option string) (tok : string) :
  extractBearerToken authHeader = Some tok <->
  exists scheme,
    authHeader = Some (scheme +:+ String " " tok) /\
    ~ In " "%char (String.list_ascii_of_string scheme) /\
    ~ In " "%char (String.list_ascii_of_string tok) /\
    toLowerCase scheme = "bearer".
Proof.
  split; [apply extractBearerToken_Some|].
  intros (scheme & -> & Hn1 & Hn2 & Hb). unfold extractBearerToken.
  destruct (decide (scheme +:+ String " " tok = "")) as [He|_].
  { destruct scheme; discriminate. }
  rewrite split_on_app, split_on_plain by done.
  by rewrite decide_True.
Qed.

Lemma extractBearerToken_shape_witness :
  extractBearerToken (Some "BeArEr abc") = Some "abc" /\
  extractBearerToken (Some "Bearer  abc") = None /\
  extractBearerToken (Some "Bearer") = None /\
  extractBearerToken (Some "Basic abc") = None.
Proof.
  split; [|by vm_compute].
  apply (proj2 (extractBearerToken_shape (Some "BeArEr abc") "abc")).
  exists "BeArEr". split; [reflexivity|]. split; [|split; [|reflexivity]];
    cbn; intros H; repeat (destruct H as [H|H]; [discriminate H|]); exact H.
Defined.

End AuthHeaderExtras.

(** * Query limits ([src/config.ts]) *)

Module QueryLimitExtras.
Import QueryLimit.

(** X20.  The row limit applied to a query lies between 1 and the
    configured maximum, whatever the environment holds and whatever is
    requested: a request within the bounds is kept, one above the maximum
    becomes the maximum and one below 1 becomes 1. *)
Theorem applyQueryLimit_within_bounds (QUERY_DEFAULT_LIMIT QUERY_MAX_LIMIT requested : option Z) :
  let config := getQueryLimitConfig QUERY_DEFAULT_LIMIT QUERY_MAX_LIMIT in
  1 <= applyQueryLimit requested config <= maxLimit config /\
  (forall n, requested = Some n -> 1 <= n <= maxLimit config ->
             applyQueryLimit requested config = n) /\
  (forall n, requested = Some n -> maxLimit config < n ->
             applyQueryLimit requested config = maxLimit config) /\
  (forall n, requested = Some n -> n < 1 -> applyQueryLimit requested config = 1).
Proof.
  unfold getQueryLimitConfig, applyQueryLimit. cbn.
  destruct requested as [n|]; cbn.
  - split; [lia|]. split; [|split]; intros ? [= <-]; lia.
  - split; [lia|]. by split; [|split].
Qed.

End QueryLimitExtras.

(** * Session pools ([src/db/connection.ts]) *)

Module ConnectionExtras.
Import Connection Scenario.

(** X21.  The life of a session pool.  After [initializeSessionPool] has
    registered the pool the driver returned for a key, a further
    [initializeSessionPool] for the key returns without calling the driver
    and keeps the registered pool whatever configuration it is given,
    [closeSessionPool] calls [close()] on it once and gives back the
    registry as it was before, and a second [closeSessionPool] does
    nothing.  For a key that is not the empty string
    [testSessionConnection] reports whether that pool answers the probe
    query; for the empty string it never looks at the session pools and
    reports whether the pool of the stdio transport exists and answers. *)
Theorem pool_lifecycle (jt400_pool : DB2iConfig -> result Pool) sessionId config r p
    (globalPool : option Pool) :
  sessionPools r !! sessionId = None ->
  jt400_pool config = Ok p ->
  let r1 := (initializeSessionPool jt400_pool sessionId config r).2 in
  (forall other_driver other_config,
     initializeSessionPool other_driver sessionId other_config r1 = (Ok (), r1)) /\
  testSessionConnection globalPool sessionId r1
  = (if decide (sessionId = "")
     then match globalPool with Some g => query_ok g | None => false end
     else query_ok p) /\
  closeSessionPool sessionId r1
  = {| sessionPools := sessionPools r; closeCalls := closeCalls r ++ [sessionId] |} /\
  closeSessionPool sessionId (closeSessionPool sessionId r1)
  = closeSessionPool sessionId r1.
Proof.
  intros Hnone Hdrv. unfold initializeSessionPool at 1. rewrite Hnone, Hdrv. cbn.
  assert (Hclose : closeSessionPool sessionId
            {| sessionPools := <[sessionId:=p]> (sessionPools r);
               closeCalls := closeCalls r |}
          = {| sessionPools := sessionPools r;
               closeCalls := closeCalls r ++ [sessionId] |}).
  { unfold closeSessionPool. cbn. rewrite lookup_insert_eq.
    rewrite delete_insert_id by done. by destruct (close_rejects p). }
  split; [|split; [|split]].
  - intros f' cfg'. unfold initializeSessionPool. cbn. by rewrite lookup_insert_eq.
  - unfold testSessionConnection. cbn.
    destruct (decide (sessionId = "")); [done|]. by rewrite lookup_insert_eq.
  - exact Hclose.
  - rewrite Hclose. unfold closeSessionPool. cbn. by rewrite Hnone.
Qed.

Lemma pool_lifecycle_witness :
  testSessionConnection None "tok-1"
    (initializeSessionPool (Http.jt400_pool (calm 0)) "tok-1" sample_config empty).2
  = true /\
  testSessionConnection None ""
    (initializeSessionPool (Http.jt400_pool (calm 0)) "" sample_config empty).2
  = false /\
  closeSessionPool "tok-1"
    (initializeSessionPool (Http.jt400_pool (calm 0)) "tok-1" sample_config empty).2
  = {| sessionPools := sessionPools empty; closeCalls := closeCalls empty ++ ["tok-1"] |}.
Proof.
  pose proof (pool_lifecycle (Http.jt400_pool (calm 0)) "tok-1" sample_config empty
                sample_pool None eq_refl eq_refl) as (_ & H1 & H2 & _).
  pose proof (pool_lifecycle (Http.jt400_pool (calm 0)) "" sample_config empty
                sample_pool None eq_refl eq_refl) as (_ & H3 & _).
  split; [exact H1|]. split; [exact H3|exact H2].
Defined.

End ConnectionExtras.

(** * More of the HTTP transport ([src/transports/http.ts]) *)

Module HttpExtras.
Import Connection Http Scenario.

Lemma in_range n lo hi : (n <? lo) || (n >? hi) = false -> lo <= n <= hi.
Proof.
  intros [H1 H2]%orb_false_elim.
  destruct (Z.ltb_spec n lo); [done|]. destruct (Z.gtb_spec n hi); [done|]. lia.
Qed.

Lemma whiteSpace_starts forward ws l :
  ws ∈ whiteSpace -> orient forward ws `prefix_of` l -> starts_space forward l = true.
Proof.
  intros Hin [k ->]. apply list_elem_of_In in Hin. vm_compute in Hin.
  decompose [or] Hin; try done; subst ws; destruct forward; vm_compute; reflexivity.
Qed.

Lemma space1_whiteSpace a : space1 a = true -> [a] ∈ whiteSpace.
Proof.
  rewrite <- (ascii_nat_embedding a). pose proof (nat_ascii_bounded a) as Hb.
  unfold space1. rewrite nat_ascii_embedding by done.
  generalize dependent (nat_of_ascii a). intros n Hb. cbv zeta.
  rewrite orb_true_iff, andb_true_iff, !Nat.leb_le, Nat.eqb_eq. intros H.
  assert (n = 9 \/ n = 10 \/ n = 11 \/ n = 12 \/ n = 13 \/ n = 32)%nat as Hn by lia.
  apply list_elem_of_In.
  decompose [or] Hn; subst n; vm_compute; tauto.
Qed.

Lemma space2_whiteSpace a b : space2 a b = true -> [a; b] ∈ whiteSpace.
Proof.
  rewrite <- (ascii_nat_embedding a), <- (ascii_nat_embedding b).
  pose proof (nat_ascii_bounded a) as Ha. pose proof (nat_ascii_bounded b) as Hb.
  unfold space2. rewrite !nat_ascii_embedding by done.
  generalize dependent (nat_of_ascii a). generalize dependent (nat_of_ascii b).
  intros y Hy x Hx.
  rewrite andb_true_iff, !Nat.eqb_eq. intros [-> ->].
  apply list_elem_of_In. vm_compute; tauto.
Qed.

Lemma space3_whiteSpace a b c : space3 a b c = true -> [a; b; c] ∈ whiteSpace.
Proof.
  rewrite <- (ascii_nat_embedding a), <- (ascii_nat_embedding b),
    <- (ascii_nat_embedding c).
  pose proof (nat_ascii_bounded a) as Ha. pose proof (nat_ascii_bounded b) as Hb.
  pose proof (nat_ascii_bounded c) as Hc.
  unfold space3. rewrite !nat_ascii_embedding by done.
  generalize dependent (nat_of_ascii a). generalize dependent (nat_of_ascii b).
  generalize dependent (nat_of_ascii c).
  intros z Hz y Hy x Hx. cbv zeta.
  rewrite !orb_true_iff, !andb_true_iff, !orb_true_iff, !andb_true_iff,
    !Nat.leb_le, !Nat.eqb_eq. intros H.
  assert (x = 225 /\ y = 154 /\ z = 128 \/
          x = 226 /\ y = 128 /\
            (z = 128 \/ z = 129 \/ z = 130 \/ z = 131 \/ z = 132 \/ z = 133 \/
             z = 134 \/ z = 135 \/ z = 136 \/ z = 137 \/ z = 138 \/ z = 168 \/
             z = 169 \/ z = 175) \/
          x = 226 /\ y = 129 /\ z = 159 \/
          x = 227 /\ y = 128 /\ z = 128 \/
          x = 239 /\ y = 187 /\ z = 191)%nat as Hn by lia.
  apply list_elem_of_In.
  decompose [or and] Hn; subst x y z; vm_compute; tauto.
Qed.

Lemma trim_start_spec forward l :
  exists front,
    Forall (.∈ whiteSpace) front /\
    l = concat (orient forward <$> front) ++ trim_start forward l /\
    starts_space forward (trim_start forward l) = false.
Proof.
  remember (length l) as n eqn:Hn. revert l Hn.
  induction n as [n IH] using lt_wf_ind. intros l Hn.
  destruct l as [|a l1]; [by exists []|]. cbn [trim_start].
  destruct (space1 a) eqn:H1.
  { destruct (IH (length l1) ltac:(cbn in Hn; lia) l1 eq_refl) as (f & Hf & Hl & Hs).
    exists ([a] :: f). split; [constructor; [by apply space1_whiteSpace|done]|].
    split; [|done]. cbn. destruct forward; cbn; by rewrite <- Hl. }
  destruct l1 as [|b l2].
  { exists []. split; [done|]. split; [done|]. cbn. by rewrite H1. }
  destruct (if forward then space2 a b else space2 b a) eqn:H2.
  { destruct (IH (length l2) ltac:(cbn in Hn; lia) l2 eq_refl) as (f & Hf & Hl & Hs).
    exists ((if forward then [a; b] else [b; a]) :: f).
    split; [constructor; [destruct forward; by apply space2_whiteSpace|done]|].
    split; [|done]. cbn. destruct forward; cbn; by rewrite <- Hl. }
  destruct l2 as [|c l3].
  { exists []. split; [done|]. split; [done|]. cbn. by rewrite H1, H2. }
  destruct (if forward then space3 a b c else space3 c b a) eqn:H3.
  { destruct (IH (length l3) ltac:(cbn in Hn; lia) l3 eq_refl) as (f & Hf & Hl & Hs).
    exists ((if forward then [a; b; c] else [c; b; a]) :: f).
    split; [constructor; [destruct forward; by apply space3_whiteSpace|done]|].
    split; [|done]. cbn. destruct forward; cbn; by rewrite <- Hl. }
  exists []. split; [done|]. split; [done|]. cbn. by rewrite H1, H2, H3.
Qed.

Lemma rev_concat_rev (f : list (list ascii)) :
  rev (concat (@rev ascii <$> f)) = concat (rev f).
Proof.
  induction f as [|x f IH]; [done|]. cbn.
  rewrite rev_app_distr, rev_involutive, IH, concat_app. cbn. by rewrite app_nil_r.
Qed.

(** What [trim] does, in terms of the white space characters. *)
Lemma trim_spec (s : string) :
  exists front back,
    Forall (.∈ whiteSpace) front /\ Forall (.∈ whiteSpace) back /\
    String.list_ascii_of_string s
    = concat front ++ String.list_ascii_of_string (trim s) ++ concat back /\
    forall ws, ws ∈ whiteSpace ->
      ~ ws `prefix_of` String.list_ascii_of_string (trim s) /\
      ~ ws `suffix_of` String.list_ascii_of_string (trim s).
Proof.
  unfold trim. rewrite String.list_ascii_of_string_of_list_ascii.
  destruct (trim_start_spec true (String.list_ascii_of_string s)) as (f & Hf & Hl & Hs).
  set (m := trim_start true (String.list_ascii_of_string s)) in *.
  destruct (trim_start_spec false (rev m)) as (g & Hg & Hm & Hr).
  set (r := trim_start false (rev m)) in *.
  assert (Hm' : m = rev r ++ concat (rev g)).
  { rewrite <- (rev_involutive m), Hm, rev_app_distr. by rewrite rev_concat_rev. }
  exists f, (rev g). split; [done|]. split; [by apply Forall_rev|].
  split.
  { rewrite Hl at 1. rewrite Hm' at 1.
    replace (orient true <$> f) with f; [done|].
    clear. induction f; [done|]. cbn. by f_equal. }
  intros ws Hws. split.
  - intros Hp. assert (orient true ws `prefix_of` m) as Hpm.
    { rewrite Hm'. by apply prefix_app_r. }
    apply (whiteSpace_starts true) in Hpm; [|done]. congruence.
  - intros [k Hk]. assert (orient false ws `prefix_of` r) as Hpr.
    { exists (rev k). unfold orient. rewrite <- rev_app_distr, <- Hk.
      by rewrite rev_involutive. }
    apply (whiteSpace_starts false) in Hpr; [|done]. congruence.
Qed.

Lemma validateAuthRequest_accepted body authReq :
  validateAuthRequest body = inr authReq ->
  exists req u,
    body = Some req /\
    b_username req = JsString u /\ username authReq = trim u /\
    username authReq <> "" /\
    b_password req = JsString (password authReq) /\ password authReq <> "" /\
    (forall h, host authReq = Some h -> h <> "") /\
    (forall n, port authReq = Some n -> 1 <= n <= 65535) /\
    (forall n, duration authReq = Some n -> 1 <= n <= 86400).
Proof.
  intros H. unfold validateAuthRequest in H.
  destruct body as [req|]; [|done].
  destruct (b_username req) as [| | | |u|] eqn:Hu; try done.
  destruct (decide (trim u = "")) as [|Hne]; [done|].
  destruct (b_password req) as [| | | |p|] eqn:Hp; try done.
  destruct (decide (p = "")) as [|Hpne]; [done|].
  cbv zeta in H. exists req, u.
  destruct (b_host req) as [| |?|?|h|] eqn:Hh;
  destruct (b_port req) as [| |?|pn|?|] eqn:Hpo;
  destruct (b_duration req) as [| |?|dn|?|] eqn:Hd;
    repeat match type of H with
           | (if ?b then _ else _) = _ => destruct b eqn:?; [done|]
           end;
    cbn in H; simplify_eq/=;
    repeat match goal with
           | |- _ /\ _ => split
           end; try done;
    intros ? ?; simplify_eq;
    first [ by apply in_range | by eapply bool_decide_eq_false ].
Qed.

(** X22.  [validateAuthRequest] accepts well-formed bodies only: an
    accepted body is an object whose [username] is a string, returned with
    the white space characters of ECMAScript stripped from both ends and
    nothing else removed: what is returned neither begins nor ends with a
    white space character, and it is not empty.  Its [password] is a
    non-empty string, returned as given; a host, when present, is not
    blank; a port, when present, lies in 1..65535 and a duration in
    1..86400. *)
Theorem validateAuthRequest_accepts_only_wellformed body authReq :
  validateAuthRequest body = inr authReq ->
  exists req u front back,
    body = Some req /\
    b_username req = JsString u /\ username authReq = trim u /\
    Forall (.∈ whiteSpace) front /\ Forall (.∈ whiteSpace) back /\
    String.list_ascii_of_string u
    = concat front ++ String.list_ascii_of_string (username authReq) ++ concat back /\
    (forall ws, ws ∈ whiteSpace ->
       ~ ws `prefix_of` String.list_ascii_of_string (username authReq) /\
       ~ ws `suffix_of` String.list_ascii_of_string (username authReq)) /\
    username authReq <> "" /\
    b_password req = JsString (password authReq) /\ password authReq <> "" /\
    (forall h, host authReq = Some h -> h <> "") /\
    (forall n, port authReq = Some n -> 1 <= n <= 65535) /\
    (forall n, duration authReq = Some n -> 1 <= n <= 86400).
Proof.
  intros H.
  destruct (validateAuthRequest_accepted _ _ H) as (req & u & Hb & Hu & Ht & Hne & Hrest).
  destruct (trim_spec u) as (front & back & Hf & Hk & Hbytes & Hends).
  exists req, u, front, back. rewrite Ht in Hne |- *.
  split; [done|]. split; [done|]. split; [done|]. split; [done|]. split; [done|].
  split; [done|]. split; [done|]. split; [done|]. exact Hrest.
Qed.

Lemma authRateLimitMiddleware_other ip now a ip' :
  ip' <> ip ->
  (AuthThrottle.authRateLimitMiddleware ip now a).2 !! ip' = a !! ip'.
Proof.
  intros Hne. unfold AuthThrottle.authRateLimitMiddleware.
  destruct (a !! ip) as [e|] eqn:He; cbn.
  - destruct (AuthThrottle.resetAt e <? now); cbn.
    + rewrite lookup_delete_eq. cbn. by rewrite lookup_delete_ne.
    + rewrite He. by destruct (_ >=? _).
  - by rewrite He.
Qed.

Lemma recordFailedAuthAttempt_other ip now a ip' :
  ip' <> ip -> AuthThrottle.recordFailedAuthAttempt ip now a !! ip' = a !! ip'.
Proof.
  intros Hne. unfold AuthThrottle.recordFailedAuthAttempt.
  destruct (a !! ip) as [e|]; [destruct (_ >? _)|]; by rewrite lookup_insert_ne.
Qed.

Lemma testPoolId_nonempty s : testPoolId s <> "".
Proof. unfold testPoolId. cbn. discriminate. Qed.

(** The pool that answered a probe that succeeded. *)
Lemma credentialProbe_connected s dbConfig r r' :
  credentialProbe s dbConfig r = (inr (), r') ->
  exists p,
    (sessionPools r !! testPoolId s = Some p \/
     (sessionPools r !! testPoolId s = None /\ jt400_pool s dbConfig = Ok p)) /\
    query_ok p = true.
Proof.
  assert (Htest : forall r1,
            testSessionConnection (globalPool s) (testPoolId s) r1
            = match sessionPools r1 !! testPoolId s with
              | Some p => query_ok p
              | None => false
              end).
  { intros r1. unfold testSessionConnection.
    by rewrite decide_False by apply testPoolId_nonempty. }
  unfold credentialProbe, initializeSessionPool. cbv zeta.
  destruct (sessionPools r !! testPoolId s) as [p|] eqn:Hp.
  - rewrite Htest, Hp. destruct (query_ok p) eqn:Hq; [|done]. intros _. exists p.
    split; [by left|done].
  - destruct (jt400_pool s dbConfig) as [p|msg] eqn:Hdrv; [|done].
    rewrite Htest. cbn. rewrite lookup_insert_eq.
    destruct (query_ok p) eqn:Hq; [|done]. intros _. exists p.
    split; [by right|done].
Qed.

(** X23.  A token is issued only after the credentials have been probed.
    When [POST /auth] answers 201, the server is in required mode, the body
    passed validation and configuration loading, the pool used by the
    probe (the one the driver opened for the submitted configuration, or
    one already registered under the probe's id) answered the probe query,
    fewer than [maxSessions] tokens were stored, and the token is stored
    with the probed configuration, created at the instant of the request
    and expiring at the instant answered, beside the tokens stored before.
    When it answers 500 all of this holds as well, except that the expiry
    of the stored token is an Invalid Date (the sum of the instant and the
    lifetime is out of range), which the handler fails to print: the
    token stays stored although the client does not receive it.  Every
    other answer leaves the token manager as it was. *)
Theorem token_issued_only_after_probe httpConfig s body w resp w' :
  authPost httpConfig s body w = (resp, w') ->
  let issued (tok : string) (expiry : TimeValue) : Prop :=
    authMode httpConfig = AuthRequired /\
    exists authReq dbConfig p,
      validateAuthRequest body = inr authReq /\
      loadPartialConfig s authReq = Ok dbConfig /\
      (sessionPools (pools w) !! testPoolId s = Some p \/
       (sessionPools (pools w) !! testPoolId s = None /\
        jt400_pool s dbConfig = Ok p)) /\
      query_ok p = true /\
      tok = generateTokenString s /\
      Z.of_nat (size (TokenManager.sessions (tokens w))) < maxSessions httpConfig /\
      expiry = newDate (now s + default (tokenExpiry httpConfig) (duration authReq)
                                * 1000) /\
      TokenManager.sessions (tokens w') !! tok
      = Some {| TokenManager.token := tok; TokenManager.config := dbConfig;
                TokenManager.createdAt := now s;
                TokenManager.expiresAt := expiry;
                TokenManager.lastUsedAt := now s;
                TokenManager.mcpSessionId := None |} /\
      forall other, other <> tok ->
        TokenManager.sessions (tokens w') !! other
        = TokenManager.sessions (tokens w) !! other in
  match resp with
  | AuthResponse tok expires_in expires_at => issued tok (Some expires_at)
  | ErrorResponse status _ _ =>
      if decide (status = 500) then issued (generateTokenString s) None
      else tokens w' = tokens w
  | _ => tokens w' = tokens w
  end.
Proof.
  cbv zeta. unfold authPost.
  destruct (AuthThrottle.authRateLimitMiddleware _ _ _) as [[retry|[]] a].
  { by intros [= <- <-]. }
  unfold authHandler. cbn [authMode tokens pools with_authAttempts].
  destruct (authMode httpConfig) eqn:Hmode;
    try (intros [= <- <-]; by rewrite decide_False by lia).
  destruct (validateAuthRequest body) as [err|authReq] eqn:Hv;
    [intros [= <- <-]; by rewrite decide_False by lia|].
  destruct (loadPartialConfig s authReq) as [dbConfig|msg] eqn:Hcfg;
    [|intros [= <- <-]; by rewrite decide_False by lia].
  destruct (credentialProbe s dbConfig (pools w)) as [[descr|[]] r] eqn:Hprobe;
    [intros [= <- <-]; by rewrite decide_False by lia|].
  apply credentialProbe_connected in Hprobe as (p & Hpool & Hq).
  cbv zeta. unfold TokenManager.canCreateSession, TokenManager.createSession.
  cbn [tokens pools with_pools with_tokens with_authAttempts].
  destruct (Z.ltb_spec (Z.of_nat (size (TokenManager.sessions (tokens w))))
              (maxSessions httpConfig)) as [Hlt|Hge]; cbn [negb];
    [|intros [= <- <-]; by rewrite decide_False by lia].
  destruct (Z.geb_spec (Z.of_nat (size (TokenManager.sessions (tokens w))))
              (maxSessions httpConfig)) as [Hge|_]; [lia|].
  cbn [TokenManager.cr_expiresAt TokenManager.cr_token TokenManager.cr_expiresIn].
  destruct (newDate (now s + default (tokenExpiry httpConfig) (duration authReq) * 1000))
    as [x|] eqn:Hd; intros [= <- <-]; cbn; rewrite ?decide_True by done;
    (split; [done|]); exists authReq, dbConfig, p; rewrite lookup_insert_eq;
    (repeat split; try done); intros other Hne; by rewrite lookup_insert_ne.
Qed.

(** X24.  What [POST /auth] does to the login throttle.  A 400 or 401
    answer records one failed attempt of the client; a 201 answer clears
    the client's entry, and so does a 500 answer, which is given after the
    entry has been cleared; every other answer (404, 429, 503) records
    nothing; the entries of other clients are never touched; and a 429
    answer leaves the pools and the tokens as they were. *)
Theorem auth_attempts_accounting httpConfig s body w resp w' :
  authPost httpConfig s body w = (resp, w') ->
  let a1 := (AuthThrottle.authRateLimitMiddleware
               (clientIp s) (now s) (authAttempts w)).2 in
  authAttempts w'
  = match resp with
    | ErrorResponse status _ _ =>
        if decide (status = 400 \/ status = 401)
        then AuthThrottle.recordFailedAuthAttempt (clientIp s) (now s) a1
        else if decide (status = 500)
             then AuthThrottle.clearAuthRateLimit (clientIp s) a1
             else a1
    | AuthResponse _ _ _ => AuthThrottle.clearAuthRateLimit (clientIp s) a1
    | _ => a1
    end /\
  (forall ip, ip <> clientIp s -> authAttempts w' !! ip = authAttempts w !! ip) /\
  (forall retry_after, resp = TooManyRequests retry_after ->
     pools w' = pools w /\ tokens w' = tokens w).
Proof.
  intros H. cbv zeta.
  assert (Hfirst : authAttempts w'
    = match resp with
      | ErrorResponse status _ _ =>
          if decide (status = 400 \/ status = 401)
          then AuthThrottle.recordFailedAuthAttempt (clientIp s) (now s)
                 (AuthThrottle.authRateLimitMiddleware
                    (clientIp s) (now s) (authAttempts w)).2
          else if decide (status = 500)
               then AuthThrottle.clearAuthRateLimit (clientIp s)
                      (AuthThrottle.authRateLimitMiddleware
                         (clientIp s) (now s) (authAttempts w)).2
               else (AuthThrottle.authRateLimitMiddleware
                       (clientIp s) (now s) (authAttempts w)).2
      | AuthResponse _ _ _ =>
          AuthThrottle.clearAuthRateLimit (clientIp s)
            (AuthThrottle.authRateLimitMiddleware
               (clientIp s) (now s) (authAttempts w)).2
      | _ => (AuthThrottle.authRateLimitMiddleware
                (clientIp s) (now s) (authAttempts w)).2
      end /\
    (forall retry_after, resp = TooManyRequests retry_after ->
       pools w' = pools w /\ tokens w' = tokens w)).
  { unfold authPost in H.
    destruct (AuthThrottle.authRateLimitMiddleware _ _ _) as [[retry|[]] a].
    { by injection H as <- <-. }
    unfold authHandler in H.
    cbn [authMode tokens pools with_authAttempts] in H.
    destruct (authMode httpConfig) eqn:Hmode;
      try (injection H as <- <-; split; [by rewrite !decide_False by lia|done]).
    destruct (validateAuthRequest body) as [err|authReq] eqn:Hv.
    { injection H as <- <-. split; [by rewrite decide_True by lia|done]. }
    destruct (loadPartialConfig s authReq) as [dbConfig|msg] eqn:Hcfg;
      [|injection H as <- <-; split; [by rewrite decide_True by lia|done]].
    destruct (credentialProbe s dbConfig (pools w)) as [[descr|[]] r] eqn:Hprobe.
    { injection H as <- <-. split; [by rewrite decide_True by lia|done]. }
    cbv zeta in H. unfold TokenManager.canCreateSession, TokenManager.createSession in H.
    cbn [tokens pools with_pools with_tokens with_authAttempts] in H.
    destruct (Z.ltb_spec (Z.of_nat (size (TokenManager.sessions (tokens w))))
                (maxSessions httpConfig)) as [Hlt|Hge]; cbn [negb] in H.
    2:{ injection H as <- <-. split; [by rewrite !decide_False by lia|done]. }
    destruct (Z.geb_spec (Z.of_nat (size (TokenManager.sessions (tokens w))))
                (maxSessions httpConfig)) as [Hge|_]; [lia|].
    cbn [TokenManager.cr_expiresAt TokenManager.cr_token TokenManager.cr_expiresIn] in H.
    destruct (newDate _) as [x|]; injection H as <- <-; cbn.
    - done.
    - split; [|done]. rewrite decide_False by lia. by rewrite decide_True. }
  destruct Hfirst as [Ha Hblocked]. split; [exact Ha|]. split; [|exact Hblocked].
  intros ip Hne. rewrite Ha.
  pose proof (authRateLimitMiddleware_other (clientIp s) (now s) (authAttempts w) ip Hne)
    as Hmw.
  destruct resp as [status ? ?| | | | | |]; try exact Hmw.
  - destruct (decide _); [by rewrite recordFailedAuthAttempt_other|].
    destruct (decide _); [|exact Hmw].
    unfold AuthThrottle.clearAuthRateLimit. by rewrite lookup_delete_ne.
  - unfold AuthThrottle.clearAuthRateLimit. by rewrite lookup_delete_ne.
Qed.

Lemma with_tokens_same w : with_tokens (tokens w) w = w.
Proof. by destruct w. Qed.

Lemma with_mcp_same w : with_mcp (mcp w) w = w.
Proof. by destruct w. Qed.

Lemma authMiddleware_outcome httpConfig bearer now t out t' :
  authMiddleware httpConfig bearer now t = (out, t') ->
  match out with
  | inl resp =>
      (exists e d, resp = ErrorResponse 401 e d) /\
      (t' = t \/
       exists tok sess, bearer = Some tok /\
         TokenManager.sessions t !! tok = Some sess /\
         later_than now (TokenManager.expiresAt sess) = true /\
         t' = TokenManager.with_sessions (delete tok (TokenManager.sessions t)) t)
  | inr ctx =>
      match authMode httpConfig with
      | AuthNone => ctx = {| tokenSession := None; authToken := None |} /\ t' = t
      | AuthToken =>
          exists tok, bearer = Some tok /\ tok <> "" /\
            staticToken httpConfig = Some tok /\
            ctx = {| tokenSession := None; authToken := Some tok |} /\ t' = t
      | AuthRequired =>
          exists tok sess, bearer = Some tok /\ tok <> "" /\
            TokenManager.sessions t !! tok = Some sess /\
            later_than now (TokenManager.expiresAt sess) = false /\
            let sess' :=
              {| TokenManager.token := TokenManager.token sess;
                 TokenManager.config := TokenManager.config sess;
                 TokenManager.createdAt := TokenManager.createdAt sess;
                 TokenManager.expiresAt := TokenManager.expiresAt sess;
                 TokenManager.lastUsedAt := now;
                 TokenManager.mcpSessionId := TokenManager.mcpSessionId sess |} in
            ctx = {| tokenSession := Some sess'; authToken := Some tok |} /\
            t' = TokenManager.with_sessions (<[tok := sess']> (TokenManager.sessions t)) t
      end
  end.
Proof.
  unfold authMiddleware, unauthorized. destruct (authMode httpConfig).
  - destruct bearer as [tok|]; [|intros [= <- <-]; split; [by do 2 eexists|by left]].
    destruct (decide (tok = "")) as [|Hne];
      [intros [= <- <-]; split; [by do 2 eexists|by left]|].
    unfold TokenManager.validateToken. rewrite decide_False by done.
    destruct (TokenManager.sessions t !! tok) as [sess|] eqn:Hs; cbn.
    + destruct (later_than now (TokenManager.expiresAt sess)) eqn:Hexp; cbn.
      * intros [= <- <-]. split; [by do 2 eexists|]. right. by exists tok, sess.
      * intros [= <- <-]. exists tok, sess. cbn. repeat split; done.
    + intros [= <- <-]. split; [by do 2 eexists|by left].
  - destruct bearer as [tok|]; [|intros [= <- <-]; split; [by do 2 eexists|by left]].
    destruct (decide (tok = "")) as [|Hne];
      [intros [= <- <-]; split; [by do 2 eexists|by left]|].
    destruct (decide (tok = default "" (staticToken httpConfig))) as [Heq|].
    + intros [= <- <-]. exists tok. repeat split; try done.
      destruct (staticToken httpConfig); cbn in Heq; by subst.
    + intros [= <- <-]. split; [by do 2 eexists|by left].
  - by intros [= <- <-].
Qed.

(** X25.  [POST /mcp] admits authenticated requests only.  Unless the
    mode is none, a request that is not answered 401 by the middleware
    carried an [Authorization] header made of the scheme [bearer], in any
    letter case, one space and a non-empty token, and that token is the
    configured static token in token mode, and a stored token that has not
    expired at the instant of the request in required mode: the test
    [now > expiresAt] is false of it, as it is of a date not yet passed
    and of an Invalid Date. *)
Theorem mcp_post_admits_only_authenticated httpConfig s authorization sessionId
    isInitializeRequest w resp w' :
  authMode httpConfig <> AuthNone ->
  postMcpWithHeader httpConfig s authorization sessionId isInitializeRequest w
  = (resp, w') ->
  (forall e d, resp <> ErrorResponse 401 e d) ->
  exists scheme tok,
    authorization = Some (scheme +:+ String " " tok) /\
    AuthHeader.toLowerCase scheme = "bearer" /\
    tok <> "" /\
    match authMode httpConfig with
    | AuthToken => staticToken httpConfig = Some tok
    | _ => exists sess,
             TokenManager.sessions (tokens w) !! tok = Some sess /\
             later_than (now s) (TokenManager.expiresAt sess) = false
    end.
Proof.
  intros Hmode. unfold postMcpWithHeader, serve, behindAuth.
  destruct (authMiddleware _ _ _ _) as [[r|ctx] t] eqn:Hmw;
    apply authMiddleware_outcome in Hmw.
  - intros [= <- <-] Hne. destruct Hmw as [(e & d & ->) _]. by destruct (Hne e d).
  - intros _ _. destruct (authMode httpConfig); [|..|done].
    + destruct Hmw as (tok & sess & Hb & Hne & Hs & Hexp & _).
      apply AuthHeaderExtras.extractBearerToken_Some in Hb as (scheme & -> & _ & _ & Hl).
      exists scheme, tok. repeat split; try done. by exists sess.
    + destruct Hmw as (tok & Hb & Hne & Hst & _).
      apply AuthHeaderExtras.extractBearerToken_Some in Hb as (scheme & -> & _ & _ & Hl).
      by exists scheme, tok.
Qed.

(** X26.  A stateless [POST /mcp] keeps no state.  In stateless mode the
    handler stores no MCP session, touches no token, closes no pool and
    keeps every registered pool; it closes the one server it created, if
    it got that far; and a request that was dispatched ran on a server
    created for it, with the pool of its session key registered. *)
Theorem stateless_request_keeps_no_state httpConfig s ctx sessionId
    isInitializeRequest w resp w' :
  sessionMode httpConfig = stateless ->
  mcpPostHandler httpConfig s ctx sessionId isInitializeRequest w = (resp, w') ->
  mcp w' = mcp w /\ tokens w' = tokens w /\
  closeCalls (pools w') = closeCalls (pools w) /\
  (forall k p, sessionPools (pools w) !! k = Some p ->
               sessionPools (pools w') !! k = Some p) /\
  (serverCloses w' = serverCloses w \/
   exists srv, createMcpServer s = Ok srv /\ serverCloses w' = serverCloses w ++ [srv]) /\
  (resp = Dispatched ->
   exists dbConfig sessionKey srv,
     selectSessionKey httpConfig s ctx = inr (dbConfig, sessionKey) /\
     is_Some (sessionPools (pools w') !! sessionKey) /\
     createMcpServer s = Ok srv /\ serverCloses w' = serverCloses w ++ [srv]).
Proof.
  intros Hmode. unfold mcpPostHandler. rewrite Hmode.
  destruct (selectSessionKey httpConfig s ctx) as [r|[dbConfig sessionKey]] eqn:Hkey.
  { intros [= <- <-]. repeat split; try done; [by left|].
    intros ->. unfold selectSessionKey in Hkey.
    destruct (authMode httpConfig); repeat case_match; simplify_eq. }
  unfold statelessRequest.
  destruct (initializeSessionPool _ _ _ _) as [[[]|msg] r] eqn:Hinit.
  - pose proof (HttpClaims.initializeSessionPool_ok _ _ _ _ _ Hinit) as [Hreg Hcalls].
    assert (Hkeep : forall k p, sessionPools (pools w) !! k = Some p ->
                                sessionPools r !! k = Some p).
    { intros k p Hk. unfold initializeSessionPool in Hinit.
      destruct (sessionPools (pools w) !! sessionKey) eqn:Hsk; [by simplify_eq|].
      destruct (jt400_pool s dbConfig); simplify_eq. cbn.
      rewrite lookup_insert_ne; [done|]. intros <-. congruence. }
    destruct (createMcpServer s) as [srv|msg] eqn:Hsrv.
    + assert (Hsrv' : exists srv0, Ok srv = Ok srv0 /\
                serverCloses w ++ [srv] = serverCloses w ++ [srv0]) by (by exists srv).
      destruct (connect s) as [[]|msg]; [destruct (handleRequest s) as [[]|msg]|];
        intros [= <- <-]; cbn; repeat split; try done; try (by right).
      intros _. by exists dbConfig, sessionKey, srv.
    + intros [= <- <-]. cbn. repeat split; try done. by left.
  - apply HttpClaims.initializeSessionPool_throw in Hinit as ->.
    intros [= <- <-]. cbn. repeat split; try done. by left.
Qed.

Lemma existingSession_begin_effect s sessionId w :
  match SessionManager.sessions (mcp w) !! sessionId with
  | Some sess =>
      if SessionManager.isClosing sess
      then existingSession_begin s sessionId w
           = (inl (JsonRpcError 404 (-32001) "Session not found or expired"), w)
      else existingSession_begin s sessionId w
           = (inr (),
              with_mcp
                {| SessionManager.sessions :=
                     <[sessionId :=
                         SessionManager.set_lastAccessedAt (now s)
                           (SessionManager.set_activeRequests
                              (SessionManager.activeRequests sess + 1) sess)]>
                       (SessionManager.sessions (mcp w));
                   SessionManager.calls := SessionManager.calls (mcp w) |} w)
  | None =>
      existingSession_begin s sessionId w
      = (inl (JsonRpcError 404 (-32001) "Session not found or expired"), w)
  end.
Proof.
  unfold existingSession_begin, SessionManager.getSession.
  destruct (SessionManager.sessions (mcp w) !! sessionId) as [sess|] eqn:Hs.
  2:{ by rewrite with_mcp_same. }
  destruct (SessionManager.isClosing sess) eqn:Hc.
  { by rewrite with_mcp_same. }
  unfold SessionManager.incrementActiveRequests. cbn.
  rewrite lookup_insert_eq. cbn. by rewrite insert_insert_eq.
Qed.

Lemma existingSession_end_effect s sessionId w :
  existingSession_end s sessionId w
  = (match handleRequest s with Ok _ => Dispatched | Throw _ => internal_error end,
     with_mcp
       match SessionManager.sessions (mcp w) !! sessionId with
       | Some sess =>
           if SessionManager.activeRequests sess >? 0
           then {| SessionManager.sessions :=
                     <[sessionId :=
                         SessionManager.set_lastAccessedAt (settledAt s)
                           (SessionManager.set_activeRequests
                              (SessionManager.activeRequests sess - 1) sess)]>
                       (SessionManager.sessions (mcp w));
                   SessionManager.calls := SessionManager.calls (mcp w) |}
           else mcp w
       | None => mcp w
       end w).
Proof.
  unfold existingSession_end, SessionManager.decrementActiveRequests.
  destruct (handleRequest s); by destruct (SessionManager.sessions (mcp w) !! sessionId).
Qed.

(** X27.  A request on an existing session, in stateful mode.  Up to
    the [await]: for an id that is unknown or being closed the handler
    answers 404 and changes nothing; otherwise it stamps the session with
    the instant of arrival and counts the request on it.  After the
    [await], whatever has run in between: the handler answers, and if the
    session is still stored with a positive count it gives the request
    back and stamps the session with the instant at which the call
    settled; a session that is gone is not brought back.  Neither half
    touches tokens, pools, servers, the trace of close calls or another
    session.  Hence, with nothing else scheduled during the [await], a
    request on a session that is not being closed and has a count that is
    not negative leaves it as it was but for [lastAccessedAt], the instant
    at which the call settled. *)
Theorem existing_session_request s sessionId :
  (forall w out w1,
     existingSession_begin s sessionId w = (out, w1) ->
     tokens w1 = tokens w /\ pools w1 = pools w /\
     serverCloses w1 = serverCloses w /\
     SessionManager.calls (mcp w1) = SessionManager.calls (mcp w) /\
     (forall other, other <> sessionId ->
        SessionManager.sessions (mcp w1) !! other
        = SessionManager.sessions (mcp w) !! other) /\
     match SessionManager.sessions (mcp w) !! sessionId with
     | Some sess =>
         if SessionManager.isClosing sess
         then out = inl (JsonRpcError 404 (-32001) "Session not found or expired") /\
              w1 = w
         else out = inr () /\
              SessionManager.sessions (mcp w1) !! sessionId
              = Some (SessionManager.set_lastAccessedAt (now s)
                        (SessionManager.set_activeRequests
                           (SessionManager.activeRequests sess + 1) sess))
     | None =>
         out = inl (JsonRpcError 404 (-32001) "Session not found or expired") /\
         w1 = w
     end) /\
  (forall w resp w',
     existingSession_end s sessionId w = (resp, w') ->
     (resp = Dispatched \/ resp = internal_error) /\
     tokens w' = tokens w /\ pools w' = pools w /\
     serverCloses w' = serverCloses w /\
     SessionManager.calls (mcp w') = SessionManager.calls (mcp w) /\
     (forall other, other <> sessionId ->
        SessionManager.sessions (mcp w') !! other
        = SessionManager.sessions (mcp w) !! other) /\
     SessionManager.sessions (mcp w') !! sessionId
     = match SessionManager.sessions (mcp w) !! sessionId with
       | Some sess =>
           Some (if SessionManager.activeRequests sess >? 0
                 then SessionManager.set_lastAccessedAt (settledAt s)
                        (SessionManager.set_activeRequests
                           (SessionManager.activeRequests sess - 1) sess)
                 else sess)
       | None => None
       end) /\
  (forall w resp w',
     existingSession s sessionId w = (resp, w') ->
     tokens w' = tokens w /\ pools w' = pools w /\
     serverCloses w' = serverCloses w /\
     SessionManager.calls (mcp w') = SessionManager.calls (mcp w) /\
     (forall other, other <> sessionId ->
        SessionManager.sessions (mcp w') !! other
        = SessionManager.sessions (mcp w) !! other) /\
     match SessionManager.sessions (mcp w) !! sessionId with
     | Some sess =>
         if SessionManager.isClosing sess
         then resp = JsonRpcError 404 (-32001) "Session not found or expired" /\ w' = w
         else (resp = Dispatched \/ resp = internal_error) /\
              (0 <= SessionManager.activeRequests sess ->
               SessionManager.sessions (mcp w') !! sessionId
               = Some (SessionManager.set_lastAccessedAt (settledAt s) sess))
     | None => resp = JsonRpcError 404 (-32001) "Session not found or expired" /\ w' = w
     end).
Proof.
  assert (Hbegin : forall w out w1,
     existingSession_begin s sessionId w = (out, w1) ->
     tokens w1 = tokens w /\ pools w1 = pools w /\
     serverCloses w1 = serverCloses w /\
     SessionManager.calls (mcp w1) = SessionManager.calls (mcp w) /\
     (forall other, other <> sessionId ->
        SessionManager.sessions (mcp w1) !! other
        = SessionManager.sessions (mcp w) !! other) /\
     match SessionManager.sessions (mcp w) !! sessionId with
     | Some sess =>
         if SessionManager.isClosing sess
         then out = inl (JsonRpcError 404 (-32001) "Session not found or expired") /\
              w1 = w
         else out = inr () /\
              SessionManager.sessions (mcp w1) !! sessionId
              = Some (SessionManager.set_lastAccessedAt (now s)
                        (SessionManager.set_activeRequests
                           (SessionManager.activeRequests sess + 1) sess))
     | None =>
         out = inl (JsonRpcError 404 (-32001) "Session not found or expired") /\
         w1 = w
     end).
  { intros w out w1 H. pose proof (existingSession_begin_effect s sessionId w) as He.
    destruct (SessionManager.sessions (mcp w) !! sessionId) as [sess|] eqn:Hs.
    2:{ rewrite He in H. by injection H as <- <-. }
    destruct (SessionManager.isClosing sess).
    { rewrite He in H. by injection H as <- <-. }
    rewrite He in H. injection H as <- <-. cbn. repeat split; try done.
    - intros other Hne. by rewrite lookup_insert_ne.
    - by rewrite lookup_insert_eq. }
  assert (Hend : forall w resp w',
     existingSession_end s sessionId w = (resp, w') ->
     (resp = Dispatched \/ resp = internal_error) /\
     tokens w' = tokens w /\ pools w' = pools w /\
     serverCloses w' = serverCloses w /\
     SessionManager.calls (mcp w') = SessionManager.calls (mcp w) /\
     (forall other, other <> sessionId ->
        SessionManager.sessions (mcp w') !! other
        = SessionManager.sessions (mcp w) !! other) /\
     SessionManager.sessions (mcp w') !! sessionId
     = match SessionManager.sessions (mcp w) !! sessionId with
       | Some sess =>
           Some (if SessionManager.activeRequests sess >? 0
                 then SessionManager.set_lastAccessedAt (settledAt s)
                        (SessionManager.set_activeRequests
                           (SessionManager.activeRequests sess - 1) sess)
                 else sess)
       | None => None
       end).
  { intros w resp w' H. rewrite existingSession_end_effect in H.
    injection H as <- <-. cbn.
    split; [destruct (handleRequest s); [by left|by right]|].
    destruct (SessionManager.sessions (mcp w) !! sessionId) as [sess|] eqn:Hs.
    2:{ by rewrite Hs. }
    destruct (SessionManager.activeRequests sess >? 0); cbn.
    - repeat split; try done.
      + intros other Hne. by rewrite lookup_insert_ne.
      + by rewrite lookup_insert_eq.
    - by rewrite Hs. }
  split; [exact Hbegin|]. split; [exact Hend|].
  intros w resp w'. unfold existingSession.
  destruct (existingSession_begin s sessionId w) as [[r|[]] w1] eqn:Hb.
  - intros [= <- <-]. destruct (Hbegin _ _ _ Hb) as (Ht & Hp & Hsc & Hc & Ho & Hcase).
    repeat split; try done.
    destruct (SessionManager.sessions (mcp w) !! sessionId) as [sess|];
      [|by destruct Hcase as [[= ->] ->]].
    destruct (SessionManager.isClosing sess); [|by destruct Hcase].
    destruct Hcase as [[= ->] ->]. done.
  - intros He. destruct (Hbegin _ _ _ Hb) as (Ht & Hp & Hsc & Hc & Ho & Hcase).
    destruct (Hend _ _ _ He) as (Hr & Ht' & Hp' & Hsc' & Hc' & Ho' & Hs').
    split; [congruence|]. split; [congruence|]. split; [congruence|].
    split; [congruence|]. split.
    { intros other Hne. rewrite (Ho' other Hne). by apply Ho. }
    destruct (SessionManager.sessions (mcp w) !! sessionId) as [sess|]; [|by destruct Hcase].
    destruct (SessionManager.isClosing sess); [by destruct Hcase|].
    destruct Hcase as [_ Hs1]. split; [done|]. intros Hnn.
    rewrite Hs', Hs1. cbn.
    destruct (Z.gtb_spec (SessionManager.activeRequests sess + 1) 0); [|lia].
    f_equal. unfold SessionManager.set_lastAccessedAt, SessionManager.set_activeRequests.
    cbn. destruct sess; cbn. f_equal. lia.
Qed.

Lemma serve_env_mode httpConfig s req w :
  authMode httpConfig <> AuthRequired ->
  tokens (serve httpConfig s req w).2 = tokens w /\
  closeCalls (pools (serve httpConfig s req w).2) = closeCalls (pools w) /\
  forall k, is_Some (sessionPools (pools (serve httpConfig s req w).2) !! k) ->
            k = "global" \/ is_Some (sessionPools (pools w) !! k).
Proof.
  intros Hmode.
  assert (Hinit : forall dbConfig r0 res r1,
            initializeSessionPool (jt400_pool s) "global" dbConfig r0 = (res, r1) ->
            closeCalls r1 = closeCalls r0 /\
            forall k, is_Some (sessionPools r1 !! k) ->
                      k = "global" \/ is_Some (sessionPools r0 !! k)).
  { intros dbConfig r0 res r1. unfold initializeSessionPool.
    destruct (sessionPools r0 !! "global"); [intros [= <- <-]; by split; [|right]|].
    destruct (jt400_pool s dbConfig); intros [= <- <-]; cbn; (split; [done|]);
      [|by right].
    intros k. destruct (decide (k = "global")) as [->|Hne]; [by left|].
    rewrite lookup_insert_ne by done. by right. }
  assert (Hmw : forall bearer out t',
            authMiddleware httpConfig bearer (now s) (tokens w) = (out, t') ->
            t' = tokens w).
  { intros bearer out t'. unfold authMiddleware.
    destruct (authMode httpConfig); [done|..]; repeat case_match; by intros [= <- <-]. }
  assert (Hkey : forall ctx dbConfig sessionKey,
            selectSessionKey httpConfig s ctx = inr (dbConfig, sessionKey) ->
            sessionKey = "global").
  { intros ctx dbConfig sessionKey. unfold selectSessionKey.
    destruct (authMode httpConfig); [done|..]; repeat case_match; by intros [= <- <-]. }
  destruct req as [body|bearer sid isInit|bearer sid|bearer sid|]; cbn [serve].
  - unfold authPost. destruct (AuthThrottle.authRateLimitMiddleware _ _ _) as [[?|[]] a];
      cbn; [by split; [|split; [|right]]|].
    unfold authHandler. destruct (authMode httpConfig); [done|..]; cbn;
      by split; [|split; [|right]].
  - unfold behindAuth.
    destruct (authMiddleware _ _ _ _) as [[r|ctx] t] eqn:Hm; apply Hmw in Hm as ->;
      cbn; [by split; [|split; [|right]]|].
    rewrite with_tokens_same. unfold mcpPostHandler.
    destruct (selectSessionKey httpConfig s ctx) as [r|[dbConfig sessionKey]] eqn:Hk;
      cbn; [by split; [|split; [|right]]|].
    apply Hkey in Hk as ->.
    destruct (sessionMode httpConfig).
    + destruct (present sid) as [sid'|].
      * destruct (HttpClaims.existingSession_frame s sid' w) as (-> & -> & _).
        by split; [|split; [|right]].
      * destruct isInit; cbn; [|by split; [|split; [|right]]].
        unfold initializeSession.
        destruct (initializeSessionPool _ _ _ _) as [res r1] eqn:Hi.
        apply Hinit in Hi as [Hc Hkeys].
        unfold initializeCleanup. rewrite decide_False by (by intros ?).
        repeat case_match; cbn; by split; [|split].
    + unfold statelessRequest.
      destruct (initializeSessionPool _ _ _ _) as [res r1] eqn:Hi.
      apply Hinit in Hi as [Hc Hkeys].
      repeat case_match; cbn; by split; [|split].
  - unfold behindAuth.
    destruct (authMiddleware _ _ _ _) as [[r|ctx] t] eqn:Hm; apply Hmw in Hm as ->;
      cbn; [by split; [|split; [|right]]|].
    unfold mcpGetHandler. repeat case_match; cbn; by split; [|split; [|right]].
  - unfold behindAuth.
    destruct (authMiddleware _ _ _ _) as [[r|ctx] t] eqn:Hm; apply Hmw in Hm as ->;
      cbn; [by split; [|split; [|right]]|].
    unfold mcpDeleteHandler. repeat case_match; cbn; by split; [|split; [|right]].
  - cbn. by split; [|split; [|right]].
Qed.

(** X28.  In the modes none and token the only pool is the shared one.
    Whatever requests the server has served since it started, in any
    order, the registry holds no pool under another key than ["global"], no
    pool has been closed, and the token manager is empty and has notified
    nobody. *)
Theorem env_modes_use_only_the_global_pool httpConfig
    (reqs : list (Surroundings * Request)) :
  authMode httpConfig <> AuthRequired ->
  let w := serveAll httpConfig reqs (startHttpServer httpConfig boot) in
  (forall k, is_Some (sessionPools (pools w) !! k) -> k = "global") /\
  closeCalls (pools w) = [] /\
  TokenManager.sessions (tokens w) = ∅ /\
  TokenManager.invoked (tokens w) = [].
Proof.
  intros Hmode. cbv zeta.
  assert (Hgen : forall w0,
            (forall k, is_Some (sessionPools (pools w0) !! k) -> k = "global") ->
            (forall k, is_Some (sessionPools (pools (serveAll httpConfig reqs w0)) !! k) ->
                       k = "global") /\
            closeCalls (pools (serveAll httpConfig reqs w0)) = closeCalls (pools w0) /\
            tokens (serveAll httpConfig reqs w0) = tokens w0).
  { unfold serveAll. induction reqs as [|[s req] reqs IH]; intros w0 H0; [done|].
    cbn [foldl fst snd].
    destruct (serve_env_mode httpConfig s req w0 Hmode) as (Ht & Hc & Hk).
    destruct (IH (serve httpConfig s req w0).2) as (IH1 & IH2 & IH3).
    { intros k Hin. destruct (Hk k Hin) as [->|Hin0]; [done|by apply H0]. }
    split; [exact IH1|]. split; congruence. }
  destruct (Hgen (startHttpServer httpConfig boot)) as (H1 & H2 & H3).
  { unfold startHttpServer. destruct (authMode httpConfig); [done|..]; cbn;
      intros k [p Hp]; by rewrite lookup_empty in Hp. }
  split; [exact H1|]. rewrite H2, H3.
  unfold startHttpServer. by destruct (authMode httpConfig).
Qed.

(** X29.  [shutdownHttpServer] releases everything.  With the cleanup
    callback that [startHttpServer] registers, or none, and no session
    already being closed, the shutdown leaves no MCP session, no token and
    no pool; every session has been closed once, in the order collected,
    and [close()] has been called exactly once on every pool that was
    registered, and on no other. *)
Theorem shutdownHttpServer_releases_everything outcome w :
  TokenManager.cleanupCallback (tokens w) = None \/
  TokenManager.cleanupCallback (tokens w) = Some closeSessionPool ->
  (forall i sess, SessionManager.sessions (mcp w) !! i = Some sess ->
                  SessionManager.isClosing sess = false) ->
  let w' := shutdownHttpServer outcome w in
  SessionManager.sessions (mcp w') = ∅ /\
  SessionManager.calls (mcp w')
  = SessionManager.calls (mcp w)
    ++ concat ((fun i => SessionManager.close_calls i (outcome i))
                 <$> SessionManager.shutdownSessionIds (mcp w)) /\
  TokenManager.sessions (tokens w') = ∅ /\
  sessionPools (pools w') = ∅ /\
  exists closed,
    closeCalls (pools w') = closeCalls (pools w) ++ closed /\
    forall k, count_occ String.string_dec closed k
              = if decide (is_Some (sessionPools (pools w) !! k)) then 1%nat else 0%nat.
Proof.
  intros Hcb Hopen. cbv zeta.
  assert (Hmcp : mcp (shutdownHttpServer outcome w)
                 = SessionManager.shutdown outcome (mcp w)).
  { unfold shutdownHttpServer. cbn.
    by destruct (TokenManager.shutdown (tokens w, pools w)). }
  assert (Htok : TokenManager.sessions (tokens (shutdownHttpServer outcome w)) = ∅).
  { unfold shutdownHttpServer, TokenManager.shutdown. by cbn. }
  rewrite Hmcp. unfold SessionManager.shutdown.
  destruct (SessionManagerClaims.closeEach_effect outcome
              (SessionManager.shutdownSessionIds (mcp w)) (mcp w))
    as (Hgone & Hrest & Hcalls).
  { apply NoDup_fst_map_to_list. }
  { intros i Hi. unfold SessionManager.shutdownSessionIds in Hi.
    apply list_elem_of_fmap in Hi as ([i' sess] & -> & Hin).
    apply elem_of_map_to_list in Hin. exists sess. split; [done|by eapply Hopen]. }
  split.
  { apply map_eq. intros i. rewrite lookup_empty.
    destruct (decide (i ∈ SessionManager.shutdownSessionIds (mcp w))) as [Hin|Hnin].
    - by apply Hgone.
    - rewrite (Hrest i Hnin).
      destruct (SessionManager.sessions (mcp w) !! i) as [sess|] eqn:Hs; [|done].
      destruct Hnin. unfold SessionManager.shutdownSessionIds.
      apply list_elem_of_fmap. exists (i, sess). split; [done|].
      by apply elem_of_map_to_list. }
  split; [exact Hcalls|]. split; [exact Htok|].
  destruct (HttpClaims.shutdownHttpServer_pools outcome w Hcb) as (ks & Hnd & ->).
  destruct (HttpClaims.closeSome_effect ks (pools w) Hnd)
    as ((c1 & Hc1 & Hnd1 & Hm1) & Hl1).
  set (r1 := foldl (fun acc k => closeSessionPool k acc) (pools w) ks) in *.
  destruct (HttpClaims.closeAllSessionPools_effect r1) as (Hempty & c2 & Hc2 & Hnd2 & Hm2).
  split; [done|]. exists (c1 ++ c2). split; [by rewrite Hc2, Hc1, <- app_assoc|].
  intros k. rewrite count_occ_app.
  assert (Hone : forall (l : list string), NoDup l -> k ∈ l ->
                   count_occ String.string_dec l k = 1%nat).
  { intros l Hl Hin. apply NoDup_count_occ'; [by apply NoDup_ListNoDup|].
    by apply list_elem_of_In. }
  assert (Hzero : forall (l : list string), k ∉ l ->
                    count_occ String.string_dec l k = 0%nat).
  { intros l Hn. apply count_occ_not_In. by intros Hin%list_elem_of_In. }
  destruct (decide (is_Some (sessionPools (pools w) !! k))) as [Hreg|Hreg].
  - destruct (decide (k ∈ ks)) as [Hin|Hnin].
    + rewrite (Hone c1), (Hzero c2); [done| |done|by apply Hm1].
      intros [q Hq]%Hm2. rewrite Hl1, decide_True in Hq; done.
    + rewrite (Hzero c1), (Hone c2); [done|done| |by intros [? _]%Hm1].
      apply Hm2. by rewrite Hl1, decide_False.
  - rewrite (Hzero c1), (Hzero c2); [done| |by intros [_ ?]%Hm1].
    intros [q Hq]%Hm2. rewrite Hl1 in Hq. destruct (decide (k ∈ ks)); [done|].
    apply Hreg. by eexists.
Qed.

Lemma validateAuthRequest_accepts_only_wellformed_witness :
  exists req u front back,
    padded_login = Some req /\
    b_username req = JsString u /\ username one_second_request = trim u /\
    Forall (.∈ whiteSpace) front /\ Forall (.∈ whiteSpace) back /\
    String.list_ascii_of_string u
    = concat front ++ String.list_ascii_of_string (username one_second_request)
      ++ concat back /\
    (forall ws, ws ∈ whiteSpace ->
       ~ ws `prefix_of` String.list_ascii_of_string (username one_second_request) /\
       ~ ws `suffix_of` String.list_ascii_of_string (username one_second_request)) /\
    username one_second_request <> "" /\
    b_password req = JsString (password one_second_request) /\
    password one_second_request <> "" /\
    (forall h, host one_second_request = Some h -> h <> "") /\
    (forall n, port one_second_request = Some n -> 1 <= n <= 65535) /\
    (forall n, duration one_second_request = Some n -> 1 <= n <= 86400).
Proof.
  apply (validateAuthRequest_accepts_only_wellformed padded_login one_second_request).
  vm_compute; reflexivity.
Defined.

Example blank_username_rejected :
  validateAuthRequest blank_login
  = inl "username is required and must be a non-empty string".
Proof. vm_compute. reflexivity. Qed.

Lemma token_issued_only_after_probe_witness :
  TokenManager.sessions (tokens logged_in) !! "tok-1"
  = Some {| TokenManager.token := "tok-1"; TokenManager.config := sample_config;
            TokenManager.createdAt := 0; TokenManager.expiresAt := Some 1000;
            TokenManager.lastUsedAt := 0; TokenManager.mcpSessionId := None |} /\
  TokenManager.sessions
    (tokens (authPost endless (calm 5) plain_login one_failure).2) !! "tok-1"
  = Some {| TokenManager.token := "tok-1"; TokenManager.config := sample_config;
            TokenManager.createdAt := 5; TokenManager.expiresAt := None;
            TokenManager.lastUsedAt := 5; TokenManager.mcpSessionId := None |}.
Proof.
  assert (H : authPost required_stateless (calm 0) one_second_login
                (startHttpServer required_stateless boot)
              = (AuthResponse "tok-1" 1 1000, logged_in))
    by (vm_compute; reflexivity).
  assert (H' : authPost endless (calm 5) plain_login one_failure
               = (ErrorResponse 500 "server_error" "An unexpected error occurred",
                  (authPost endless (calm 5) plain_login one_failure).2))
    by (vm_compute; reflexivity).
  split.
  - destruct (token_issued_only_after_probe _ _ _ _ _ _ H)
      as (_ & authReq & dbConfig & p & _ & Hcfg & _ & _ & _ & _ & _ & Hstored & _).
    cbn in Hcfg. injection Hcfg as <-. exact Hstored.
  - pose proof (token_issued_only_after_probe _ _ _ _ _ _ H') as Hi.
    cbv beta iota zeta in Hi. rewrite decide_True in Hi by reflexivity.
    destruct Hi
      as (_ & authReq & dbConfig & p & _ & Hcfg & _ & _ & _ & _ & _ & Hstored & _).
    cbn in Hcfg. injection Hcfg as <-. exact Hstored.
Defined.

Lemma auth_attempts_accounting_witness :
  authAttempts
    (authPost required_stateless (bad_credentials 0) one_second_login
       (startHttpServer required_stateless boot)).2 !! "10.0.0.1"
  = Some {| AuthThrottle.count := 1; AuthThrottle.resetAt := 60000 |} /\
  authAttempts one_failure !! "10.0.0.1"
  = Some {| AuthThrottle.count := 1; AuthThrottle.resetAt := 60000 |} /\
  (authPost endless (calm 5) plain_login one_failure).1
  = ErrorResponse 500 "server_error" "An unexpected error occurred" /\
  authAttempts (authPost endless (calm 5) plain_login one_failure).2 !! "10.0.0.1"
  = None.
Proof.
  pose proof (auth_attempts_accounting required_stateless (bad_credentials 0)
                one_second_login (startHttpServer required_stateless boot) _ _
                (surjective_pairing _)) as H.
  pose proof (auth_attempts_accounting endless (calm 5) plain_login one_failure _ _
                (surjective_pairing _)) as H'.
  cbv zeta in H, H'. destruct H as (Ha & _). destruct H' as (Ha' & _).
  rewrite Ha, Ha'. vm_compute. repeat split; reflexivity.
Defined.

Lemma mcp_post_admits_only_authenticated_witness :
  exists scheme tok,
    Some "Bearer tok-1" = Some (scheme +:+ String " " tok) /\
    AuthHeader.toLowerCase scheme = "bearer" /\
    tok <> "" /\
    exists sess,
      TokenManager.sessions (tokens logged_in) !! tok = Some sess /\
      later_than 500 (TokenManager.expiresAt sess) = false.
Proof.
  apply (mcp_post_admits_only_authenticated required_stateless (calm 500)
           (Some "Bearer tok-1") None true logged_in Dispatched
           (postMcpWithHeader required_stateless (calm 500) (Some "Bearer tok-1")
              None true logged_in).2);
    [discriminate|vm_compute; reflexivity|intros e d; discriminate].
Defined.

Lemma stateless_request_keeps_no_state_witness :
  mcp (mcpPostHandler weak_stateless (calm 0)
         {| tokenSession := None; authToken := None |} None true boot).2 = mcp boot /\
  closeCalls (pools (mcpPostHandler weak_stateless (calm 0)
                       {| tokenSession := None; authToken := None |} None true boot).2)
  = closeCalls (pools boot).
Proof.
  destruct (stateless_request_keeps_no_state weak_stateless (calm 0)
              {| tokenSession := None; authToken := None |} None true boot _ _
              eq_refl (surjective_pairing _)) as (H1 & _ & H3 & _).
  exact (conj H1 H3).
Defined.

Lemma existing_session_request_witness :
  SessionManager.lastAccessedAt
    <$> SessionManager.sessions
          (mcp (existingSession (calm 10) "uuid-1" shared_pool_in_use).2) !! "uuid-1"
  = Some 30 /\
  SessionManager.activeRequests
    <$> SessionManager.sessions
          (mcp (existingSession (calm 10) "uuid-1" shared_pool_in_use).2) !! "uuid-1"
  = SessionManager.activeRequests
      <$> SessionManager.sessions (mcp shared_pool_in_use) !! "uuid-1".
Proof.
  pose proof (proj2 (proj2 (existing_session_request (calm 10) "uuid-1"))
                shared_pool_in_use _ _ (surjective_pairing _))
    as (_ & _ & _ & _ & _ & H).
  assert (Hs : SessionManager.sessions (mcp shared_pool_in_use) !! "uuid-1"
               = Some {| SessionManager.id := "uuid-1"; SessionManager.server := 1%nat;
                         SessionManager.transport := 1%nat;
                         SessionManager.authToken := "global";
                         SessionManager.createdAt := 0;
                         SessionManager.lastAccessedAt := 0;
                         SessionManager.activeRequests := 0;
                         SessionManager.isClosing := false |})
    by (vm_compute; reflexivity).
  rewrite Hs in H. cbn in H. destruct H as [_ H].
  rewrite (H ltac:(lia)), Hs. split; reflexivity.
Defined.

Lemma env_modes_use_only_the_global_pool_witness :
  closeCalls
    (pools (serveAll weak_stateful
              [(calm 0, PostMcp None None true);
               (calm 1, PostAuth one_second_login);
               (calm 2, DeleteMcp None (Some "uuid-1"))]
              (startHttpServer weak_stateful boot))) = [].
Proof.
  assert (Hmode : authMode weak_stateful <> AuthRequired) by discriminate.
  exact (proj1 (proj2 (env_modes_use_only_the_global_pool weak_stateful
                         [(calm 0, PostMcp None None true);
                          (calm 1, PostAuth one_second_login);
                          (calm 2, DeleteMcp None (Some "uuid-1"))] Hmode))).
Defined.

Lemma shutdownHttpServer_releases_everything_witness :
  SessionManager.sessions (mcp (shutdownHttpServer all_close_ok shared_pool_in_use)) = ∅ /\
  sessionPools (pools (shutdownHttpServer all_close_ok shared_pool_in_use)) = ∅.
Proof.
  assert (Hcb : TokenManager.cleanupCallback (tokens shared_pool_in_use) = None \/
                TokenManager.cleanupCallback (tokens shared_pool_in_use)
                = Some closeSessionPool) by (left; reflexivity).
  assert (Hopen : map_Forall (fun _ s => SessionManager.isClosing s = false)
                    (SessionManager.sessions (mcp shared_pool_in_use))).
  { apply map_Forall_to_list. vm_compute. repeat constructor. }
  destruct (shutdownHttpServer_releases_everything all_close_ok shared_pool_in_use
              Hcb Hopen) as (H1 & _ & _ & H4 & _).
  exact (conj H1 H4).
Defined.

End HttpExtras.
